(** * scrywarden: a shallow embedding of the scoring and investigation core

    The development follows the layout of the Python package:

    - [Py]           exceptions and results shared by all modules;
    - [Message]      [scrywarden/transport/message.py];
    - [Frames]       the ordered row batches (pandas DataFrames) and the
                     operations the package uses on them;
    - [Profile]      [scrywarden/profile/base.py];
    - [Reporters]    [scrywarden/profile/reporters.py];
    - [Analyzers]    [scrywarden/profile/analyzers.py];
    - [Collectors]   [scrywarden/profile/collectors.py];
    - [Investigator] [scrywarden/investigator/base.py];
    - [Pipeline]     [scrywarden/pipline/base.py].

    Integer columns are [Z] and timestamps are [Z] ticks. Float columns
    are exact rationals [Q] in [Reporters] and [Analyzers]; where the
    rounding of the doubles decides a comparison, the same code is
    embedded over binary64 in [Reporters64] and [Analyzers64].
    [ReportersInOrder] holds the optional reporter of section 4.5 of
    the specification, row at a time, to compare with [Reporters].
    The first half of the file holds the definitions, the second half the
    theorems. *)

From Stdlib Require Import ZArith QArith Qfield Bool List String Ascii Lia.
From Stdlib Require Import Lqa.
From Stdlib Require Import Permutation Sorted OrderedTypeEx.
From Stdlib Require Import Floats.
Import ListNotations.

Set Warnings "-register-all".
Set Warnings "-inexact-float".

Local Open Scope string_scope.
Local Open Scope list_scope.
Local Open Scope Z_scope.

(* ===================================================================== *)
(** * Python exceptions and results *)
(* ===================================================================== *)

Module Py.

(** The exception classes that occur in the embedded code. [KeyError]
    carries its argument, the field path. *)
Inductive exn : Type :=
| KeyError (field : list string)
| ValueError
| IndexError
| IntegrityError.

Inductive result (A : Type) : Type :=
| Ok (a : A)
| Raise (e : exn).

Arguments Ok {A} a.
Arguments Raise {A} e.

Definition bind {A B : Type} (r : result A) (k : A -> result B) : result B :=
  match r with
  | Ok a => k a
  | Raise e => Raise e
  end.

Definition is_KeyError (e : exn) : bool :=
  match e with KeyError _ => true | _ => false end.

Definition is_ValueError_or_IndexError (e : exn) : bool :=
  match e with ValueError | IndexError => true | _ => false end.

(** [try: body except <classes>: handler]: an exception of another class
    propagates. *)
Definition try_except {A : Type} (body : result A) (classes : exn -> bool)
    (handler : result A) : result A :=
  match body with
  | Ok a => Ok a
  | Raise e => if classes e then handler else Raise e
  end.

End Py.

(* ===================================================================== *)
(** * transport/message.py *)
(* ===================================================================== *)

Module Message.
Import Py.

(** [scrywarden.typing.JSONValue]. A dictionary is kept as the list of its
    items; a lookup returns the first item with the key. *)
Inductive JSONValue : Type :=
| JNull
| JBool (b : bool)
| JInt (n : Z)
| JFloat (q : Q)
| JStr (s : string)
| JList (items : list JSONValue)
| JDict (items : list (string * JSONValue)).

(** [data[key]] on a dict: [KeyError(key)] when the key is missing. *)
Fixpoint dict_getitem (items : list (string * JSONValue)) (key : string)
    : result JSONValue :=
  match items with
  | [] => Raise (KeyError [key])
  | (k, v) :: rest => if String.eqb k key then Ok v else dict_getitem rest key
  end.

(** [data[i]] on a list, with Python's negative indices: [IndexError] when
    the index is out of range. *)
Definition list_getitem (items : list JSONValue) (i : Z) : result JSONValue :=
  let n := Z.of_nat (List.length items) in
  let j := if i <? 0 then i + n else i in
  if (0 <=? j) && (j <? n) then
    match nth_error items (Z.to_nat j) with
    | Some v => Ok v
    | None => Raise IndexError
    end
  else Raise IndexError.

Section WithInt.

(** Python's builtin [int(str)]: [None] stands for [ValueError]. *)
Variable int : string -> option Z.

Definition py_int (key : string) : result Z :=
  match int key with
  | Some i => Ok i
  | None => Raise ValueError
  end.

(** [get(data, field)]. *)
Fixpoint get (data : JSONValue) (field : list string) : result JSONValue :=
  match field with
  | [] => Ok data
  | key :: remaining =>
      bind
        (match data with
         | JDict items =>
             try_except (dict_getitem items key) is_KeyError
               (Raise (KeyError field))
         | JList items =>
             try_except (bind (py_int key) (list_getitem items))
               is_ValueError_or_IndexError (Raise (KeyError field))
         | _ => Raise (KeyError field)
         end)
        (fun target =>
           try_except (get target remaining) is_KeyError
             (Raise (KeyError field)))
  end.

(** [class Message(NamedTuple)]: the id is the UUID's integer. *)
Record Message : Type := mkMessage {
  id : Z;
  timestamp : Z;
  data : JSONValue
}.

(** The argument of [__getitem__]: a single string or a sequence. *)
Inductive Item : Type :=
| ItemStr (s : string)
| ItemSeq (path : list string).

Definition item_path (item : Item) : list string :=
  match item with
  | ItemStr s => [s]
  | ItemSeq path => path
  end.

Definition getitem (self : Message) (item : Item) : result JSONValue :=
  get (data self) (item_path item).

Definition contains (self : Message) (item : Item) : result bool :=
  try_except (bind (getitem self item) (fun _ => Ok true)) is_KeyError
    (Ok false).

Definition Message_get (self : Message) (item : Item) (default : JSONValue)
    : result JSONValue :=
  try_except (getitem self item) is_KeyError (Ok default).

(** The paths of the claim, after the words of the docstring of [get]:
    [resolves data field v] when following [field] through the nested
    dictionaries and lists of [data] ends at [v]. *)
Inductive resolves : JSONValue -> list string -> JSONValue -> Prop :=
| resolves_nil : forall data, resolves data [] data
| resolves_dict : forall items key remaining target v,
    dict_getitem items key = Ok target ->
    resolves target remaining v ->
    resolves (JDict items) (key :: remaining) v
| resolves_list : forall items key remaining i target v,
    int key = Some i ->
    list_getitem items i = Ok target ->
    resolves target remaining v ->
    resolves (JList items) (key :: remaining) v.

End WithInt.

(** A reading of [int] on plain decimal numerals with an optional sign,
    used by the examples. *)
Definition digit_of (c : ascii) : option Z :=
  let n := Z.of_nat (nat_of_ascii c) in
  if (48 <=? n) && (n <=? 57) then Some (n - 48) else None.

Fixpoint digits_value (acc : Z) (s : string) : option Z :=
  match s with
  | EmptyString => Some acc
  | String c rest =>
      match digit_of c with
      | Some d => digits_value (10 * acc + d) rest
      | None => None
      end
  end.

Definition int_decimal (s : string) : option Z :=
  match s with
  | EmptyString => None
  | String "-"%char (String c rest) =>
      option_map Z.opp (digits_value 0 (String c rest))
  | String "+"%char (String c rest) => digits_value 0 (String c rest)
  | _ => digits_value 0 s
  end.

(** The data of [tests/test_message.py::TestGetValue::test_complex]. *)
Definition test_complex_data : JSONValue :=
  JDict [("nested", JDict [("value", JStr "here"); ("integer", JInt 5)]);
         ("array", JList [JInt 6; JDict [("surprise", JStr "value")]])].

End Message.

Module MessageKeys.
Import Py Message.

(** [keys], [copy] and the iteration of a [Message], of
    [transport/message.py]. *)

(** Python's [str(index)] on an index of [enumerate]: the decimal numeral,
    without sign or leading zero. *)
Definition digit_char (d : Z) : ascii := ascii_of_nat (48 + Z.to_nat d).

Fixpoint str_from (fuel : nat) (n : Z) : string :=
  match fuel with
  | O => String (digit_char n) EmptyString
  | S fuel' =>
      if n <? 10 then String (digit_char n) EmptyString
      else str_from fuel' (n / 10)
             ++ String (digit_char (n mod 10)) EmptyString
  end.

Definition str (index : nat) : string := str_from index (Z.of_nat index).

Section Children.

Variable keys : JSONValue -> list (list string).

(** The loop bodies of [keys]: a child's field, then the child's own
    fields below it. *)
Definition child_keys (field : string) (value : JSONValue)
    : list (list string) :=
  [field] :: map (cons field) (keys value).

Fixpoint items_keys (items : list (string * JSONValue))
    : list (list string) :=
  match items with
  | [] => []
  | (field, value) :: rest => child_keys field value ++ items_keys rest
  end.

Fixpoint enumerate_keys (index : nat) (items : list JSONValue)
    : list (list string) :=
  match items with
  | [] => []
  | value :: rest =>
      child_keys (str index) value ++ enumerate_keys (S index) rest
  end.

End Children.

(** [keys(data)]: the generator's items, in the order they are yielded. *)
Fixpoint keys (data : JSONValue) : list (list string) :=
  match data with
  | JDict items => items_keys keys items
  | JList items => enumerate_keys keys 0 items
  | _ => []
  end.

(** [copy(data)]. *)
Fixpoint copy (data : JSONValue) : JSONValue :=
  match data with
  | JDict items =>
      JDict (map (fun item => (fst item, copy (snd item))) items)
  | JList items => JList (map copy items)
  | _ => data
  end.

(** [Message.__iter__] and [Message.__len__]. *)
Definition iter (self : Message) : list (list string) := keys (data self).

Definition len (self : Message) : Z := Z.of_nat (List.length (iter self)).

(** A Python [dict] holds a key once: so do the item lists that stand for
    dictionaries, at every depth. *)
Fixpoint distinct_fields (items : list (string * JSONValue)) : bool :=
  match items with
  | [] => true
  | (field, _) :: rest =>
      negb (existsb (fun item => String.eqb (fst item) field) rest)
      && distinct_fields rest
  end.

Fixpoint is_json (data : JSONValue) : bool :=
  match data with
  | JDict items =>
      distinct_fields items && forallb (fun item => is_json (snd item)) items
  | JList items => forallb is_json items
  | _ => true
  end.

End MessageKeys.

(* ===================================================================== *)
(** * Ordered row batches: the pandas operations the package uses *)
(* ===================================================================== *)

Module Frames.

Section Generic.

Context {A : Type}.

Fixpoint insert_sorted (leb : A -> A -> bool) (x : A) (l : list A) : list A :=
  match l with
  | [] => [x]
  | y :: rest => if leb x y then x :: l else y :: insert_sorted leb x rest
  end.

(** [df.sort_values(columns, ignore_index=True)] on several columns: a
    stable sort; the result is a new frame, the argument is not changed. *)
Definition sort_values (leb : A -> A -> bool) (df : list A) : list A :=
  fold_right (insert_sorted leb) [] df.

Fixpoint drop_duplicates_from (eqb : A -> A -> bool) (seen l : list A)
    : list A :=
  match l with
  | [] => []
  | x :: rest =>
      if existsb (eqb x) seen then drop_duplicates_from eqb seen rest
      else x :: drop_duplicates_from eqb (x :: seen) rest
  end.

(** [df.drop_duplicates()]: the first occurrence of each row is kept. *)
Definition drop_duplicates (eqb : A -> A -> bool) (l : list A) : list A :=
  drop_duplicates_from eqb [] l.

(** The keys of [df.groupby(columns)]: distinct, in ascending order. *)
Definition group_keys (leb eqb : A -> A -> bool) (keys : list A) : list A :=
  sort_values leb (drop_duplicates eqb keys).

(** [df.reset_index()]: every row with its position. *)
Fixpoint enumerate_from (i : Z) (l : list A) : list (Z * A) :=
  match l with
  | [] => []
  | x :: rest => (i, x) :: enumerate_from (i + 1) rest
  end.

Definition reset_index (df : list A) : list (Z * A) := enumerate_from 0 df.

(** The position of the first row that satisfies [p]: what
    [groupby(...).agg(first=('index', 'first'))] gives for the group [p]. *)
Fixpoint index_of_first (p : A -> bool) (i : Z) (l : list A) : option Z :=
  match l with
  | [] => None
  | x :: rest => if p x then Some i else index_of_first p (i + 1) rest
  end.

End Generic.

(** [left.merge(right, 'left', ...)]: the rows of [left] in order, each one
    joined with every matching row of [right], or kept once with the
    right-hand columns missing. *)
Definition merge_left {L R O : Type} (on : L -> R -> bool)
    (matched : L -> R -> O) (unmatched : L -> O)
    (left : list L) (right : list R) : list O :=
  flat_map
    (fun l =>
       match filter (on l) right with
       | [] => [unmatched l]
       | ms => map (matched l) ms
       end)
    left.

(** The message value frame. *)
Record Value : Type := mkValue {
  profile_id : Z;
  message_id : Z;
  timestamp : Z;
  actor_id : Z;
  field_id : Z;
  value : string
}.

(** The features frame. *)
Record Feature : Type := mkFeature {
  feature_id : Z;
  f_field_id : Z;
  f_actor_id : Z;
  f_value : string;
  f_count : Z
}.

Definition fa_eqb (x y : Z * Z) : bool :=
  (fst x =? fst y) && (snd x =? snd y).

Definition fa_leb (x y : Z * Z) : bool :=
  (fst x <? fst y) || ((fst x =? fst y) && (snd x <=? snd y)).

Definition fav_eqb (x y : Z * Z * string) : bool :=
  fa_eqb (fst x) (fst y) && String.eqb (snd x) (snd y).

Definition fav_leb (x y : Z * Z * string) : bool :=
  (negb (fa_leb (fst y) (fst x)))
  || (fa_eqb (fst x) (fst y) && String.leb (snd x) (snd y)).

Definition value_fa (v : Value) : Z * Z := (field_id v, actor_id v).
Definition value_fav (v : Value) : Z * Z * string :=
  (field_id v, actor_id v, value v).
Definition feature_fa (f : Feature) : Z * Z := (f_field_id f, f_actor_id f).
Definition feature_fav (f : Feature) : Z * Z * string :=
  (f_field_id f, f_actor_id f, f_value f).

(** The JSON serialisation of a string value: the text between double
    quotes. *)
Definition quoted (s : string) : string :=
  String (ascii_of_nat 34) (s ++ String (ascii_of_nat 34) EmptyString).

Definition Qlt_bool (x y : Q) : bool := negb (Qle_bool y x).

Definition Qsum (l : list Q) : Q := fold_right Qplus 0%Q l.

End Frames.

(* ===================================================================== *)
(** * profile/reporters.py *)
(* ===================================================================== *)

Module Reporters.
Import Frames.

Local Open Scope Q_scope.

(** A row of the working frame [df] of a reporter: the message value and
    the numeric columns merged onto it. Every numeric column is a float
    after [fillna(0)]. [Mandatory] uses [groups], [total], [mean], [count]
    and [previous_mean]; [Optional] uses [total], [null_count] and
    [count]; a column a reporter does not have stays at 0. *)
Record Row : Type := mkRow {
  row : Value;
  groups : Q;
  total : Q;
  mean : Q;
  count : Q;
  previous_mean : Q;
  null_count : Q;
  score : Q
}.

Definition with_groups (x : Q) (r : Row) : Row :=
  mkRow (row r) x (total r) (mean r) (count r) (previous_mean r)
    (null_count r) (score r).
Definition with_total (x : Q) (r : Row) : Row :=
  mkRow (row r) (groups r) x (mean r) (count r) (previous_mean r)
    (null_count r) (score r).
Definition with_mean (x : Q) (r : Row) : Row :=
  mkRow (row r) (groups r) (total r) x (count r) (previous_mean r)
    (null_count r) (score r).
Definition with_count (x : Q) (r : Row) : Row :=
  mkRow (row r) (groups r) (total r) (mean r) x (previous_mean r)
    (null_count r) (score r).
Definition with_previous_mean (x : Q) (r : Row) : Row :=
  mkRow (row r) (groups r) (total r) (mean r) (count r) x
    (null_count r) (score r).
Definition with_null_count (x : Q) (r : Row) : Row :=
  mkRow (row r) (groups r) (total r) (mean r) (count r) (previous_mean r)
    x (score r).
Definition with_score (x : Q) (r : Row) : Row :=
  mkRow (row r) (groups r) (total r) (mean r) (count r) (previous_mean r)
    (null_count r) x.

(** The frame a reporter returns: the value columns and [score]. *)
Record Scored : Type := mkScored {
  s_row : Value;
  s_score : Q
}.

Definition row_actor (r : Row) : Z := actor_id (row r).
Definition row_value (r : Row) : string := value (row r).
Definition row_timestamp (r : Row) : Z := timestamp (row r).

(** Order of [['actor_id', 'timestamp']]. *)
Definition actor_timestamp_leb (x y : Row) : bool :=
  ((row_actor x <? row_actor y)
   || ((row_actor x =? row_actor y)
       && (row_timestamp x <=? row_timestamp y)))%Z.

(** Order of [['actor_id', 'value', 'timestamp']]. *)
Definition actor_value_timestamp_leb (x y : Row) : bool :=
  ((row_actor x <? row_actor y)
   || ((row_actor x =? row_actor y)
       && (String.ltb (row_value x) (row_value y)
           || (String.eqb (row_value x) (row_value y)
               && (row_timestamp x <=? row_timestamp y)))))%Z.

Definition same_actor (x y : Row) : bool := (row_actor x =? row_actor y)%Z.

Definition same_actor_value (x y : Row) : bool :=
  (row_actor x =? row_actor y)%Z && String.eqb (row_value x) (row_value y).

(** The column [index - first] of a sorted frame, [first] being the index
    of the first row of the row's group: [same] tells when two rows are in
    one group of the [groupby]. Every row is in its own group, so the left
    merge of the aggregate leaves no row without [first]. *)
Definition index_minus_first (same : Row -> Row -> bool) (df : list Row)
    (indexed : Z * Row) : Q :=
  match index_of_first (same (snd indexed)) 0%Z df with
  | Some first => inject_Z (fst indexed - first)
  | None => 0
  end.

(** [increment_total(values)]. *)
Definition increment_total (values : list Row) : list Row :=
  let df := sort_values actor_timestamp_leb values in
  map (fun ir =>
         with_total (total (snd ir) + index_minus_first same_actor df ir)
           (snd ir))
      (reset_index df).

(** [increment_count(values)]. *)
Definition increment_count (values : list Row) : list Row :=
  let df := sort_values actor_value_timestamp_leb values in
  map (fun ir =>
         with_count (count (snd ir) + index_minus_first same_actor_value df ir)
           (snd ir))
      (reset_index df).

(** The aggregate of [matching_features.groupby(['field_id', 'actor_id'])]:
    for each key, [groups] (the number of values), [total] (the sum of the
    counts) and [mean] (their mean). *)
Record FaAgg : Type := mkFaAgg {
  agg_key : Z * Z;
  agg_groups : Q;
  agg_total : Q;
  agg_mean : Q
}.

Definition unique_fa (values : list Value) : list (Z * Z) :=
  drop_duplicates fa_eqb (map value_fa values).

Definition matching_features (values : list Value) (features : list Feature)
    : list Feature :=
  filter (fun f => existsb (fa_eqb (feature_fa f)) (unique_fa values))
    features.

Definition fa_group (features : list Feature) (key : Z * Z) : list Feature :=
  filter (fun f => fa_eqb (feature_fa f) key) features.

Definition counts_of (features : list Feature) : list Q :=
  map (fun f => inject_Z (f_count f)) features.

Definition feature_fa_agg (matching : list Feature) : list FaAgg :=
  map (fun key =>
         let g := fa_group matching key in
         let n := inject_Z (Z.of_nat (List.length g)) in
         mkFaAgg key n (Qsum (counts_of g)) (Qsum (counts_of g) / n))
      (group_keys fa_leb fa_eqb (map feature_fa matching)).

(** [values.merge(feature_fa_agg, 'left', ...)] then
    [.merge(feature_fav_agg, 'left', ...)] then [fillna(0)]: a row without
    a match gets 0 in the merged columns. *)
Definition merge_fa (values : list Value) (agg : list FaAgg) : list Row :=
  merge_left
    (fun v a => fa_eqb (value_fa v) (agg_key a))
    (fun v a => mkRow v (agg_groups a) (agg_total a) (agg_mean a) 0 0 0 0)
    (fun v => mkRow v 0 0 0 0 0 0 0)
    values agg.

Definition merge_fav (df : list Row) (features : list Feature) : list Row :=
  merge_left
    (fun r f => fav_eqb (value_fav (row r)) (feature_fav f))
    (fun r f => with_count (inject_Z (f_count f)) r)
    (fun r => with_count 0 r)
    df features.

(** ** [class Mandatory] *)

(** [df['previous_mean'] = 0.0] and the two masked assignments. *)
Definition set_previous_mean (r : Row) : Row :=
  let enough_groups := Qlt_bool 1 (groups r) in
  let pm0 := 0 in
  let pm1 :=
    if enough_groups && negb (Qeq_bool (count r) 0)
    then (mean r * groups r - count r) / (groups r - 1)
    else pm0 in
  let pm2 := if enough_groups && Qeq_bool (count r) 0 then mean r else pm1 in
  with_previous_mean pm2 r.

(** [_update_groups]: the closure over [section] and [counter], applied to
    the rows in order. *)
Fixpoint update_groups_from (section counter : Z) (df : list Row)
    : list Row :=
  match df with
  | [] => []
  | x :: rest =>
      let counter :=
        if negb (row_actor x =? section)%Z then 0%Z else counter in
      let section :=
        if negb (row_actor x =? section)%Z then row_actor x else section in
      let x' :=
        if negb (counter =? 0)%Z
        then with_groups (groups x + inject_Z counter) x else x in
      let counter :=
        if Qeq_bool (count x) 0 then (counter + 1)%Z else counter in
      x' :: update_groups_from section counter rest
  end.

Definition update_groups (df : list Row) : list Row :=
  update_groups_from (-1)%Z 0%Z df.

(** [df.loc[df['groups'] > 0, 'mean'] = ...]. *)
Definition set_mean (r : Row) : Row :=
  if Qlt_bool 0 (groups r)
  then with_mean
         (previous_mean r + (count r - previous_mean r) / groups r) r
  else r.

(** [df['score'] = 0.0], the two masked assignments and the weight. *)
Definition Mandatory_set_score (weight : Q) (r : Row) : Row :=
  let s0 := 0 in
  let s1 :=
    if String.eqb (row_value r) EmptyString || Qeq_bool (count r) 0
    then 1 else s0 in
  let s2 :=
    if Qlt_bool (count r) (mean r) && negb (Qeq_bool s1 1)
    then 1 - count r / total r
    else s1 in
  with_score (s2 * weight) r.

(** The working frame of [Mandatory.__call__] when [_update_groups] is
    applied, and just before the score column is set. *)
Definition Mandatory_before_groups (values : list Value)
    (features : list Feature) : list Row :=
  let agg := feature_fa_agg (matching_features values features) in
  let df := merge_fa values agg in
  let df := merge_fav df features in
  let df := map set_previous_mean df in
  let df := increment_count df in
  increment_total df.

Definition Mandatory_frame (values : list Value) (features : list Feature)
    : list Row :=
  let df := Mandatory_before_groups values features in
  let df := update_groups df in
  map set_mean df.

Definition drop_columns (r : Row) : Scored := mkScored (row r) (score r).

(** [Mandatory.__call__(values, features)]. *)
Definition Mandatory_call (weight : Q) (values : list Value)
    (features : list Feature) : list Scored :=
  map drop_columns
    (map (Mandatory_set_score weight) (Mandatory_frame values features)).

(** ** [class Optional] *)

Record TotalAgg : Type := mkTotalAgg {
  tagg_key : Z * Z;
  tagg_total : Q
}.

Definition features_fa_agg (matching : list Feature) : list TotalAgg :=
  map (fun key => mkTotalAgg key (Qsum (counts_of (fa_group matching key))))
      (group_keys fa_leb fa_eqb (map feature_fa matching)).

(** [null_values]: one row for each [(field_id, actor_id)] of the values
    and each feature of that key with the value [''], with its count as
    [null_count]; 0 when there is none. *)
Record NullValue : Type := mkNullValue {
  null_key : Z * Z;
  null_value_count : Q
}.

Definition null_values (values : list Value) (features : list Feature)
    : list NullValue :=
  merge_left
    (fun key f => fav_eqb (key, EmptyString) (feature_fav f))
    (fun key f => mkNullValue key (inject_Z (f_count f)))
    (fun key => mkNullValue key 0)
    (unique_fa values) features.

Definition merge_total (values : list Value) (agg : list TotalAgg)
    : list Row :=
  merge_left
    (fun v a => fa_eqb (value_fa v) (tagg_key a))
    (fun v a => mkRow v 0 (tagg_total a) 0 0 0 0 0)
    (fun v => mkRow v 0 0 0 0 0 0 0)
    values agg.

Definition merge_null (df : list Row) (nulls : list NullValue) : list Row :=
  merge_left
    (fun r n => fa_eqb (value_fa (row r)) (null_key n))
    (fun r n => with_null_count (null_value_count n) r)
    (fun r => with_null_count 0 r)
    df nulls.

(** [_update_count]: the closure over [section] and [counter]. *)
Fixpoint update_count_from (section counter : Z) (df : list Row)
    : list Row :=
  match df with
  | [] => []
  | x :: rest =>
      let counter :=
        if negb (row_actor x =? section)%Z then 0%Z else counter in
      let section :=
        if negb (row_actor x =? section)%Z then row_actor x else section in
      let x' :=
        if negb (counter =? 0)%Z
        then with_null_count (null_count x + inject_Z counter) x else x in
      let counter :=
        if String.eqb (row_value x) EmptyString then (counter + 1)%Z else counter in
      x' :: update_count_from section counter rest
  end.

Definition update_count (df : list Row) : list Row :=
  update_count_from (-1)%Z 0%Z df.

Definition Optional_set_score (weight : Q) (r : Row) : Row :=
  let ne_null := negb (String.eqb (row_value r) EmptyString) in
  let e_zero := Qeq_bool (count r) 0 in
  let s0 := 0 in
  let s1 := if ne_null && e_zero && Qeq_bool (total r) 0 then 1 else s0 in
  let s2 :=
    if ne_null && e_zero && Qeq_bool s1 0 then null_count r / total r
    else s1 in
  with_score (s2 * weight) r.

(** The working frame of [Optional.__call__] just before the score column
    is set. *)
Definition Optional_frame (values : list Value) (features : list Feature)
    : list Row :=
  let agg := features_fa_agg (matching_features values features) in
  let nulls := null_values values features in
  let df := merge_total values agg in
  let df := merge_null df nulls in
  let df := merge_fav df features in
  let df := increment_total df in
  let df := update_count df in
  increment_count df.

(** [Optional.__call__(values, features)]. *)
Definition Optional_call (weight : Q) (values : list Value)
    (features : list Feature) : list Scored :=
  map drop_columns
    (map (Optional_set_score weight) (Optional_frame values features)).

(** The number of rows with a zero count among the rows that come just
    before a row of actor [actor] and have the same actor: [before] lists
    the earlier rows, the nearest first. *)
Fixpoint zeros_in_run (actor : Z) (before : list Row) : Z :=
  match before with
  | [] => 0%Z
  | y :: earlier =>
      if (row_actor y =? actor)%Z
      then ((if Qeq_bool (count y) 0 then 1 else 0)
            + zeros_in_run actor earlier)%Z
      else 0%Z
  end.

(** The rows of [pre] of the actor of [x] with a zero count: the values
    of the actor that appear for the first time before [x]. *)
Definition new_values_before (x : Row) (pre : list Row) : Z :=
  Z.of_nat
    (List.length
       (filter
          (fun y => (row_actor y =? row_actor x)%Z && Qeq_bool (count y) 0)
          pre)).

(** The rows of [l] of the actor of [x] that are not later than [x]. *)
Definition earlier_same_actor (x : Row) (l : list Row) : Z :=
  Z.of_nat
    (List.length
       (filter
          (fun y => (row_actor y =? row_actor x)%Z
                    && (row_timestamp y <=? row_timestamp x)%Z)
          l)).

(** Every row of [df] has a count that exceeds its total by no more than
    the number of rows of its actor, not later than it, that come before
    it in [df] or are in [outside]. *)
Definition ranked (outside df : list Row) : Prop :=
  forall pre x post,
    df = pre ++ x :: post ->
    count x - total x <= inject_Z (earlier_same_actor x (outside ++ pre)).

(** The order of [['actor_id', 'value', 'timestamp']] as a relation. *)
Definition key_le (x y : Row) : Prop :=
  (row_actor x < row_actor y)%Z
  \/ (row_actor x = row_actor y
      /\ (String_as_OT.lt (row_value x) (row_value y)
          \/ (row_value x = row_value y
              /\ (row_timestamp x <= row_timestamp y)%Z))).

(** The order of the actor partitions of a sorted frame. *)
Definition actor_le (x y : Row) : Prop := (row_actor x <= row_actor y)%Z.

(** The drift scenario: a hundred ["hello"] recorded for actor 1 on field
    1, then a batch with a first ["goodbye"] and two more ["hello"]. *)
Definition drift_features : list Feature :=
  [mkFeature 7 1 1 (quoted "hello") 100].

Definition drift_values : list Value :=
  [mkValue 1 10 1 1 1 (quoted "goodbye"); mkValue 1 11 2 1 1 (quoted "hello");
   mkValue 1 12 3 1 1 (quoted "hello")].

(** The closure state of [_update_groups] after the rows [pre]. *)
Fixpoint groups_state (section counter : Z) (pre : list Row) : Z * Z :=
  match pre with
  | [] => (section, counter)
  | x :: rest =>
      let counter0 :=
        if negb (row_actor x =? section)%Z then 0%Z else counter in
      let section' :=
        if negb (row_actor x =? section)%Z then row_actor x else section in
      groups_state section'
        (if Qeq_bool (count x) 0 then (counter0 + 1)%Z else counter0) rest
  end.

(** An optional field with the history [''] twice and ["hello"] once: a
    first ["goodbye"] scores 2/3, a later ["hello"] scores 0 and an empty
    value scores 0; with no history a first value scores 1. *)
Definition optional_features : list Feature :=
  [mkFeature 7 1 1 EmptyString 2; mkFeature 8 1 1 (quoted "hello") 1].

(** The frame of the drift scenario when [_update_groups] is applied, cut
    at its second row. *)
Definition drift_frame : list Row :=
  Mandatory_before_groups drift_values drift_features.

Definition null_row : Row :=
  mkRow (mkValue 0 0 0 0 0 EmptyString) 0 0 0 0 0 0 0.

(** The score of a row after the words of the specification. *)
Definition Mandatory_score_spec (weight : Q) (value : string)
    (count mean total : Q) : Q :=
  weight *
  (if String.eqb value EmptyString || Qeq_bool count 0 then 1
   else if Qle_bool mean count then 0
   else 1 - count / total).

Definition Optional_score_spec (weight : Q) (value : string)
    (count total null_count : Q) : Q :=
  if String.eqb value EmptyString then 0
  else if Qlt_bool 0 count then weight * 0
  else if Qeq_bool count 0 && Qeq_bool total 0 then weight * 1
  else weight * (null_count / total).

End Reporters.

Module ReportersRuns.
Import Frames Reporters.

(** The number of rows of [l] of the actor [actor]: the length of the
    actor's partition in a frame. *)
Definition actor_rows (actor : Z) (l : list Row) : Z :=
  Z.of_nat (List.length (filter (fun y => (row_actor y =? actor)%Z) l)).

End ReportersRuns.

Module ReportersInOrder.
Import Frames Reporters.

(** The optional reporter row at a time, after section 4.5 of the
    specification: the rows of a batch are taken in the order of
    [(actor_id, timestamp)], and each row is scored on the counts of the
    features table advanced by the rows of the batch that come before
    it. The definitions from [merged_row] on name the rows of the working
    frame of [Optional.__call__] after each of its steps. *)

(** [f earlier x] for each row [x] of [l], [earlier] being the rows
    before it. *)
Fixpoint with_earlier {A B : Type} (f : list A -> A -> B)
    (earlier l : list A) : list B :=
  match l with
  | [] => []
  | x :: rest => f earlier x :: with_earlier f (earlier ++ [x]) rest
  end.

(** [count] of the features row of a [(field_id, actor_id, value)], 0
    when the table has none. *)
Definition stored_count (features : list Feature) (key : Z * Z * string)
    : Q :=
  match filter (fun f => fav_eqb key (feature_fav f)) features with
  | [] => 0%Q
  | f :: _ => inject_Z (f_count f)
  end.

(** The sum of [count] over the features rows of a
    [(field_id, actor_id)]. *)
Definition stored_total (features : list Feature) (key : Z * Z) : Q :=
  Qsum (counts_of (fa_group features key)).

(** The number of earlier rows of the [(field_id, actor_id)] of [v] that
    satisfy [p]. *)
Definition rows_before (p : Value -> bool) (v : Value)
    (earlier : list Value) : Q :=
  inject_Z
    (Z.of_nat
       (List.length
          (filter (fun u => fa_eqb (value_fa u) (value_fa v) && p u)
             earlier))).

(** The score of the row [v] that comes after the rows [earlier] of its
    batch. *)
Definition Optional_row (weight : Q) (features : list Feature)
    (earlier : list Value) (v : Value) : Scored :=
  let count :=
    (stored_count features (value_fav v)
     + rows_before (fun u => String.eqb (value u) (value v)) v earlier)%Q in
  let total :=
    (stored_total features (value_fa v)
     + rows_before (fun _ => true) v earlier)%Q in
  let null_count :=
    (stored_count features (value_fa v, EmptyString)
     + rows_before (fun u => String.eqb (value u) EmptyString) v earlier)%Q in
  mkScored v (Optional_score_spec weight (value v) count total null_count).

(** Order of [(actor_id, timestamp)] on the value rows. *)
Definition value_timestamp_leb (x y : Value) : bool :=
  (actor_id x <? actor_id y)
  || ((actor_id x =? actor_id y) && (timestamp x <=? timestamp y)).

(** Order of [(actor_id, value, timestamp)] on the scored rows. *)
Definition scored_leb (x y : Scored) : bool :=
  (actor_id (s_row x) <? actor_id (s_row y))
  || ((actor_id (s_row x) =? actor_id (s_row y))
      && (String.ltb (value (s_row x)) (value (s_row y))
          || (String.eqb (value (s_row x)) (value (s_row y))
              && (timestamp (s_row x) <=? timestamp (s_row y))))).

(** The batch scored row at a time, the scored rows then put in the order
    of [(actor_id, value, timestamp)]. *)
Definition Optional_in_order (weight : Q) (values : list Value)
    (features : list Feature) : list Scored :=
  sort_values scored_leb
    (with_earlier (Optional_row weight features) []
       (sort_values value_timestamp_leb values)).

(** The row of the working frame of [Optional.__call__] for the value row
    [v] as the merges leave it. *)
Definition merged_row (features : list Feature) (v : Value) : Row :=
  mkRow v 0 (stored_total features (value_fa v)) 0
    (stored_count features (value_fav v)) 0
    (stored_count features (value_fa v, EmptyString)) 0.

(** The earlier rows of the actor of [v] that satisfy [p]. *)
Definition actor_rows_before (p : Value -> bool) (v : Value)
    (earlier : list Value) : Z :=
  Z.of_nat
    (List.length
       (filter (fun u => (actor_id v =? actor_id u) && p u) earlier)).

(** The row of the working frame after [increment_total]. *)
Definition totalled_row (features : list Feature) (earlier : list Value)
    (v : Value) : Row :=
  with_total
    (total (merged_row features v)
     + inject_Z (actor_rows_before (fun _ => true) v earlier))%Q
    (merged_row features v).

(** The row of the working frame after [_update_count]. *)
Definition counted_row (features : list Feature) (earlier : list Value)
    (v : Value) : Row :=
  let x := totalled_row features earlier v in
  let c :=
    actor_rows_before (fun u => String.eqb (value u) EmptyString) v earlier in
  if negb (c =? 0) then with_null_count (null_count x + inject_Z c)%Q x
  else x.

(** A row of the working frame with its rank among the rows of its actor
    and value, and the row scored on its own. *)
Definition ranked_row (weight : Q) (features : list Feature)
    (earlier : list Value) (v : Value) : Z * Row * Scored :=
  (actor_rows_before (fun u => String.eqb (value v) (value u)) v earlier,
   counted_row features earlier v,
   Optional_row weight features earlier v).

Definition ranked_leb (x y : Z * Row * Scored) : bool :=
  actor_value_timestamp_leb (snd (fst x)) (snd (fst y)).

(** A batch of one actor with an empty value between two greetings, the
    second of them new. *)
Definition optional_batch : list Value :=
  [mkValue 1 12 3 1 1 (quoted "goodbye"); mkValue 1 11 2 1 1 EmptyString;
   mkValue 1 10 1 1 1 (quoted "hello")].

End ReportersInOrder.

(* ===================================================================== *)
(** * profile/base.py *)
(* ===================================================================== *)

Module Profile.
Import Py Frames.

(** [values.groupby(['field_id', 'actor_id', 'value']).agg(
    count=('message_id', 'nunique'))]: the keys in ascending order, each
    with the number of distinct message ids of its rows. *)
Definition nunique_message_id (values : list Value) (key : Z * Z * string)
    : Z :=
  Z.of_nat
    (List.length
       (drop_duplicates Z.eqb
          (map message_id
             (filter (fun v => fav_eqb (value_fav v) key) values)))).

Definition grouped (values : list Value) : list (Z * Z * string * Z) :=
  map (fun key => (key, nunique_message_id values key))
      (group_keys fav_leb fav_eqb (map value_fav values)).

Fixpoint grouped_count (g : list (Z * Z * string * Z)) (key : Z * Z * string)
    : option Z :=
  match g with
  | [] => None
  | (k, c) :: rest => if fav_eqb k key then Some c else grouped_count rest key
  end.

(** [update_feature_count(values, features)]. The features are indexed by
    [(field_id, actor_id, value)], which the table keeps unique. *)
Definition update_feature_count (values : list Value)
    (features : list Feature) : list Feature :=
  let g := grouped values in
  let indexed :=
    map (fun f =>
           match grouped_count g (feature_fav f) with
           | Some c =>
               mkFeature (feature_id f) (f_field_id f) (f_actor_id f)
                 (f_value f) (f_count f + c)
           | None => f
           end)
        features in
  let missing :=
    filter
      (fun kc => negb (existsb (fun f => fav_eqb (feature_fav f) (fst kc))
                         features))
      g in
  indexed
  ++ map (fun kc =>
            mkFeature 0 (fst (fst (fst kc))) (snd (fst (fst kc)))
              (snd (fst kc)) (snd kc))
         missing.

(** The reporter attached to a field. *)
Inductive Reporter : Type :=
| Mandatory (weight : Q)
| Optional (weight : Q).

Definition reporter_call (r : Reporter) (values : list Value)
    (features : list Feature) : list Reporters.Scored :=
  match r with
  | Mandatory weight => Reporters.Mandatory_call weight values features
  | Optional weight => Reporters.Optional_call weight values features
  end.

(** A [ProfileField]: the synced model id, the reporter of the instance,
    and [_get_field_value] of the instance ([get_value] followed by the
    sorted-key JSON serialisation, [''] for [None]). *)
Record ProfileField : Type := mkProfileField {
  model_id : Z;
  reporter : Reporter;
  get_field_value : Message.Message -> result string
}.

(** A profile: its synced model id, [matches], [_get_actor_name] and its
    fields in definition order. *)
Record Profile : Type := mkProfile {
  profile_model_id : Z;
  matches : Message.Message -> bool;
  get_actor_name : Message.Message -> result string;
  fields : list ProfileField
}.

Fixpoint by_id (fs : list ProfileField) (field : Z) : result ProfileField :=
  match fs with
  | [] => Raise (KeyError [])
  | f :: rest => if model_id f =? field then Ok f else by_id rest field
  end.

(** [_generate_rows]: a message that does not match, or whose actor or
    field value raises, yields no row. The rows have the columns of
    [identify]; [actor_name] is carried next to the value until the actor
    ids are merged. *)
Definition field_rows (self : Profile) (message : Message.Message)
    (actor_name : string) : list (string * Value) :=
  flat_map
    (fun field =>
       match get_field_value field message with
       | Ok v =>
           [(actor_name,
             mkValue (profile_model_id self) (Message.id message)
               (Message.timestamp message) 0 (model_id field) v)]
       | Raise _ => []
       end)
    (fields self).

Definition identify (self : Profile) (messages : list Message.Message)
    : list (string * Value) :=
  flat_map
    (fun message =>
       if matches self message then
         match get_actor_name self message with
         | Ok actor_name => field_rows self message actor_name
         | Raise _ => []
         end
       else [])
    messages.

(** The loop of [process(values, features)] over the groups of
    [values.groupby('field_id')], in ascending order of the key: [results]
    gets one frame for each group and the features are threaded
    through. *)
Fixpoint process_groups (self : Profile) (values : list Value)
    (keys : list Z) (features : list Feature)
    : result (list (list Reporters.Scored) * list Feature) :=
  match keys with
  | [] => Ok ([], features)
  | field :: rest =>
      let group := filter (fun v => field_id v =? field) values in
      bind (by_id (fields self) field) (fun pf =>
      let result := reporter_call (reporter pf) group features in
      let features := update_feature_count group features in
      bind (process_groups self values rest features) (fun out =>
      Ok (result :: fst out, snd out)))
  end.

(** [pa.concat(results, ignore_index=True)]: no frame to concatenate is a
    [ValueError]. *)
Definition concat_results (results : list (list Reporters.Scored))
    : result (list Reporters.Scored) :=
  match results with
  | [] => Raise ValueError
  | _ :: _ => Ok (List.concat results)
  end.

(** [process(values, features)]. A frame without rows has no group, so
    [results] stays empty and [pa.concat] raises. *)
Definition process (self : Profile) (values : list Value)
    (features : list Feature)
    : result (list Reporters.Scored * list Feature) :=
  bind (process_groups self values
          (group_keys Z.leb Z.eqb (map field_id values)) features)
    (fun out =>
  bind (concat_results (fst out)) (fun scored =>
  Ok (scored, snd out))).

(** The frames of [tests/test_profile.py]. *)
Definition test_features : list Feature :=
  [mkFeature 1 1 1 (quoted "Hello") 4; mkFeature 2 1 2 (quoted "Greetings") 2].

Definition test_values : list Value :=
  [mkValue 0 1 0 2 1 (quoted "Greetings"); mkValue 0 2 0 1 2 (quoted "Whats up?")].

Definition test_expected : list Feature :=
  [mkFeature 1 1 1 (quoted "Hello") 4; mkFeature 2 1 2 (quoted "Greetings") 3;
   mkFeature 0 2 1 (quoted "Whats up?") 1].

End Profile.

Module Fields.
Import Py Message.

(** [profile/fields.py] and [Profile._get_field_value] of
    [profile/base.py]. *)

Section WithInt.

Variable int : string -> option Z.

(** Python's truth value of a key: [None], [''] and [()] are false. *)
Definition truthy (key : option Item) : bool :=
  match key with
  | None => false
  | Some (ItemStr s) => negb (String.eqb s EmptyString)
  | Some (ItemSeq path) => match path with [] => false | _ => true end
  end.

(** [self.key or self.name]. *)
Definition key_or_name (key : option Item) (name : string) : Item :=
  match key with
  | Some item => if truthy key then item else ItemStr name
  | None => ItemStr name
  end.

(** [Single.get_value]: [message.get(self.key or self.name)], the default
    being [None]. *)
Definition Single_get_value (key : option Item) (name : string)
    (message : Message) : result JSONValue :=
  Message_get int message (key_or_name key name) JNull.

(** [Multi.get_value]: the list of [message.get(key)] for each key. *)
Fixpoint Multi_values (keys : list Item) (message : Message)
    : result (list JSONValue) :=
  match keys with
  | [] => Ok []
  | key :: rest =>
      bind (Message_get int message key JNull) (fun value =>
      bind (Multi_values rest message) (fun values =>
      Ok (value :: values)))
  end.

Definition Multi_get_value (keys : list Item) (message : Message)
    : result JSONValue :=
  bind (Multi_values keys message) (fun values => Ok (JList values)).

(** [Profile._get_field_value]: [''] for [None], else the serialisation
    [dumps] of the value (orjson with sorted keys), whose failure is
    turned into a [ValueError]. *)
Definition get_field_value (dumps : JSONValue -> result string)
    (get_value : Message -> result JSONValue) (message : Message)
    : result string :=
  bind (get_value message) (fun value =>
  match value with
  | JNull => Ok EmptyString
  | _ => try_except (dumps value) (fun _ => true) (Raise ValueError)
  end).

End WithInt.

End Fields.

(* ===================================================================== *)
(** * profile/analyzers.py *)
(* ===================================================================== *)

Module Analyzers.
Import Frames.

Local Open Scope Q_scope.

(** A row of the anomaly frame. *)
Record Anomaly : Type := mkAnomaly {
  event_id : Z;
  message_id : Z;
  actor_id : Z;
  created_at : Z;
  anomaly_id : Z;
  field_id : Z;
  score : Q
}.

Record ExponentialDecayAnalyzer : Type := mkAnalyzer {
  weight : Q;
  decay : Q;
  threshold : Q
}.

(** The defaults of [__init__]: 0.2, 0.1 and 0.5. *)
Definition default_analyzer : ExponentialDecayAnalyzer :=
  mkAnalyzer (2 # 10) (1 # 10) (5 # 10).

(** A row of [anomalies.groupby('actor_id').agg(...)]. *)
Record ActorAgg : Type := mkActorAgg {
  agg_actor : Z;
  agg_mean : Q;
  agg_count : Z
}.

Definition actor_group (anomalies : list Anomaly) (actor : Z)
    : list Anomaly :=
  filter (fun a => (actor_id a =? actor)%Z) anomalies.

Definition agg (anomalies : list Anomaly) : list ActorAgg :=
  map (fun actor =>
         let g := actor_group anomalies actor in
         let n := Z.of_nat (List.length (map event_id g)) in
         mkActorAgg actor (Qsum (map score g) / inject_Z n) n)
      (group_keys Z.leb Z.eqb (map actor_id anomalies)).

Definition weighted_mean (self : ExponentialDecayAnalyzer) (a : ActorAgg)
    : Q :=
  agg_mean a - weight self * (1 - decay self) ^ (agg_count a - 1).

(** [analyze(anomalies)]: the left merge of the aggregate puts
    [weighted_mean] on every row ([None] for a missing value, which no
    comparison accepts); the filter keeps the rows that reach the
    threshold; the merged columns are dropped. *)
Definition analyze (self : ExponentialDecayAnalyzer)
    (anomalies : list Anomaly) : list Anomaly :=
  let df :=
    merge_left
      (fun r a => (actor_id r =? agg_actor a)%Z)
      (fun r a => (r, Some (weighted_mean self a)))
      (fun r => (r, None))
      anomalies (agg anomalies) in
  let df :=
    filter
      (fun rw =>
         match snd rw with
         | Some w => Qle_bool (threshold self) w
         | None => false
         end)
      df in
  map fst df.

(** The group of an actor after the words of the specification: its rows,
    the mean of their scores and their number. *)
Definition group_weighted_mean (self : ExponentialDecayAnalyzer)
    (anomalies : list Anomaly) (actor : Z) : Q :=
  let g := actor_group anomalies actor in
  Qsum (map score g) / inject_Z (Z.of_nat (List.length g))
  - weight self * (1 - decay self) ^ (Z.of_nat (List.length g) - 1).

Definition anomaly_of (actor event : Z) (s : Q) : Anomaly :=
  mkAnomaly event event actor 0 event 1 s.

(** The tables of the analyzer scenario: actor 1 with two scores 0.9,
    actor 2 with twenty scores 0.9, actor 3 with a single 0.9, actor 4
    with a single 0.6. *)
Definition scenario_two : list Anomaly :=
  [anomaly_of 1 1 (9 # 10); anomaly_of 1 2 (9 # 10)].

Definition scenario_twenty : list Anomaly :=
  map (fun e => anomaly_of 2 (Z.of_nat e) (9 # 10)) (seq 100 20).

Definition scenario_single_high : list Anomaly := [anomaly_of 3 200 (9 # 10)].

Definition scenario_single_low : list Anomaly := [anomaly_of 4 300 (6 # 10)].

Definition scenario_all : list Anomaly :=
  scenario_single_low ++ scenario_two ++ scenario_single_high
  ++ scenario_twenty.

End Analyzers.

Module Binary64.

(** The float64 of numpy and pandas, and the [float] of Python: IEEE 754
    binary64 with rounding to nearest, ties to even, as the kernel's
    primitive floats compute it. *)

(** An integer as a float: exact below 2^53. *)
Definition of_Z (z : Z) : float :=
  match z with
  | Z0 => 0%float
  | Zpos _ => PrimFloat.of_uint63 (Uint63.of_Z z)
  | Zneg p => (- PrimFloat.of_uint63 (Uint63.of_Z (Zpos p)))%float
  end.

(** [x != y] on floats. *)
Definition neqb (x y : float) : bool := negb (PrimFloat.eqb x y).

End Binary64.

Module Analyzers64.
Import Frames Binary64.

Local Open Scope float_scope.

(** [ExponentialDecayAnalyzer] of [profile/analyzers.py] over float64:
    the [score] column and the three parameters are floats, and so are
    the mean and the weighted mean of a group. *)

(** A row of the anomaly frame. *)
Record Anomaly : Type := mkAnomaly {
  event_id : Z;
  message_id : Z;
  actor_id : Z;
  created_at : Z;
  anomaly_id : Z;
  field_id : Z;
  score : float
}.

Record ExponentialDecayAnalyzer : Type := mkAnalyzer {
  weight : float;
  decay : float;
  threshold : float
}.

(** The defaults of [__init__]: 0.2, 0.1 and 0.5. *)
Definition default_analyzer : ExponentialDecayAnalyzer :=
  mkAnalyzer 0.2 0.1 0.5.

(** The two library routines of [analyze] whose rounding the source does
    not fix: the mean of a group of [groupby(...).agg(mean=...)], and
    numpy's [power] behind [float ** Series], which is the [pow] of the C
    library. *)
Record Numpy : Type := mkNumpy {
  mean_of : list float -> float;
  power : float -> Z -> float
}.

(** A row of [anomalies.groupby('actor_id').agg(...)]. *)
Record ActorAgg : Type := mkActorAgg {
  agg_actor : Z;
  agg_mean : float;
  agg_count : Z
}.

Definition actor_group (anomalies : list Anomaly) (actor : Z)
    : list Anomaly :=
  filter (fun a => (actor_id a =? actor)%Z) anomalies.

Section WithNumpy.

Variable np : Numpy.

Definition agg (anomalies : list Anomaly) : list ActorAgg :=
  map (fun actor =>
         let g := actor_group anomalies actor in
         mkActorAgg actor (mean_of np (map score g))
           (Z.of_nat (List.length (map event_id g))))
      (group_keys Z.leb Z.eqb (map actor_id anomalies)).

(** [agg['mean'] - (self.weight * (1 - self.decay) ** (agg['count'] - 1))]. *)
Definition weighted_mean (self : ExponentialDecayAnalyzer) (a : ActorAgg)
    : float :=
  agg_mean a
  - weight self * power np (1 - decay self) (agg_count a - 1)%Z.

(** [analyze(anomalies)]: the left merge of the aggregate puts
    [weighted_mean] on every row ([None] for a missing value, which no
    comparison accepts); the filter keeps the rows with
    [weighted_mean >= threshold]; the merged columns are dropped. *)
Definition analyze (self : ExponentialDecayAnalyzer)
    (anomalies : list Anomaly) : list Anomaly :=
  let df :=
    merge_left
      (fun r a => (actor_id r =? agg_actor a)%Z)
      (fun r a => (r, Some (weighted_mean self a)))
      (fun r => (r, None))
      anomalies (agg anomalies) in
  let df :=
    filter
      (fun rw =>
         match snd rw with
         | Some w => PrimFloat.leb (threshold self) w
         | None => false
         end)
      df in
  map fst df.

(** The weighted mean of the group of an actor. *)
Definition group_weighted_mean (self : ExponentialDecayAnalyzer)
    (anomalies : list Anomaly) (actor : Z) : float :=
  let g := actor_group anomalies actor in
  mean_of np (map score g)
  - weight self
    * power np (1 - decay self) (Z.of_nat (List.length g) - 1)%Z.

End WithNumpy.

(** An arithmetic to run the scenarios with: the mean as the running sum
    of the scores divided by their number, the power by repeated
    multiplication. Both give the element of a one-element group, 1 for
    the exponent 0 and the base for the exponent 1 exactly, as every
    routine does; for longer groups and higher exponents a library may
    differ from them in the last digits. *)
Definition running_mean (scores : list float) : float :=
  fold_left PrimFloat.add scores 0 / of_Z (Z.of_nat (List.length scores)).

Fixpoint repeated_product (x : float) (n : nat) : float :=
  match n with
  | O => 1
  | S O => x
  | S n' => repeated_product x n' * x
  end.

Definition reference : Numpy :=
  mkNumpy running_mean (fun x n => repeated_product x (Z.to_nat n)).

Definition anomaly_of (actor event : Z) (s : float) : Anomaly :=
  mkAnomaly event event actor 0 event 1 s.

(** The tables of the analyzer scenario: actor 1 with two scores 0.9,
    actor 2 with twenty scores 0.9, actor 3 with a single 0.9, actor 4
    with a single 0.6; and actor 5 with a single 0.7, on the
    threshold. *)
Definition scenario_two : list Anomaly :=
  [anomaly_of 1 1 0.9; anomaly_of 1 2 0.9].

Definition scenario_twenty : list Anomaly :=
  map (fun e => anomaly_of 2 (Z.of_nat e) 0.9) (seq 100 20).

Definition scenario_single_high : list Anomaly := [anomaly_of 3 200 0.9].

Definition scenario_single_low : list Anomaly := [anomaly_of 4 300 0.6].

Definition scenario_all : list Anomaly :=
  scenario_single_low ++ scenario_two ++ scenario_single_high
  ++ scenario_twenty.

Definition scenario_on_threshold : list Anomaly := [anomaly_of 5 400 0.7].

End Analyzers64.

Module Reporters64.
Import Frames Binary64.

Local Open Scope float_scope.

(** [Mandatory] of [profile/reporters.py] with its float columns as
    float64. *)

(** A row of the working frame [df] of [Mandatory.__call__]. [groups],
    [total] and [count] hold whole numbers (int64 columns, float64 once a
    merge has left a missing value for [fillna(0)] to fill, which is exact
    below 2^53); [mean], [previous_mean] and [score] are float64. *)
Record Row : Type := mkRow {
  row : Value;
  groups : Z;
  total : Z;
  mean : float;
  count : Z;
  previous_mean : float;
  score : float
}.

Definition with_groups (x : Z) (r : Row) : Row :=
  mkRow (row r) x (total r) (mean r) (count r) (previous_mean r) (score r).
Definition with_total (x : Z) (r : Row) : Row :=
  mkRow (row r) (groups r) x (mean r) (count r) (previous_mean r) (score r).
Definition with_mean (x : float) (r : Row) : Row :=
  mkRow (row r) (groups r) (total r) x (count r) (previous_mean r) (score r).
Definition with_count (x : Z) (r : Row) : Row :=
  mkRow (row r) (groups r) (total r) (mean r) x (previous_mean r) (score r).
Definition with_previous_mean (x : float) (r : Row) : Row :=
  mkRow (row r) (groups r) (total r) (mean r) (count r) x (score r).
Definition with_score (x : float) (r : Row) : Row :=
  mkRow (row r) (groups r) (total r) (mean r) (count r) (previous_mean r) x.

(** The frame the reporter returns: the value columns and [score]. *)
Record Scored : Type := mkScored {
  s_row : Value;
  s_score : float
}.

Definition row_actor (r : Row) : Z := actor_id (row r).
Definition row_value (r : Row) : string := value (row r).
Definition row_timestamp (r : Row) : Z := timestamp (row r).

(** Order of [['actor_id', 'timestamp']]. *)
Definition actor_timestamp_leb (x y : Row) : bool :=
  ((row_actor x <? row_actor y)
   || ((row_actor x =? row_actor y)
       && (row_timestamp x <=? row_timestamp y)))%Z.

(** Order of [['actor_id', 'value', 'timestamp']]. *)
Definition actor_value_timestamp_leb (x y : Row) : bool :=
  ((row_actor x <? row_actor y)
   || ((row_actor x =? row_actor y)
       && (String.ltb (row_value x) (row_value y)
           || (String.eqb (row_value x) (row_value y)
               && (row_timestamp x <=? row_timestamp y)))))%Z.

Definition same_actor (x y : Row) : bool := (row_actor x =? row_actor y)%Z.

Definition same_actor_value (x y : Row) : bool :=
  (row_actor x =? row_actor y)%Z && String.eqb (row_value x) (row_value y).

(** The column [index - first] of a sorted frame, [first] being the index
    of the first row of the row's group. *)
Definition index_minus_first (same : Row -> Row -> bool) (df : list Row)
    (indexed : Z * Row) : Z :=
  match index_of_first (same (snd indexed)) 0%Z df with
  | Some first => (fst indexed - first)%Z
  | None => 0%Z
  end.

(** [increment_total(values)]. *)
Definition increment_total (values : list Row) : list Row :=
  let df := sort_values actor_timestamp_leb values in
  map (fun ir =>
         with_total (total (snd ir) + index_minus_first same_actor df ir)%Z
           (snd ir))
      (reset_index df).

(** [increment_count(values)]. *)
Definition increment_count (values : list Row) : list Row :=
  let df := sort_values actor_value_timestamp_leb values in
  map (fun ir =>
         with_count
           (count (snd ir) + index_minus_first same_actor_value df ir)%Z
           (snd ir))
      (reset_index df).

(** The aggregate of [matching_features.groupby(['field_id', 'actor_id'])]:
    [groups] (the number of values), [total] (the sum of the counts) and
    [mean] (the mean of the counts: their sum, which is exact, divided by
    their number). *)
Record FaAgg : Type := mkFaAgg {
  agg_key : Z * Z;
  agg_groups : Z;
  agg_total : Z;
  agg_mean : float
}.

Definition feature_fa_agg (matching : list Feature) : list FaAgg :=
  map (fun key =>
         let g := Reporters.fa_group matching key in
         let n := Z.of_nat (List.length g) in
         let sum := fold_right Z.add 0%Z (map f_count g) in
         mkFaAgg key n sum (of_Z sum / of_Z n))
      (group_keys fa_leb fa_eqb (map feature_fa matching)).

(** The two left merges and [fillna(0)]. *)
Definition merge_fa (values : list Value) (agg : list FaAgg) : list Row :=
  merge_left
    (fun v a => fa_eqb (value_fa v) (agg_key a))
    (fun v a => mkRow v (agg_groups a) (agg_total a) (agg_mean a) 0%Z 0 0)
    (fun v => mkRow v 0%Z 0%Z 0 0%Z 0 0)
    values agg.

Definition merge_fav (df : list Row) (features : list Feature) : list Row :=
  merge_left
    (fun r f => fav_eqb (value_fav (row r)) (feature_fav f))
    (fun r f => with_count (f_count f) r)
    (fun r => with_count 0%Z r)
    df features.

(** [df['previous_mean'] = 0.0] and the two masked assignments. *)
Definition set_previous_mean (r : Row) : Row :=
  let enough_groups := (1 <? groups r)%Z in
  let pm0 := 0 in
  let pm1 :=
    if enough_groups && negb (count r =? 0)%Z
    then (mean r * of_Z (groups r) - of_Z (count r))
         / of_Z (groups r - 1)
    else pm0 in
  let pm2 := if enough_groups && (count r =? 0)%Z then mean r else pm1 in
  with_previous_mean pm2 r.

(** [_update_groups]: the closure over [section] and [counter], applied to
    the rows in order. *)
Fixpoint update_groups_from (section counter : Z) (df : list Row)
    : list Row :=
  match df with
  | [] => []
  | x :: rest =>
      let counter :=
        if negb (row_actor x =? section)%Z then 0%Z else counter in
      let section :=
        if negb (row_actor x =? section)%Z then row_actor x else section in
      let x' :=
        if negb (counter =? 0)%Z
        then with_groups (groups x + counter)%Z x else x in
      let counter :=
        if (count x =? 0)%Z then (counter + 1)%Z else counter in
      x' :: update_groups_from section counter rest
  end.

Definition update_groups (df : list Row) : list Row :=
  update_groups_from (-1)%Z 0%Z df.

(** [df.loc[df['groups'] > 0, 'mean'] = ...]. *)
Definition set_mean (r : Row) : Row :=
  if (0 <? groups r)%Z
  then with_mean
         (previous_mean r
          + (of_Z (count r) - previous_mean r) / of_Z (groups r)) r
  else r.

(** [df['score'] = 0.0], the two masked assignments and the weight. *)
Definition Mandatory_set_score (weight : float) (r : Row) : Row :=
  let s0 := 0 in
  let s1 :=
    if String.eqb (row_value r) EmptyString || (count r =? 0)%Z
    then 1 else s0 in
  let s2 :=
    if PrimFloat.ltb (of_Z (count r)) (mean r) && neqb s1 1
    then 1 - of_Z (count r) / of_Z (total r)
    else s1 in
  with_score (s2 * weight) r.

(** The working frame of [Mandatory.__call__] just before the score
    column is set. *)
Definition Mandatory_frame (values : list Value) (features : list Feature)
    : list Row :=
  let agg := feature_fa_agg (Reporters.matching_features values features) in
  let df := merge_fa values agg in
  let df := merge_fav df features in
  let df := map set_previous_mean df in
  let df := increment_count df in
  let df := increment_total df in
  let df := update_groups df in
  map set_mean df.

Definition drop_columns (r : Row) : Scored := mkScored (row r) (score r).

(** [Mandatory.__call__(values, features)]. *)
Definition Mandatory_call (weight : float) (values : list Value)
    (features : list Feature) : list Scored :=
  map drop_columns
    (map (Mandatory_set_score weight) (Mandatory_frame values features)).

(** A mixed batch. Actor 1 has said ["hello"] twice and ["hi"] once on
    field 1; the batch holds two more ["hi"] and then a ["hello"]. *)
Definition mixed_features : list Feature :=
  [mkFeature 1 1 1 (quoted "hello") 2; mkFeature 2 1 1 (quoted "hi") 1].

Definition mixed_earlier : list Value :=
  [mkValue 1 10 1 1 1 (quoted "hi"); mkValue 1 11 2 1 1 (quoted "hi")].

Definition mixed_last : Value := mkValue 1 12 3 1 1 (quoted "hello").

Definition mixed_batch : list Value := mixed_earlier ++ [mixed_last].

(** A batch on the boundary. Actor 1 has said ["hello"] four times and
    six other words nine times each on field 1; the batch holds six more
    ["hello"]. At the sixth the count is 9, the total 63 and the groups
    7. *)
Definition boundary_features : list Feature :=
  mkFeature 1 1 1 (quoted "hello") 4
  :: map (fun iw => mkFeature (fst iw) 1 1 (quoted (snd iw)) 9)
       [(2, "ahoy"); (3, "bye"); (4, "ciao"); (5, "hey"); (6, "hi");
        (7, "yo")]%Z.

Definition hello_at (i : Z) : Value :=
  mkValue 1 (10 + i) i 1 1 (quoted "hello").

Definition boundary_earlier : list Value :=
  map hello_at [1; 2; 3; 4; 5]%Z.

Definition boundary_last : Value := hello_at 6.

Definition boundary_batch : list Value :=
  boundary_earlier ++ [boundary_last].

End Reporters64.

(* ===================================================================== *)
(** * profile/collectors.py *)
(* ===================================================================== *)

Module Collectors.

(** The rows of the tables the queries of the collector join. *)
Record Actor : Type := mkActor {
  actor_id : Z;
  actor_profile : Z
}.

Record Event : Type := mkEvent {
  event_id : Z;
  event_message : Z;
  event_actor : Z;
  created_at : Z
}.

Record Anomaly : Type := mkAnomaly {
  anomaly_id : Z;
  anomaly_event : Z;
  anomaly_field : Z;
  anomaly_score : Q
}.

Record Store : Type := mkStore {
  actors : list Actor;
  events : list Event;
  anomalies : list Anomaly
}.

(** A row of the frame [_fetch_anomalies] returns. *)
Record Row : Type := mkRow {
  r_event_id : Z;
  r_message_id : Z;
  r_actor_id : Z;
  r_created_at : Z;
  r_anomaly_id : Z;
  r_field_id : Z;
  r_score : Q
}.

Record TimeRangeCollector : Type := mkCollector {
  seconds : Z;
  interval : Q;
  delay : Z
}.

(** [Event JOIN Actor JOIN Profile ... Profile.id == profile.id]. *)
Definition event_of_profile (db : Store) (profile : Z) (e : Event) : bool :=
  existsb (fun a => (actor_id a =? event_actor e) && (actor_profile a =? profile))
    (actors db).

(** The query of [_fetch_anomalies]: the events of the profile with
    [start < created_at <= end], joined with their anomalies. *)
Definition anomaly_query (db : Store) (profile start end_ : Z) : list Row :=
  flat_map
    (fun e =>
       if event_of_profile db profile e
          && (start <? created_at e) && (created_at e <=? end_)
       then
         map (fun a =>
                mkRow (event_id e) (event_message e) (event_actor e)
                  (created_at e) (anomaly_id a) (anomaly_field a)
                  (anomaly_score a))
             (filter (fun a => anomaly_event a =? event_id e) (anomalies db))
       else [])
    (events db).

(** [_fetch_anomalies(session, profile, start)]: [waited] is what
    [self._wait(end)] returns, [true] when the shutdown event is set. *)
Definition fetch_anomalies (self : TimeRangeCollector) (waited : bool)
    (db : Store) (profile start : Z) : list Row :=
  let end_ := start + seconds self in
  if waited then [] else anomaly_query db profile start end_.

Fixpoint earliest (candidates : list Event) : option Event :=
  match candidates with
  | [] => None
  | e :: rest =>
      match earliest rest with
      | Some e' => if created_at e <=? created_at e' then Some e else Some e'
      | None => Some e
      end
  end.

(** The query for [next_event]: the first event of the profile, in
    ascending [created_at], that is later than [start]. *)
Definition next_event (db : Store) (profile start : Z) : option Event :=
  earliest
    (filter (fun e => event_of_profile db profile e && (start <? created_at e))
       (events db)).

(** What one pass of the [while] loop observes: the result of
    [self.shutdown.wait(timeout)], the results of the calls of [_wait]
    inside the two fetches, and the rows its session sees. *)
Record Pass : Type := mkPass {
  shutdown_wait : bool;
  wait_first : bool;
  wait_second : bool;
  db : Store
}.

(** [_loop_until_anomalies(profile, start)], run against the passes the
    surroundings allow. The result carries the timeouts handed to
    [shutdown.wait] in order; [None] when the passes end while the loop is
    still running. *)
Fixpoint loop_from (self : TimeRangeCollector) (timeout : Q)
    (passes : list Pass) (profile start : Z)
    : list Q * option (list Row) :=
  match passes with
  | [] => ([], None)
  | p :: rest =>
      if shutdown_wait p then ([timeout], Some [])
      else
        let anomalies := fetch_anomalies self (wait_first p) (db p)
                           profile start in
        match anomalies with
        | _ :: _ => ([timeout], Some anomalies)
        | [] =>
            match next_event (db p) profile start with
            | Some ev =>
                ([timeout],
                 Some (fetch_anomalies self (wait_second p) (db p) profile
                         (created_at ev)))
            | None =>
                let out := loop_from self (interval self) rest profile
                             start in
                (timeout :: fst out, snd out)
            end
        end
  end.

Definition loop_until_anomalies (self : TimeRangeCollector)
    (passes : list Pass) (profile start : Z) : list Q * option (list Row) :=
  loop_from self 0%Q passes profile start.

(** A run without shutdown: one actor of profile 1, one event at tick 100
    with one anomaly, a window of 60 ticks and a start at tick 0. *)
Definition lonely_store : Store :=
  mkStore [mkActor 1 1] [mkEvent 1 1 1 100] [mkAnomaly 1 1 1 1%Q].

Definition default_collector : TimeRangeCollector := mkCollector 60 10%Q 0.

Definition quiet_pass : Pass := mkPass false false false lonely_store.

End Collectors.

Module CollectorsRun.
Import Collectors.

(** [_wait], [_get_first_event], [_get_last_investigation_event],
    [_create_initial_investigation] and [collect] of
    [profile/collectors.py]. Times are in seconds. *)

(** [timedelta.seconds]: the seconds of a difference once its days are
    taken out, between 0 and 86399 also when the difference is
    negative. *)
Definition timedelta_seconds (d : Z) : Z := d mod 86400.

(** One turn of the loop of [_wait]: what [shutdown.wait(timeout)]
    returns, and what the clock reads after it. *)
Record Tick : Type := mkTick {
  tick_shutdown : bool;
  tick_now : Z
}.

(** [_wait(target)], run against the turns the surroundings allow:
    [is_set] is what [shutdown.is_set()] gives when the loop is left by
    [break]. The result carries the timeouts handed to [shutdown.wait];
    [None] when the turns end while the loop is still running. *)
Fixpoint wait_from (self : TimeRangeCollector) (target timeout : Z)
    (ticks : list Tick) (is_set : bool) : list Z * option bool :=
  match ticks with
  | [] => ([], None)
  | t :: rest =>
      if tick_shutdown t then ([timeout], Some true)
      else if target + delay self <=? tick_now t then
        ([timeout], Some is_set)
      else
        let out := wait_from self target
                     (timedelta_seconds (target - tick_now t)) rest is_set in
        (timeout :: fst out, snd out)
  end.

Definition wait (self : TimeRangeCollector) (target : Z)
    (ticks : list Tick) (is_set : bool) : list Z * option bool :=
  wait_from self target 0 ticks is_set.

(** One turn of the loop of [_get_first_event]. *)
Record FirstPass : Type := mkFirstPass {
  first_shutdown : bool;
  first_db : Store
}.

(** [_get_first_event(profile)]: [Some None] is the [None] the function
    returns when the shutdown event ends the loop; the outer [None] is a
    loop that is still running when the turns end. *)
Fixpoint get_first_event (passes : list FirstPass) (profile : Z)
    : option (option Event) :=
  match passes with
  | [] => None
  | p :: rest =>
      if first_shutdown p then Some None
      else
        match earliest (filter (event_of_profile (first_db p) profile)
                          (events (first_db p))) with
        | Some first_event => Some (Some first_event)
        | None => get_first_event rest profile
        end
  end.

(** [_create_initial_investigation(profile)]. *)
Definition create_initial_investigation (self : TimeRangeCollector)
    (first_passes : list FirstPass) (passes : list Pass) (profile : Z)
    : option (list Row) :=
  match get_first_event first_passes profile with
  | None => None
  | Some None => Some []
  | Some (Some first_event) =>
      snd (loop_until_anomalies self passes profile
             (created_at first_event - 1))
  end.

(** The rows of [investigation_event]: the investigation and the event. *)
Definition Assigned : Type := list (Z * Z).

Fixpoint latest (candidates : list Event) : option Event :=
  match candidates with
  | [] => None
  | e :: rest =>
      match latest rest with
      | Some e' => if created_at e' <=? created_at e then Some e else Some e'
      | None => Some e
      end
  end.

(** [_get_last_investigation_event(investigation)]: the latest of the
    events assigned to the investigation. *)
Definition get_last_investigation_event (db : Store) (assigned : Assigned)
    (investigation : Z) : option Event :=
  latest
    (filter
       (fun e =>
          existsb (fun ie => (fst ie =? investigation)
                             && (snd ie =? event_id e))
            assigned)
       (events db)).

(** What [collect] gives: the frame, or the [AttributeError] of
    [last_event.created_at] when the previous investigation has no event,
    or a loop that is still running when the turns end. *)
Inductive Outcome : Type :=
| Collected (rows : list Row)
| AttributeError
| Running.

Definition outcome_of (result : option (list Row)) : Outcome :=
  match result with
  | Some rows => Collected rows
  | None => Running
  end.

(** [collect(profile, investigation, previous)]. *)
Definition collect (self : TimeRangeCollector) (db : Store)
    (assigned : Assigned) (first_passes : list FirstPass)
    (passes : list Pass) (profile : Z) (previous : option Z) : Outcome :=
  match previous with
  | None =>
      outcome_of (create_initial_investigation self first_passes passes
                    profile)
  | Some investigation =>
      match get_last_investigation_event db assigned investigation with
      | Some last_event =>
          outcome_of (snd (loop_until_anomalies self passes profile
                             (created_at last_event)))
      | None => AttributeError
      end
  end.

End CollectorsRun.

(* ===================================================================== *)
(** * investigator/base.py *)
(* ===================================================================== *)

Module Investigator.
Import Py.

(** A row of the [investigation] table ([database.py]); [index] and
    [created_by] are nullable; an investigator is named by its id. *)
Record Investigation : Type := mkInvestigation {
  id : Z;
  group_id : Z;
  index : option Z;
  created_at : Z;
  created_by : option Z;
  is_assigned : bool
}.

(** The table, the next value of its id sequence and the database clock,
    which gives [created_at] its server default. *)
Record Store : Type := mkStore {
  investigations : list Investigation;
  next_id : Z;
  now : Z
}.

Definition in_group (group : Z) (r : Investigation) : bool :=
  group_id r =? group.

Definition group_rows (group : Z) (s : Store) : list Investigation :=
  filter (in_group group) (investigations s).

(** [order_by(Investigation.created_at.desc()).first()]. *)
Fixpoint latest_of (rows : list Investigation) : option Investigation :=
  match rows with
  | [] => None
  | r :: rest =>
      match latest_of rest with
      | Some r' => if created_at r' <? created_at r then Some r else Some r'
      | None => Some r
      end
  end.

Definition query_latest (s : Store) (group : Z) : option Investigation :=
  latest_of (group_rows group s).

Definition index_is (i : Z) (r : Investigation) : bool :=
  match index r with
  | Some k => k =? i
  | None => false
  end.

(** [UniqueConstraint(group_id, index)]. *)
Definition index_taken (s : Store) (group i : Z) : bool :=
  existsb (index_is i) (group_rows group s).

(** The [session.commit()] of [_create_investigation]: it raises
    [IntegrityError] when the unique constraint rejects the row. *)
Definition insert_investigation (s : Store) (me group i : Z)
    : result (Store * Z) :=
  if index_taken s group i then Raise IntegrityError
  else
    Ok (mkStore
          (investigations s
           ++ [mkInvestigation (next_id s) group (Some i) (now s) (Some me)
                 false])
          (next_id s + 1) (now s + 1),
        next_id s).

(** [session.delete(investigation)]. *)
Definition delete_investigation (s : Store) (investigation : Z) : Store :=
  mkStore
    (filter (fun r => negb (id r =? investigation)) (investigations s))
    (next_id s) (now s).

(** [investigation.is_assigned = True] with its commit. *)
Definition assign_investigation (s : Store) (investigation : Z) : Store :=
  mkStore
    (map (fun r =>
            if id r =? investigation
            then mkInvestigation (id r) (group_id r) (index r) (created_at r)
                   (created_by r) true
            else r)
         (investigations s))
    (next_id s) (now s).

Definition created_by_is (me : Z) (r : Investigation) : bool :=
  match created_by r with
  | Some c => c =? me
  | None => false
  end.

(** Deleting the investigator row: [ondelete='SET NULL'] on [created_by]. *)
Definition delete_investigator (s : Store) (me : Z) : Store :=
  mkStore
    (map (fun r =>
            if created_by_is me r
            then mkInvestigation (id r) (group_id r) (index r) (created_at r)
                   None (is_assigned r)
            else r)
         (investigations s))
    (next_id s) (now s).

(** Where an investigator thread stands in [_investigate]:
    - [Fetching]: about to run the first query of
      [_get_previous_investigation];
    - [Waiting]: in its backoff loop;
    - [Claiming previous]: [_get_previous_investigation] has returned
      [previous], the insert of [_create_investigation] comes next;
    - [Collecting investigation]: the investigation is created, the
      collector runs;
    - [Stopped]: the thread has ended;
    - [Crashed error]: an exception that nothing catches has left
      [run], and the thread has ended with it. *)
Inductive Uncaught : Type :=
| InvalidRequestError
| TypeError.

Inductive Local : Type :=
| Fetching
| Waiting
| Claiming (previous : option Investigation)
| Collecting (investigation : Z)
| Stopped
| Crashed (error : Uncaught).

Record World : Type := mkWorld {
  store : Store;
  local : Z -> Local
}.

Definition set_local (w : World) (me : Z) (l : Local) : Z -> Local :=
  fun other => if other =? me then l else local w other.

(** The transactions and thread events that interleave. *)
Inductive Action : Type :=
| FirstQuery (me : Z)
| WaitPass (me : Z)
| LeaveWait (me : Z)
| Create (me : Z)
| DeleteEmpty (me : Z)
| Assign (me : Z)
| Stop (me : Z)
| RemoveInvestigator (me : Z).

Definition done_waiting (q : option Investigation) : bool :=
  match q with
  | None => true
  | Some r => is_assigned r
  end.

Section WithGroups.

(** [self._group] of each investigator. *)
Variable group_of : Z -> Z.

(** [index=previous.index + 1 if previous else 1]; [None] when
    [previous.index] is null and the addition raises [TypeError]. *)
Definition next_index (previous : option Investigation) : option Z :=
  match previous with
  | Some p => option_map (fun k => k + 1) (index p)
  | None => Some 1
  end.

(** One action on the world. In [Create], the [try] of
    [_create_investigation] catches the [IntegrityError] of a rejected
    row inside the [with] block of [managed_session]; the block then ends
    without an exception, so [managed_session] goes on to its own
    [session.commit()], on a session whose transaction the failed flush
    has left rolled back: SQLAlchemy raises [InvalidRequestError] there.
    It is no [IntegrityError], so nothing catches it: [managed_session]
    rolls back and raises it again, and it leaves
    [_create_investigation], [_investigate] and [run]. The next turn of
    the [while] loop is never reached. *)
Definition act (a : Action) (w : World) : World :=
  match a with
  | FirstQuery me =>
      match local w me with
      | Fetching =>
          let q := query_latest (store w) (group_of me) in
          if done_waiting q
          then mkWorld (store w) (set_local w me (Claiming q))
          else mkWorld (store w) (set_local w me Waiting)
      | _ => w
      end
  | WaitPass me =>
      match local w me with
      | Waiting =>
          let q := query_latest (store w) (group_of me) in
          if done_waiting q
          then mkWorld (store w) (set_local w me (Claiming q))
          else
            match q with
            | Some r =>
                match created_by r with
                | None => mkWorld (delete_investigation (store w) (id r))
                            (local w)
                | Some _ => w
                end
            | None => w
            end
      | _ => w
      end
  | LeaveWait me =>
      match local w me with
      | Waiting => mkWorld (store w) (set_local w me (Claiming None))
      | _ => w
      end
  | Create me =>
      match local w me with
      | Claiming previous =>
          match next_index previous with
          | Some i =>
              match insert_investigation (store w) me (group_of me) i with
              | Ok (s, investigation) =>
                  mkWorld s (set_local w me (Collecting investigation))
              | Raise _ =>
                  mkWorld (store w)
                    (set_local w me (Crashed InvalidRequestError))
              end
          | None => mkWorld (store w) (set_local w me (Crashed TypeError))
          end
      | _ => w
      end
  | DeleteEmpty me =>
      match local w me with
      | Collecting investigation =>
          mkWorld (delete_investigation (store w) investigation)
            (set_local w me Fetching)
      | _ => w
      end
  | Assign me =>
      match local w me with
      | Collecting investigation =>
          mkWorld (assign_investigation (store w) investigation)
            (set_local w me Fetching)
      | _ => w
      end
  | Stop me => mkWorld (store w) (set_local w me Stopped)
  | RemoveInvestigator me =>
      mkWorld (delete_investigator (store w) me) (local w)
  end.

(** The world after a schedule of actions, the first one first. *)
Definition run (schedule : list Action) (w : World) : World :=
  fold_left (fun w a => act a w) schedule w.

End WithGroups.

(** The thread has left [run]: it takes no turn of its loop any more. *)
Definition ended (l : Local) : bool :=
  match l with
  | Stopped | Crashed _ => true
  | _ => false
  end.

(** The table after migration, before any investigator has run. *)
Definition initial : World := mkWorld (mkStore [] 1 0) (fun _ => Fetching).

Fixpoint Z_seq (start : Z) (len : nat) : list Z :=
  match len with
  | O => []
  | S len' => start :: Z_seq (start + 1) len'
  end.

(** The indices 1, 2, ..., n without gaps. *)
Definition gap_free (rows : list Investigation) : Prop :=
  Permutation (map index rows) (map Some (Z_seq 1 (List.length rows))).

(** The invariant of the table. The rows of a group: every index is
    between 1 and the number of rows, no two rows have the same index, and
    a row that is not assigned has the last index. *)
Definition group_ok (rows : list Investigation) : Prop :=
  let n := Z.of_nat (List.length rows) in
  (forall r, In r rows -> exists k, index r = Some k /\ 1 <= k <= n)
  /\ NoDup (map index rows)
  /\ (forall r, In r rows -> is_assigned r = false -> index r = Some n).

Definition store_ok (s : Store) : Prop :=
  NoDup (map id (investigations s))
  /\ (forall r, In r (investigations s) -> id r < next_id s)
  /\ (forall g, group_ok (group_rows g s)).

(** What the threads hold: the [previous] of a claiming thread is an
    assigned row of its group; the investigation of a collecting thread
    is not assigned yet; no two threads collect for one investigation. *)
Definition local_ok (group_of : Z -> Z) (s : Store) (loc : Z -> Local)
    : Prop :=
  (forall me p, loc me = Claiming (Some p) ->
     exists r, In r (investigations s) /\ index r = index p
               /\ group_id r = group_of me /\ is_assigned r = true)
  /\ (forall me x, loc me = Collecting x ->
        x < next_id s
        /\ forall r, In r (investigations s) -> id r = x ->
                      is_assigned r = false)
  /\ (forall me1 me2 x,
        loc me1 = Collecting x -> loc me2 = Collecting x -> me1 = me2).

Definition invariant (group_of : Z -> Z) (w : World) : Prop :=
  store_ok (store w) /\ local_ok group_of (store w) (local w).

(** Scenario 4 of the specification: investigators 1 and 2 of one group
    race for the first investigation. *)
Definition race : list Action :=
  [FirstQuery 1; FirstQuery 2; Create 1; Create 2; FirstQuery 2; WaitPass 2;
   RemoveInvestigator 1; WaitPass 2; WaitPass 2; Create 2].

End Investigator.

(* ===================================================================== *)
(** * pipline/base.py *)
(* ===================================================================== *)

Module Pipeline.
Import Py Frames.

(** The rows of the tables the pipeline writes ([database.py]). *)
Record Actor : Type := mkActor {
  a_id : Z;
  a_profile_id : Z;
  a_name : string
}.

Record StoredMessage : Type := mkStoredMessage {
  m_id : Z;
  m_data : Message.JSONValue
}.

Record Event : Type := mkEvent {
  e_id : Z;
  e_message_id : Z;
  e_actor_id : Z;
  e_created_at : Z
}.

Record Anomaly : Type := mkAnomaly {
  an_id : Z;
  an_event_id : Z;
  an_field_id : Z;
  an_feature_id : Z;
  an_score : Q
}.

(** The committed state of the database: the tables and the next values of
    their id sequences. *)
Record Store : Type := mkStore {
  actors : list Actor;
  features : list Feature;
  messages : list StoredMessage;
  events : list Event;
  anomalies : list Anomaly;
  next_actor : Z;
  next_feature : Z;
  next_event : Z;
  next_anomaly : Z
}.

(** [pa.concat(dfs, ignore_index=True)]: no frame to concatenate is a
    [ValueError]. *)
Definition pa_concat {A : Type} (dfs : list (list A)) : result (list A) :=
  match dfs with
  | [] => Raise ValueError
  | _ => Ok (List.concat dfs)
  end.

(** The VALUES clause of [insert(table).values(rows)]: one tuple for each
    row of a non-empty list. An empty list does not read as a list of
    rows: the statement then inserts one row without values, every column
    taking its default ([None]). *)
Definition values_clause {A : Type} (rows : list A) : list (option A) :=
  match rows with
  | [] => [None]
  | _ => map Some rows
  end.

Definition actor_named (profile : Z) (name : string) (a : Actor) : bool :=
  (a_profile_id a =? profile) && String.eqb (a_name a) name.

(** One tuple of the actor insert with [on_conflict_do_nothing] on
    [(profile_id, name)]. Both columns are [nullable=False] and have no
    default. *)
Definition insert_actor (s : Store) (tuple : option (Z * string))
    : result Store :=
  match tuple with
  | None => Raise IntegrityError
  | Some (profile, name) =>
      if existsb (actor_named profile name) (actors s) then Ok s
      else
        Ok (mkStore (actors s ++ [mkActor (next_actor s) profile name])
              (features s) (messages s) (events s) (anomalies s)
              (next_actor s + 1) (next_feature s) (next_event s)
              (next_anomaly s))
  end.

Fixpoint execute_each {A : Type} (insert : Store -> A -> result Store)
    (s : Store) (tuples : list A) : result Store :=
  match tuples with
  | [] => Ok s
  | t :: rest => bind (insert s t) (fun s' => execute_each insert s' rest)
  end.

Definition pa_eqb (x y : Z * string) : bool :=
  (fst x =? fst y) && String.eqb (snd x) (snd y).

(** [_get_actors(session, values)]: the upsert with its commit, then the
    query, whose filter is the product of the profile ids and the names. *)
Definition get_actors (s : Store) (values : list (string * Value))
    : result (Store * list Actor) :=
  let unique_pa :=
    drop_duplicates pa_eqb
      (map (fun nv => (profile_id (snd nv), fst nv)) values) in
  bind (execute_each insert_actor s (values_clause unique_pa)) (fun s' =>
  Ok (s',
      filter
        (fun a =>
           existsb (Z.eqb (a_profile_id a)) (map fst unique_pa)
           && existsb (String.eqb (a_name a)) (map snd unique_pa))
        (actors s'))).

(** [_get_features(session, field_ids, actor_ids)]. *)
Definition get_features (s : Store) (field_ids actor_ids : list Z)
    : list Feature :=
  filter
    (fun f =>
       existsb (Z.eqb (f_field_id f)) field_ids
       && existsb (Z.eqb (f_actor_id f)) actor_ids)
    (features s).

(** [values.merge(actors, how='left', ...)] and the drop of [actor_name].
    Every pair has been upserted, so no row is left without an actor. *)
Definition merge_actors (values : list (string * Value))
    (found : list Actor) : list Value :=
  merge_left
    (fun nv a => actor_named (profile_id (snd nv)) (fst nv) a)
    (fun nv a =>
       mkValue (profile_id (snd nv)) (message_id (snd nv))
         (timestamp (snd nv)) (a_id a) (field_id (snd nv)) (value (snd nv)))
    (fun nv => snd nv)
    values found.

Record Pipeline : Type := mkPipeline {
  profiles : list Profile.Profile
}.

Fixpoint profiles_by_id (ps : list Profile.Profile) (profile : Z)
    : result Profile.Profile :=
  match ps with
  | [] => Raise (KeyError [])
  | p :: rest =>
      if Profile.profile_model_id p =? profile then Ok p
      else profiles_by_id rest profile
  end.

Definition timestamp_leb (x y : string * Value) : bool :=
  timestamp (snd x) <=? timestamp (snd y).

(** Lines 162 to 174 of [_process]: the frames of the profiles are
    concatenated into [values]; [values.sort_values('timestamp',
    ignore_index=True)] builds a sorted frame that is bound to no name,
    and [values] goes on as it was. *)
Definition process_values (self : Pipeline)
    (buffered : list Message.Message) : result (list (string * Value)) :=
  let dfs := map (fun p => Profile.identify p buffered) (profiles self) in
  bind (pa_concat dfs) (fun values =>
  let _unused := sort_values timestamp_leb values in
  Ok values).

(** The scoring loop over [values.groupby('profile_id')]. *)
Fixpoint score_profiles (self : Pipeline) (values : list Value)
    (keys : list Z) (fs : list Feature)
    : result (list (list Reporters.Scored)) :=
  match keys with
  | [] => Ok []
  | profile :: rest =>
      let group := filter (fun v => profile_id v =? profile) values in
      bind (profiles_by_id (profiles self) profile) (fun p =>
      bind (Profile.process p group fs) (fun out =>
      bind (score_profiles self values rest (snd out)) (fun more =>
      Ok (fst out :: more))))
  end.

(** One tuple of the feature upsert:
    [set_={'count': Feature.count + excluded.count}]. *)
Definition upsert_feature (s : Store) (tuple : Z * Z * string * Z)
    : result Store :=
  let key := fst tuple in
  if existsb (fun f => fav_eqb (feature_fav f) key) (features s) then
    Ok (mkStore (actors s)
          (map (fun f =>
                  if fav_eqb (feature_fav f) key
                  then mkFeature (feature_id f) (f_field_id f) (f_actor_id f)
                         (f_value f) (f_count f + snd tuple)
                  else f)
               (features s))
          (messages s) (events s) (anomalies s)
          (next_actor s) (next_feature s) (next_event s) (next_anomaly s))
  else
    Ok (mkStore (actors s)
          (features s
           ++ [mkFeature (next_feature s) (fst (fst key)) (snd (fst key))
                 (snd key) (snd tuple)])
          (messages s) (events s) (anomalies s)
          (next_actor s) (next_feature s + 1) (next_event s)
          (next_anomaly s)).

(** [_update_features(session, values)]. *)
Definition update_features (s : Store) (values : list Value)
    : result (Store * list Feature) :=
  match values with
  | [] => Ok (s, [])
  | _ =>
      bind (execute_each upsert_feature s (Profile.grouped values))
        (fun s' =>
      Ok (s', get_features s' (map field_id values) (map actor_id values)))
  end.

Definition insert_message (s : Store) (m : StoredMessage) : result Store :=
  if existsb (fun m' => m_id m' =? m_id m) (messages s) then Ok s
  else
    Ok (mkStore (actors s) (features s) (messages s ++ [m]) (events s)
          (anomalies s) (next_actor s) (next_feature s) (next_event s)
          (next_anomaly s)).

Definition event_key_eqb (x y : Z * Z * Z) : bool :=
  (fst (fst x) =? fst (fst y)) && (snd (fst x) =? snd (fst y))
  && (snd x =? snd y).

Definition event_key_leb (x y : Z * Z * Z) : bool :=
  (fst (fst x) <? fst (fst y))
  || ((fst (fst x) =? fst (fst y))
      && ((snd (fst x) <? snd (fst y))
          || ((snd (fst x) =? snd (fst y)) && (snd x <=? snd y)))).

Definition event_key (a : Reporters.Scored * Z) : Z * Z * Z :=
  (message_id (Reporters.s_row (fst a)), actor_id (Reporters.s_row (fst a)),
   timestamp (Reporters.s_row (fst a))).

(** The events of [_generate_events] with the anomalies of each: the
    groups of [profile_id], then of [(message_id, actor_id, timestamp)]. *)
Definition event_groups (found : list (Reporters.Scored * Z))
    : list (Z * Z * Z * list (Reporters.Scored * Z)) :=
  flat_map
    (fun profile =>
       let profile_group :=
         filter (fun a => profile_id (Reporters.s_row (fst a)) =? profile)
           found in
       map (fun key =>
              (key,
               filter (fun a => event_key_eqb (event_key a) key)
                 profile_group))
           (group_keys event_key_leb event_key_eqb
              (map event_key profile_group)))
    (group_keys Z.leb Z.eqb
       (map (fun a => profile_id (Reporters.s_row (fst a))) found)).

Definition insert_event (s : Store)
    (g : Z * Z * Z * list (Reporters.Scored * Z)) : result Store :=
  let key := fst g in
  let event := next_event s in
  Ok (mkStore (actors s) (features s) (messages s)
        (events s ++ [mkEvent event (fst (fst key)) (snd (fst key)) (snd key)])
        (anomalies s
         ++ map (fun ia =>
                   mkAnomaly (next_anomaly s + fst ia) event
                     (field_id (Reporters.s_row (fst (snd ia))))
                     (snd (snd ia)) (Reporters.s_score (fst (snd ia))))
                (reset_index (snd g)))
        (next_actor s) (next_feature s) (event + 1)
        (next_anomaly s + Z.of_nat (List.length (snd g)))).

Fixpoint find_message (buffered : list Message.Message) (message : Z)
    : option Message.Message :=
  match buffered with
  | [] => None
  | m :: rest =>
      if Message.id m =? message then Some m else find_message rest message
  end.

(** [_generate_events(session, messages, anomalies)]: each of the three
    inserts runs only when it has rows. *)
Definition generate_events (s : Store) (buffered : list Message.Message)
    (found : list (Reporters.Scored * Z)) : result Store :=
  let message_ids :=
    drop_duplicates Z.eqb
      (map (fun a => message_id (Reporters.s_row (fst a))) found) in
  let message_values :=
    flat_map
      (fun i =>
         match find_message buffered i with
         | Some m => [mkStoredMessage (Message.id m) (Message.data m)]
         | None => []
         end)
      message_ids in
  bind (execute_each insert_message s message_values) (fun s1 =>
  execute_each insert_event s1 (event_groups found)).

(** [_process]: the committed store after the cycle and how the cycle
    ends. The first session commits the actors on its own; a session that
    raises is rolled back. *)
Definition process (self : Pipeline) (s : Store)
    (buffered : list Message.Message) : Store * result unit :=
  match process_values self buffered with
  | Raise e => (s, Raise e)
  | Ok values =>
      match get_actors s values with
      | Raise e => (s, Raise e)
      | Ok (s1, found) =>
          let values := merge_actors values found in
          let fs := get_features s1 (map field_id values)
                      (map actor_id values) in
          match
            score_profiles self values
              (group_keys Z.leb Z.eqb (map profile_id values)) fs
          with
          | Raise e => (s1, Raise e)
          | Ok [] => (s1, Ok tt)
          | Ok scored_values =>
              let scored := List.concat scored_values in
              let found :=
                filter (fun r => Qlt_bool 0 (Reporters.s_score r)) scored in
              match
                bind (update_features s1 values) (fun sf =>
                let merged :=
                  merge_left
                    (fun r f =>
                       fav_eqb (value_fav (Reporters.s_row r))
                         (feature_fav f))
                    (fun r f => (r, feature_id f))
                    (fun r => (r, 0))
                    found (snd sf) in
                generate_events (fst sf) buffered merged)
              with
              | Raise e => (s1, Raise e)
              | Ok s2 => (s2, Ok tt)
              end
          end
      end
  end.

(** A profile with one mandatory field [greeting]; the actor is the
    [person] of the message. *)
Definition example_profile : Profile.Profile :=
  Profile.mkProfile 1
    (fun m =>
       match Message.contains Message.int_decimal m
               (Message.ItemStr "greeting") with
       | Ok b => b
       | Raise _ => false
       end)
    (fun m =>
       match Message.getitem Message.int_decimal m (Message.ItemStr "person")
       with
       | Ok (Message.JStr s) => Ok s
       | Ok _ => Raise ValueError
       | Raise e => Raise e
       end)
    [Profile.mkProfileField 1 (Profile.Mandatory 1)
       (fun m =>
          match Message.Message_get Message.int_decimal m
                  (Message.ItemStr "greeting") Message.JNull with
          | Ok (Message.JStr s) => Ok (quoted s)
          | Ok Message.JNull => Ok EmptyString
          | Ok _ => Raise ValueError
          | Raise e => Raise e
          end)].

Definition example_pipeline : Pipeline := mkPipeline [example_profile].

Definition heartbeat (i t : Z) (greeting : string) : Message.Message :=
  Message.mkMessage i t
    (Message.JDict
       [("person", Message.JStr "George"); ("greeting", Message.JStr greeting)]).

(** Two buffered messages, the later one received first. *)
Definition out_of_order : list Message.Message :=
  [heartbeat 1 2 "hello"; heartbeat 2 1 "hello"].

Definition empty_store : Store := mkStore [] [] [] [] [] 1 1 1 1.

End Pipeline.

Module PipelineFrame.
Import Py Frames Pipeline.

(** What a cycle of the pipeline may do to the committed tables: rows are
    added to [actor], [message], [event] and [anomaly], none is changed
    or removed; an added anomaly has a positive score; an added event has
    an anomaly; a feature keeps its id and key, and its count does not
    decrease. *)
Definition same_feature_counted_up (f f' : Feature) : Prop :=
  feature_id f' = feature_id f
  /\ feature_fav f' = feature_fav f
  /\ f_count f <= f_count f'.

Record extends (s s' : Store) : Prop := mkExtends {
  actors_kept : exists added, actors s' = actors s ++ added;
  messages_kept : exists added, messages s' = messages s ++ added;
  events_kept : exists added, events s' = events s ++ added;
  anomalies_kept :
    exists added,
      anomalies s' = anomalies s ++ added
      /\ forall a, In a added -> (0 < an_score a)%Q;
  events_have_anomalies :
    forall e, In e (events s') ->
      In e (events s)
      \/ exists a, In a (anomalies s') /\ an_event_id a = e_id e;
  features_kept :
    exists updated added,
      features s' = updated ++ added
      /\ Forall2 same_feature_counted_up (features s) updated
}.

End PipelineFrame.

Module Timing.

(** [ExponentialBackoff] of [scrywarden/timing.py]. [random.randint(0,
    1000)] is an argument of the calls that draw it. *)

(** The bound method held in [self._next]. *)
Inductive Next : Type :=
| return_initial
| calculate_timeout
| calculate_past_threshold.

Record ExponentialBackoff : Type := mkExponentialBackoff {
  _after : Z;
  _timeout : Q;
  _attempts : Z;
  _dividend : Q;
  _additional : Q;
  _next : Next
}.

(** What a call gives: the float returned, or the [ZeroDivisionError] of
    a division by 0. *)
Inductive Outcome : Type :=
| Returned (value : Q)
| ZeroDivisionError.

Definition first_call (initialize : bool) : Next :=
  if initialize then calculate_timeout else return_initial.

(** [ExponentialBackoff(after, dividend, initialize)]. *)
Definition init (after : Z) (dividend : Q) (initialize : bool)
    : ExponentialBackoff :=
  {| _after := after; _timeout := 0%Q; _attempts := 0;
     _dividend := dividend; _additional := 0%Q;
     _next := first_call initialize |}.

(** [reset(initialize)]. *)
Definition reset (self : ExponentialBackoff) (initialize : bool)
    : ExponentialBackoff :=
  {| _after := _after self; _timeout := 0%Q; _attempts := 0;
     _dividend := _dividend self; _additional := 0%Q;
     _next := first_call initialize |}.

Definition set_next (self : ExponentialBackoff) (method : Next)
    : ExponentialBackoff :=
  {| _after := _after self; _timeout := _timeout self;
     _attempts := _attempts self; _dividend := _dividend self;
     _additional := _additional self; _next := method |}.

Definition set_timeout (self : ExponentialBackoff) (value : Q)
    : ExponentialBackoff :=
  {| _after := _after self; _timeout := value;
     _attempts := _attempts self; _dividend := _dividend self;
     _additional := _additional self; _next := _next self |}.

Definition set_additional (self : ExponentialBackoff) (value : Q)
    : ExponentialBackoff :=
  {| _after := _after self; _timeout := _timeout self;
     _attempts := _attempts self; _dividend := _dividend self;
     _additional := value; _next := _next self |}.

(** [_increment_attempts]: the count before the call is returned. *)
Definition increment_attempts (self : ExponentialBackoff)
    : ExponentialBackoff * Z :=
  ({| _after := _after self; _timeout := _timeout self;
      _attempts := _attempts self + 1; _dividend := _dividend self;
      _additional := _additional self; _next := _next self |},
   _attempts self).

(** [random.randint(0, 1000) / 1000] for the integer drawn. *)
Definition jitter (draw : Z) : Q := (inject_Z draw / 1000)%Q.

Definition return_initial_call (self : ExponentialBackoff)
    : ExponentialBackoff * Outcome :=
  (set_next self calculate_timeout, Returned (_timeout self)).

Definition calculate_timeout_call (self : ExponentialBackoff) (draw : Z)
    : ExponentialBackoff * Outcome :=
  let (self1, attempts) := increment_attempts self in
  let self2 :=
    if _after self1 <=? attempts then set_next self1 calculate_past_threshold
    else self1 in
  (self2, Returned (inject_Z (attempts ^ 2) + jitter draw)%Q).

Definition calculate_past_threshold_call (self : ExponentialBackoff)
    (draw : Z) : ExponentialBackoff * Outcome :=
  let (self1, attempts) := increment_attempts self in
  if attempts - _after self1 =? 0 then (self1, ZeroDivisionError)
  else
    let self2 :=
      set_additional self1
        (_additional self1
         + _dividend self1 / inject_Z (attempts - _after self1))%Q in
    (self2,
     Returned (inject_Z (_after self2 ^ 2) + _additional self2
               + jitter draw)%Q).

(** [next()]: [self._timeout] is assigned when the method held in
    [self._next] returns. *)
Definition next (self : ExponentialBackoff) (draw : Z)
    : ExponentialBackoff * Outcome :=
  let (self1, out) :=
    match _next self with
    | return_initial => return_initial_call self
    | calculate_timeout => calculate_timeout_call self draw
    | calculate_past_threshold => calculate_past_threshold_call self draw
    end in
  match out with
  | Returned value => (set_timeout self1 value, out)
  | ZeroDivisionError => (self1, out)
  end.

(** The calls a user of the class can make. *)
Inductive Call : Type :=
| call_next (draw : Z)
| call_reset (initialize : bool).

(** A sequence of calls on one object: the object afterwards and what the
    calls of [next] gave, in order. *)
Fixpoint run (self : ExponentialBackoff) (calls : list Call)
    : ExponentialBackoff * list Outcome :=
  match calls with
  | [] => (self, [])
  | call_next draw :: rest =>
      let (self1, out) := next self draw in
      let (self2, outs) := run self1 rest in
      (self2, out :: outs)
  | call_reset initialize :: rest => run (reset self initialize) rest
  end.

Definition is_Returned (out : Outcome) : bool :=
  match out with Returned _ => true | ZeroDivisionError => false end.

(** What an object keeps through [next] and [reset]: where it stands
    according to the method held in [self._next]. *)
Record kept (self : ExponentialBackoff) : Prop := mkKept {
  attempts_counted : 0 <= _attempts self;
  initial_untouched :
    _next self = return_initial ->
    _attempts self = 0 /\ _timeout self = 0%Q;
  before_threshold :
    _next self = calculate_timeout ->
    _attempts self = 0 \/ _attempts self <= _after self;
  past_threshold :
    _next self = calculate_past_threshold -> _after self < _attempts self;
  additional_grows :
    (0 <= _dividend self)%Q -> (0 <= _additional self)%Q
}.

End Timing.

(* ===================================================================== *)
(* ===================================================================== *)
(** * Theorems *)
(* ===================================================================== *)
(* ===================================================================== *)

(** * Facts about [transport/message.py] *)

Module MessageFacts.
Import Py Message.

Section WithInt.

Variable int : string -> option Z.

Lemma dict_getitem_raises (items : list (string * JSONValue)) (key : string)
    (e : exn) :
  dict_getitem items key = Raise e -> e = KeyError [key].
Proof.
  induction items as [|[k v] rest IH]; simpl.
  - intros H. inversion H. reflexivity.
  - destruct (String.eqb k key); [discriminate | exact IH].
Qed.

Lemma list_getitem_raises (items : list JSONValue) (i : Z) (e : exn) :
  list_getitem items i = Raise e -> e = IndexError.
Proof.
  unfold list_getitem.
  destruct ((0 <=? _) && _).
  - destruct (nth_error _ _); [discriminate | now inversion 1].
  - now inversion 1.
Qed.

Lemma index_step_raises (items : list JSONValue) (key : string) (e : exn) :
  bind (py_int int key) (list_getitem items) = Raise e ->
  is_ValueError_or_IndexError e = true.
Proof.
  unfold py_int. destruct (int key) as [i|]; simpl.
  - intros H. apply list_getitem_raises in H. now subst.
  - now inversion 1.
Qed.

(** Whatever [get] raises is the [KeyError] of the path it was called
    with. *)
Lemma get_raises (field : list string) :
  forall (data : JSONValue) (e : exn),
    get int data field = Raise e -> e = KeyError field.
Proof.
  induction field as [|key remaining IH]; intros data e; simpl.
  - discriminate.
  - assert (Hrec : forall target,
               try_except (get int target remaining) is_KeyError
                 (Raise (KeyError (key :: remaining))) = Raise e ->
               e = KeyError (key :: remaining)).
    { intros target. destruct (get int target remaining) as [v|e'] eqn:Hg;
        simpl; [discriminate|].
      rewrite (IH _ _ Hg). simpl. now inversion 1. }
    destruct data; simpl; try (now inversion 1).
    + destruct (bind (py_int int key) (list_getitem items)) as [t|e'] eqn:Hs;
        simpl; [apply Hrec|].
      rewrite (index_step_raises _ _ _ Hs). now inversion 1.
    + destruct (dict_getitem items key) as [t|e'] eqn:Hd; simpl;
        [apply Hrec|].
      rewrite (dict_getitem_raises _ _ _ Hd). simpl. now inversion 1.
Qed.

Lemma get_sound (field : list string) :
  forall (data v : JSONValue),
    get int data field = Ok v -> resolves int data field v.
Proof.
  induction field as [|key remaining IH]; intros data v; simpl.
  - inversion 1. constructor.
  - assert (Hrec : forall target,
               try_except (get int target remaining) is_KeyError
                 (Raise (KeyError (key :: remaining))) = Ok v ->
               resolves int target remaining v).
    { intros target. destruct (get int target remaining) as [v'|e'] eqn:Hg;
        simpl.
      - inversion 1; subst. now apply IH.
      - destruct (is_KeyError e'); discriminate. }
    destruct data; simpl; try discriminate.
    + unfold py_int. destruct (int key) as [i|] eqn:Hi; simpl;
        [|discriminate].
      destruct (list_getitem items i) as [t|e'] eqn:Hl; simpl.
      * intros H. eapply resolves_list; eauto.
      * destruct (is_ValueError_or_IndexError e'); discriminate.
    + destruct (dict_getitem items key) as [t|e'] eqn:Hd; simpl.
      * intros H. eapply resolves_dict; eauto.
      * destruct (is_KeyError e'); discriminate.
Qed.

Lemma get_complete (data : JSONValue) (field : list string) (v : JSONValue) :
  resolves int data field v -> get int data field = Ok v.
Proof.
  induction 1 as [data|items key remaining target v Hd _ IH
                  |items key remaining i target v Hi Hl _ IH]; simpl.
  - reflexivity.
  - rewrite Hd. simpl. now rewrite IH.
  - unfold py_int. rewrite Hi. simpl. rewrite Hl. simpl. now rewrite IH.
Qed.

Lemma get_total (data : JSONValue) (field : list string) :
  (exists v, get int data field = Ok v /\ resolves int data field v)
  \/ (get int data field = Raise (KeyError field)
      /\ forall v, ~ resolves int data field v).
Proof.
  destruct (get int data field) as [v|e] eqn:Hg.
  - left. exists v. split; [reflexivity | now apply get_sound].
  - right. rewrite (get_raises _ _ _ Hg). split; [reflexivity|].
    intros v Hv. apply get_complete in Hv. congruence.
Qed.

End WithInt.

(** C10. For every reading [int] of Python's [int], every message, every
    path (a string or a sequence of strings) and every default:
    [path in message] returns a boolean, true exactly when the path
    resolves; [message.get(path, default)] returns the stored value when
    the path resolves and the default otherwise; neither raises; and
    whatever the nested lookup [get] raises (a missing key, an index that
    is not an integer or is out of range, a value that is no container) is
    the [KeyError] of the full path. *)
Theorem contains_and_get_never_raise :
  forall (int : string -> option Z) (self : Message) (item : Item)
         (default : JSONValue),
    (exists b : bool,
        contains int self item = Ok b
        /\ (b = true <->
            exists v, resolves int (data self) (item_path item) v))
    /\ (forall v, resolves int (data self) (item_path item) v ->
                  Message_get int self item default = Ok v)
    /\ ((forall v, ~ resolves int (data self) (item_path item) v) ->
        Message_get int self item default = Ok default
        /\ getitem int self item = Raise (KeyError (item_path item)))
    /\ (forall data field e,
           get int data field = Raise e -> e = KeyError field).
Proof.
  intros int self item default.
  unfold contains, Message_get, getitem.
  destruct (get_total int (data self) (item_path item))
    as [[v [Hg Hr]]|[Hg Hn]]; rewrite Hg; simpl.
  - split; [|split; [|split]].
    + exists true. split; [reflexivity|]. split; [|reflexivity].
      intros _. now exists v.
    + intros v' Hv'. apply get_complete in Hv'. congruence.
    + intros Hn. exfalso. exact (Hn v Hr).
    + intros d f e. apply get_raises.
  - split; [|split; [|split]].
    + exists false. split; [reflexivity|]. split; [discriminate|].
      intros [v Hv]. exfalso. exact (Hn v Hv).
    + intros v Hv. exfalso. exact (Hn v Hv).
    + intros _. split; reflexivity.
    + intros d f e. apply get_raises.
Qed.

(** The cases of [tests/test_message.py::TestGetValue]. *)
Example test_get_value :
  get int_decimal (JInt 5) [] = Ok (JInt 5)
  /\ get int_decimal (JInt 5) ["hello"] = Raise (KeyError ["hello"])
  /\ get int_decimal (JDict [("nested", JStr "value")]) ["nested"]
     = Ok (JStr "value")
  /\ get int_decimal (JList [JInt 0; JInt 1]) ["1"] = Ok (JInt 1)
  /\ get int_decimal test_complex_data ["nested"; "value"] = Ok (JStr "here")
  /\ get int_decimal test_complex_data ["array"; "2"; "surprise"]
     = Raise (KeyError ["array"; "2"; "surprise"]).
Proof. repeat split; reflexivity. Qed.

End MessageFacts.

Module MessageKeysFacts.
Import Py Message MessageKeys MessageFacts.

(** Facts about [keys] and [copy] of [transport/message.py]. *)

(** Induction on a JSON value, with the property known of every element
    of a list and of every value of a dictionary. *)
Lemma JSONValue_nested_ind (P : JSONValue -> Prop) :
  P JNull -> (forall b, P (JBool b)) -> (forall n, P (JInt n)) ->
  (forall q, P (JFloat q)) -> (forall s, P (JStr s)) ->
  (forall items, Forall P items -> P (JList items)) ->
  (forall items, Forall (fun item => P (snd item)) items -> P (JDict items)) ->
  forall data, P data.
Proof.
  intros Hnull Hbool Hint Hfloat Hstr Hlist Hdict.
  fix IH 1. intros [|b|n|q|s|items|items].
  - exact Hnull.
  - apply Hbool.
  - apply Hint.
  - apply Hfloat.
  - apply Hstr.
  - apply Hlist. induction items as [|v rest IHl]; constructor.
    + apply IH.
    + exact IHl.
  - apply Hdict. induction items as [|[k v] rest IHl]; constructor.
    + apply IH.
    + exact IHl.
Qed.


(** The numeral that [str] writes is read back by [int]. *)
Lemma digit_of_digit_char (d : Z) :
  0 <= d < 10 -> digit_of (digit_char d) = Some d.
Proof.
  intros Hd. unfold digit_of, digit_char.
  rewrite nat_ascii_embedding by lia.
  rewrite Nat2Z.inj_add, Z2Nat.id by lia. simpl Z.of_nat.
  replace ((48 <=? 48 + d) && (48 + d <=? 57)) with true
    by (symmetry; apply andb_true_iff; split; apply Z.leb_le; lia).
  f_equal. lia.
Qed.

Lemma digits_value_app (s : string) (c : ascii) :
  forall acc v d,
    digits_value acc s = Some v -> digit_of c = Some d ->
    digits_value acc (s ++ String c EmptyString) = Some (10 * v + d).
Proof.
  induction s as [|c' s IH]; simpl; intros acc v d Hv Hd.
  - inversion Hv; subst. now rewrite Hd.
  - destruct (digit_of c'); [|discriminate]. now apply IH.
Qed.

Lemma digits_value_str_from (fuel : nat) :
  forall n, 0 <= n <= Z.of_nat fuel ->
    digits_value 0 (str_from fuel n) = Some n.
Proof.
  induction fuel as [|fuel IH]; intros n Hn.
  - assert (n = 0) by lia. subst. vm_compute. reflexivity.
  - cbn [str_from]. destruct (n <? 10) eqn:Hlt.
    + apply Z.ltb_lt in Hlt. cbn [digits_value].
      rewrite digit_of_digit_char by lia. cbn [digits_value]. f_equal; lia.
    + apply Z.ltb_ge in Hlt.
      assert (Hdiv : 0 <= n / 10 <= Z.of_nat fuel).
      { split; [apply Z.div_pos; lia|].
        assert (n / 10 < n) by (apply Z.div_lt; lia). lia. }
      rewrite (digits_value_app _ _ 0 (n / 10) (n mod 10)).
      * f_equal. pose proof (Z.div_mod n 10). lia.
      * now apply IH.
      * apply digit_of_digit_char. apply Z.mod_pos_bound. lia.
Qed.

Lemma int_decimal_digits (s : string) (v : Z) :
  digits_value 0 s = Some v -> s <> EmptyString -> int_decimal s = Some v.
Proof.
  destruct s as [|c rest]; [congruence|]. intros Hv _.
  unfold int_decimal.
  destruct (Ascii.eqb c "-"%char) eqn:Hm.
  { apply Ascii.eqb_eq in Hm. subst. discriminate. }
  destruct (Ascii.eqb c "+"%char) eqn:Hp.
  { apply Ascii.eqb_eq in Hp. subst. discriminate. }
  destruct c as [[] [] [] [] [] [] [] []]; try exact Hv; discriminate.
Qed.

Lemma str_from_not_empty (fuel : nat) (n : Z) : str_from fuel n <> EmptyString.
Proof.
  destruct fuel as [|fuel]; cbn [str_from]; [discriminate|].
  destruct (n <? 10); [discriminate|].
  destruct (str_from fuel (n / 10)); discriminate.
Qed.

Lemma int_decimal_str (index : nat) :
  int_decimal (str index) = Some (Z.of_nat index).
Proof.
  unfold str. apply int_decimal_digits.
  - apply digits_value_str_from. lia.
  - apply str_from_not_empty.
Qed.

Lemma list_getitem_middle (prefix : list JSONValue) (value : JSONValue)
    (rest : list JSONValue) :
  list_getitem (prefix ++ value :: rest) (Z.of_nat (List.length prefix))
  = Ok value.
Proof.
  unfold list_getitem. rewrite length_app. cbn [List.length].
  destruct (Z.of_nat (List.length prefix) <? 0) eqn:Hneg;
    [apply Z.ltb_lt in Hneg; lia|].
  replace ((0 <=? Z.of_nat (List.length prefix))
           && (Z.of_nat (List.length prefix)
               <? Z.of_nat (List.length prefix + S (List.length rest))))
    with true
    by (symmetry; apply andb_true_iff; split;
        [apply Z.leb_le | apply Z.ltb_lt]; lia).
  rewrite Nat2Z.id, nth_error_app2 by lia.
  now rewrite Nat.sub_diag.
Qed.

Lemma dict_getitem_later (field : string) (value : JSONValue)
    (rest : list (string * JSONValue)) (key : string) :
  String.eqb field key = false ->
  dict_getitem ((field, value) :: rest) key = dict_getitem rest key.
Proof. intros H. simpl. now rewrite H. Qed.

Section WithInt.

Variable int : string -> option Z.

Hypothesis int_str : forall index, int (str index) = Some (Z.of_nat index).

Lemma child_keys_resolve (field : string) (value : JSONValue)
    (path : list string) :
  (forall nested, In nested (keys value) ->
                  exists v, resolves int value nested v) ->
  In path (child_keys keys field value) ->
  exists remaining v,
    path = field :: remaining /\ resolves int value remaining v.
Proof.
  intros IH [Hp|Hp].
  - exists [], value. split; [now symmetry | constructor].
  - apply in_map_iff in Hp. destruct Hp as [nested [Hp Hn]].
    destruct (IH _ Hn) as [v Hv]. exists nested, v. now split.
Qed.

Lemma items_keys_field (items : list (string * JSONValue))
    (path : list string) :
  In path (items_keys keys items) ->
  exists field remaining,
    path = field :: remaining
    /\ existsb (fun item => String.eqb (fst item) field) items = true.
Proof.
  induction items as [|[field value] rest IH]; simpl; [contradiction|].
  intros [Hp|Hp].
  - exists field, []. split; [now symmetry|]. now rewrite String.eqb_refl.
  - apply in_app_or in Hp. destruct Hp as [Hp|Hp].
    + apply in_map_iff in Hp. destruct Hp as [nested [Hp _]].
      exists field, nested. split; [now symmetry|].
      now rewrite String.eqb_refl.
    + destruct (IH Hp) as [f [r [Hpath Hex]]]. exists f, r.
      split; [exact Hpath|]. rewrite Hex. apply orb_true_r.
Qed.

(** A list: the element at [index] is reached by [str index]. *)
Lemma enumerate_keys_resolve (items : list JSONValue) :
  Forall (fun value =>
            is_json value = true ->
            forall path, In path (keys value) ->
                         exists v, resolves int value path v) items ->
  forallb is_json items = true ->
  forall prefix path,
    In path (enumerate_keys keys (List.length prefix) items) ->
    exists v, resolves int (JList (prefix ++ items)) path v.
Proof.
  induction items as [|value rest IHrest]; intros IH Hjson prefix path;
    cbn [enumerate_keys]; [contradiction|].
  cbn [forallb] in Hjson.
  apply andb_true_iff in Hjson. destruct Hjson as [Hvalue Hrest].
  inversion IH as [|? ? IHvalue IHothers]; subst.
  intros Hp. apply in_app_or in Hp. destruct Hp as [Hp|Hp].
  - apply child_keys_resolve in Hp; [|now apply IHvalue].
    destruct Hp as [remaining [v [Hpath Hv]]]. subst path. exists v.
    eapply resolves_list;
      [apply int_str | apply list_getitem_middle | exact Hv].
  - specialize (IHrest IHothers Hrest (prefix ++ [value]) path).
    rewrite length_app, Nat.add_1_r, <- app_assoc in IHrest.
    now apply IHrest.
Qed.

(** A dictionary: the first item with the field is the one that yields
    it. *)
Lemma items_keys_resolve (items : list (string * JSONValue)) :
  Forall (fun item =>
            is_json (snd item) = true ->
            forall path, In path (keys (snd item)) ->
                         exists v, resolves int (snd item) path v) items ->
  distinct_fields items = true ->
  forallb (fun item => is_json (snd item)) items = true ->
  forall path,
    In path (items_keys keys items) ->
    exists v, resolves int (JDict items) path v.
Proof.
  induction items as [|[field value] rest IHrest];
    intros IH Hdistinct Hvalues path; cbn [items_keys]; [contradiction|].
  cbn [distinct_fields forallb snd] in Hdistinct, Hvalues.
  apply andb_true_iff in Hdistinct. destruct Hdistinct as [Hfresh Hdistinct].
  apply andb_true_iff in Hvalues. destruct Hvalues as [Hvalue Hvalues].
  inversion IH as [|? ? IHvalue IHothers]; subst. cbn [snd] in IHvalue.
  intros Hp. apply in_app_or in Hp. destruct Hp as [Hp|Hp].
  - apply child_keys_resolve in Hp; [|now apply IHvalue].
    destruct Hp as [remaining [v [Hpath Hv]]]. subst path. exists v.
    eapply resolves_dict; [|exact Hv]. simpl. now rewrite String.eqb_refl.
  - destruct (items_keys_field _ _ Hp) as [f [r [Hpath Hex]]].
    destruct (IHrest IHothers Hdistinct Hvalues path Hp) as [v Hv].
    exists v. subst path. inversion Hv; subst.
    eapply resolves_dict; [|eassumption].
    rewrite dict_getitem_later; [assumption|].
    destruct (String.eqb field f) eqn:Heq; [|reflexivity].
    apply String.eqb_eq in Heq. subst f.
    rewrite Hex in Hfresh. discriminate.
Qed.

(** Every field that [keys] yields resolves. *)
Lemma keys_resolve (data : JSONValue) :
  is_json data = true ->
  forall path, In path (keys data) -> exists v, resolves int data path v.
Proof.
  induction data as [|b|n|q|s|items IH|items IH] using JSONValue_nested_ind;
    try (intros _ path []).
  - cbn [is_json keys]. intros Hjson path Hp.
    exact (enumerate_keys_resolve items IH Hjson [] path Hp).
  - cbn [is_json keys]. intros Hjson path Hp.
    apply andb_true_iff in Hjson. destruct Hjson as [Hdistinct Hvalues].
    exact (items_keys_resolve items IH Hdistinct Hvalues path Hp).
Qed.

End WithInt.

Lemma copy_equal (data : JSONValue) : copy data = data.
Proof.
  induction data as [|b|n|q|s|items IH|items IH] using JSONValue_nested_ind;
    try reflexivity; cbn [copy]; f_equal.
  - induction IH as [|value rest Hvalue _ IHrest]; [reflexivity|].
    cbn [map]. now rewrite Hvalue, IHrest.
  - induction IH as [|[key value] rest Hvalue _ IHrest]; [reflexivity|].
    cbn [map fst snd] in *. now rewrite Hvalue, IHrest.
Qed.

(** X1. Every field that iterating a message yields is contained in the
    message: with [int] reading back the numerals that [str] writes, and a
    message whose dictionaries hold each key once, [path in message] is
    true for every [path] of [iter(message)], and [message[path]] returns
    a value. *)
Theorem iterated_fields_are_contained :
  forall (int : string -> option Z) (self : Message) (path : list string),
    (forall index, int (str index) = Some (Z.of_nat index)) ->
    is_json (data self) = true ->
    In path (iter self) ->
    contains int self (ItemSeq path) = Ok true
    /\ exists v, getitem int self (ItemSeq path) = Ok v.
Proof.
  intros int self path Hint Hjson Hp.
  destruct (keys_resolve int Hint (data self) Hjson path Hp) as [v Hv].
  apply get_complete in Hv.
  unfold contains, getitem. cbn [item_path]. rewrite Hv.
  split; [reflexivity | now exists v].
Qed.

Lemma iterated_fields_are_contained_witness :
  contains int_decimal (mkMessage 1 0 test_complex_data)
    (ItemSeq ["array"; "1"; "surprise"]) = Ok true
  /\ exists v, getitem int_decimal (mkMessage 1 0 test_complex_data)
                 (ItemSeq ["array"; "1"; "surprise"]) = Ok v.
Proof.
  apply (iterated_fields_are_contained int_decimal
           (mkMessage 1 0 test_complex_data) ["array"; "1"; "surprise"]).
  - exact int_decimal_str.
  - reflexivity.
  - vm_compute. tauto.
Defined.

(** X2. [copy] returns a value equal to its argument, at every depth: a
    message built from the copy has the same fields and the same value at
    each of them. *)
Theorem copy_keeps_every_field :
  forall (int : string -> option Z) (data : JSONValue) (field : list string),
    copy data = data
    /\ keys (copy data) = keys data
    /\ get int (copy data) field = get int data field.
Proof.
  intros int data field. now rewrite copy_equal.
Qed.

(** The cases of [tests/test_message.py::TestGetFields]. *)
Example test_get_fields :
  keys (JInt 5) = []
  /\ keys (JDict [("one", JInt 1); ("two", JInt 2)]) = [["one"]; ["two"]]
  /\ keys (JList [JInt 0; JInt 1; JInt 2]) = [["0"]; ["1"]; ["2"]]
  /\ keys test_complex_data
     = [["nested"]; ["nested"; "value"]; ["nested"; "integer"];
        ["array"]; ["array"; "0"]; ["array"; "1"];
        ["array"; "1"; "surprise"]].
Proof. repeat split; reflexivity. Qed.

End MessageKeysFacts.

Module FieldsFacts.
Import Py Message Fields MessageFacts.

(** Facts about [profile/fields.py]. *)

Section WithInt.

Variable int : string -> option Z.

Lemma Message_get_cases (self : Message) (item : Item) (default : JSONValue) :
  (exists v, resolves int (data self) (item_path item) v
             /\ Message_get int self item default = Ok v)
  \/ ((forall v, ~ resolves int (data self) (item_path item) v)
      /\ Message_get int self item default = Ok default).
Proof.
  unfold Message_get, getitem.
  destruct (get_total int (data self) (item_path item))
    as [[v [Hg Hr]]|[Hg Hn]]; rewrite Hg; simpl.
  - left. now exists v.
  - right. now split.
Qed.

Lemma Multi_values_total (keys : list Item) (message : Message) :
  exists values,
    Multi_values int keys message = Ok values
    /\ Forall2
         (fun key value =>
            resolves int (data message) (item_path key) value
            \/ ((forall v, ~ resolves int (data message) (item_path key) v)
                /\ value = JNull))
         keys values.
Proof.
  induction keys as [|key rest IH]; cbn [Multi_values].
  - exists []. split; [reflexivity | constructor].
  - destruct IH as [values [Hvalues Hall]]. rewrite Hvalues.
    destruct (Message_get_cases message key JNull)
      as [[v [Hr Hg]]|[Hn Hg]]; rewrite Hg; cbn [bind].
    + exists (v :: values). split; [reflexivity|]. constructor; [|exact Hall].
      now left.
    + exists (JNull :: values). split; [reflexivity|].
      constructor; [|exact Hall]. right. now split.
Qed.

End WithInt.

(** X6. A [Single] field never raises while reading a message, and a
    missing value is read as the empty string: when the path
    [self.key or self.name] does not resolve in the message, or resolves
    to [null], [_get_field_value] returns ['']; when it resolves to
    another value it returns the serialisation of that value, or raises
    the [ValueError] that replaces a failure of the serialiser. *)
Theorem Single_missing_value_is_empty :
  forall (int : string -> option Z) (dumps : JSONValue -> result string)
         (key : option Item) (name : string) (message : Message),
    let path := item_path (key_or_name key name) in
    let read := get_field_value dumps (Single_get_value int key name) message in
    ((forall v, ~ resolves int (data message) path v) ->
     read = Ok EmptyString)
    /\ (resolves int (data message) path JNull -> read = Ok EmptyString)
    /\ (forall v, resolves int (data message) path v -> v <> JNull ->
          match dumps v with
          | Ok s => read = Ok s
          | Raise _ => read = Raise ValueError
          end).
Proof.
  intros int dumps key name message path read.
  unfold read, get_field_value, Single_get_value.
  destruct (Message_get_cases int message (key_or_name key name) JNull)
    as [[v [Hr Hg]]|[Hn Hg]]; rewrite Hg; cbn [bind].
  - split; [|split].
    + intros Hnone. exfalso. exact (Hnone v Hr).
    + intros Hnull. apply get_complete in Hnull, Hr.
      fold path in Hr. rewrite Hnull in Hr. inversion Hr. reflexivity.
    + intros v' Hv' Hne. apply get_complete in Hv', Hr.
      fold path in Hr. rewrite Hv' in Hr. inversion Hr; subst v'.
      destruct v; try congruence; destruct (dumps _); reflexivity.
  - split; [|split].
    + reflexivity.
    + reflexivity.
    + intros v Hv. exfalso. exact (Hn v Hv).
Qed.

(** X7. [Multi.get_value] never raises and returns a list with one entry
    for each of its keys: the value the key resolves to, or [null] when
    it does not resolve. So the value of a [Multi] field is never [None],
    and [_get_field_value] always serialises it: a [Multi] field never
    reads as the empty string of a missing value. *)
Theorem Multi_value_is_a_list :
  forall (int : string -> option Z) (dumps : JSONValue -> result string)
         (keys : list Item) (message : Message),
    exists values,
      Multi_get_value int keys message = Ok (JList values)
      /\ List.length values = List.length keys
      /\ Forall2
           (fun key value =>
              resolves int (data message) (item_path key) value
              \/ ((forall v,
                      ~ resolves int (data message) (item_path key) v)
                  /\ value = JNull))
           keys values
      /\ get_field_value dumps (Multi_get_value int keys) message
         = try_except (dumps (JList values)) (fun _ => true)
             (Raise ValueError).
Proof.
  intros int dumps keys message.
  destruct (Multi_values_total int keys message) as [values [Hv Hall]].
  exists values. unfold get_field_value, Multi_get_value. rewrite Hv.
  cbn [bind]. split; [reflexivity|]. split; [|split].
  - symmetry. exact (Forall2_length Hall).
  - exact Hall.
  - reflexivity.
Qed.

End FieldsFacts.

(** * Facts about the frame operations *)

Module FramesFacts.
Import Frames.

Section Generic.

Context {A : Type}.

Lemma insert_sorted_perm (leb : A -> A -> bool) (x : A) (l : list A) :
  Permutation (insert_sorted leb x l) (x :: l).
Proof.
  induction l as [|y rest IH]; simpl.
  - apply Permutation_refl.
  - destruct (leb x y).
    + apply Permutation_refl.
    + eapply Permutation_trans; [apply perm_skip, IH | apply perm_swap].
Qed.

Lemma sort_values_perm (leb : A -> A -> bool) (df : list A) :
  Permutation (sort_values leb df) df.
Proof.
  induction df as [|x rest IH]; simpl.
  - apply Permutation_refl.
  - eapply Permutation_trans; [apply insert_sorted_perm|].
    now apply perm_skip.
Qed.

Lemma sort_values_In (leb : A -> A -> bool) (df : list A) (x : A) :
  In x (sort_values leb df) <-> In x df.
Proof.
  split; apply Permutation_in;
    [|apply Permutation_sym]; apply sort_values_perm.
Qed.

Lemma sort_values_length (leb : A -> A -> bool) (df : list A) :
  List.length (sort_values leb df) = List.length df.
Proof. apply Permutation_length, sort_values_perm. Qed.

Section WithEqb.

Variable eqb : A -> A -> bool.
Hypothesis eqb_eq : forall x y, eqb x y = true <-> x = y.

Lemma existsb_eqb (x : A) (l : list A) :
  existsb (eqb x) l = true <-> In x l.
Proof.
  rewrite existsb_exists. split.
  - intros [y [Hy He]]. apply eqb_eq in He. now subst.
  - intros H. exists x. split; [exact H | now apply eqb_eq].
Qed.

Lemma drop_duplicates_from_In (l seen : list A) (x : A) :
  In x (drop_duplicates_from eqb seen l) <-> In x l /\ ~ In x seen.
Proof.
  revert seen. induction l as [|y rest IH]; intros seen; simpl.
  - tauto.
  - destruct (existsb (eqb y) seen) eqn:Hs.
    + apply existsb_eqb in Hs. rewrite IH. split.
      * tauto.
      * intros [[->|H] Hn]; tauto.
    + assert (Hy : ~ In y seen).
      { intros H. apply existsb_eqb in H. congruence. }
      simpl. rewrite IH. simpl. split.
      * intros [->|[H Hn]]; [tauto|]. split; [tauto|]. intros Hx. tauto.
      * intros [[->|H] Hn]; [tauto|].
        destruct (eqb y x) eqn:He.
        -- apply eqb_eq in He. tauto.
        -- right. split; [exact H|]. intros [->|Hx]; [|tauto].
           assert (eqb x x = true) by now apply eqb_eq. congruence.
Qed.

Lemma drop_duplicates_In (l : list A) (x : A) :
  In x (drop_duplicates eqb l) <-> In x l.
Proof.
  unfold drop_duplicates. rewrite drop_duplicates_from_In. simpl. tauto.
Qed.

Lemma drop_duplicates_from_NoDup (l seen : list A) :
  NoDup (drop_duplicates_from eqb seen l).
Proof.
  revert seen. induction l as [|y rest IH]; intros seen; simpl.
  - constructor.
  - destruct (existsb (eqb y) seen); [apply IH|].
    constructor; [|apply IH].
    rewrite drop_duplicates_from_In. simpl. tauto.
Qed.

Lemma drop_duplicates_NoDup (l : list A) : NoDup (drop_duplicates eqb l).
Proof. apply drop_duplicates_from_NoDup. Qed.

Lemma group_keys_In (leb : A -> A -> bool) (keys : list A) (x : A) :
  In x (group_keys leb eqb keys) <-> In x keys.
Proof.
  unfold group_keys. now rewrite sort_values_In, drop_duplicates_In.
Qed.

Lemma group_keys_NoDup (leb : A -> A -> bool) (keys : list A) :
  NoDup (group_keys leb eqb keys).
Proof.
  unfold group_keys.
  eapply Permutation_NoDup;
    [apply Permutation_sym, sort_values_perm | apply drop_duplicates_NoDup].
Qed.

End WithEqb.

End Generic.

Section Sorting.

Context {A : Type}.
Variable leb : A -> A -> bool.
Variable R : A -> A -> Prop.
Hypothesis leb_R : forall x y, leb x y = true -> R x y.
Hypothesis leb_total : forall x y, leb x y = false -> R y x.
Hypothesis R_trans : forall x y z, R x y -> R y z -> R x z.

Lemma insert_sorted_ordered (x : A) (l : list A) :
  StronglySorted R l -> StronglySorted R (insert_sorted leb x l).
Proof.
  induction l as [|y rest IH]; intros Hs; simpl.
  - repeat constructor.
  - apply StronglySorted_inv in Hs. destruct Hs as [Hrest Hall].
    destruct (leb x y) eqn:Hle.
    + constructor; [now constructor|]. constructor; [now apply leb_R|].
      rewrite Forall_forall in *. intros z Hz.
      apply (R_trans x y z); [now apply leb_R | now apply Hall].
    + constructor; [now apply IH|].
      rewrite Forall_forall in *. intros z Hz.
      apply (Permutation_in _ (insert_sorted_perm leb x rest)) in Hz.
      destruct Hz as [<-|Hz]; [now apply leb_total | now apply Hall].
Qed.

Lemma sort_values_ordered (df : list A) :
  StronglySorted R (sort_values leb df).
Proof.
  induction df as [|x rest IH]; simpl; [constructor|].
  now apply insert_sorted_ordered.
Qed.

End Sorting.

(** In a sorted frame every row is below the rows after it. *)
Lemma sorted_split {A : Type} (R : A -> A -> Prop) (pre post : list A)
    (x : A) :
  StronglySorted R (pre ++ x :: post) ->
  StronglySorted R pre /\ StronglySorted R (x :: post)
  /\ forall y, In y pre -> R y x.
Proof.
  induction pre as [|a rest IH]; simpl; intros Hs.
  - split; [constructor|]. split; [exact Hs | tauto].
  - apply StronglySorted_inv in Hs. destruct Hs as [Hrest Hall].
    destruct (IH Hrest) as [Hs' [Hx Hb]]. split; [|split; [exact Hx|]].
    + constructor; [exact Hs'|]. rewrite Forall_forall in *.
      intros z Hz. apply Hall. apply in_app_iff. now left.
    + intros y [<-|Hy]; [|now apply Hb].
      rewrite Forall_forall in Hall. apply Hall. apply in_app_iff.
      right. now left.
Qed.

Lemma enumerate_from_split {A : Type} (l : list A) (j i : Z) (x : A) :
  In (i, x) (enumerate_from j l) ->
  exists pre post, l = pre ++ x :: post
                   /\ i = j + Z.of_nat (List.length pre).
Proof.
  revert j. induction l as [|a rest IH]; intros j; simpl; [tauto|].
  intros [H|H].
  - inversion H; subst. exists [], rest. split; [reflexivity|]. simpl. lia.
  - destruct (IH _ H) as [pre [post [-> Hi]]].
    exists (a :: pre), post. split; [reflexivity|].
    simpl List.length. lia.
Qed.

Lemma filter_length_le {A : Type} (p q : A -> bool) (l : list A) :
  (forall x, p x = true -> q x = true) ->
  (List.length (filter p l) <= List.length (filter q l))%nat.
Proof.
  intros H. induction l as [|a rest IH]; simpl; [lia|].
  destruct (p a) eqn:Hp.
  - rewrite (H a Hp). simpl. lia.
  - destruct (q a); simpl; lia.
Qed.

Lemma filter_all {A : Type} (p : A -> bool) (l : list A) :
  (forall x, In x l -> p x = true) -> filter p l = l.
Proof.
  induction l as [|a rest IH]; intros H; simpl; [reflexivity|].
  rewrite (H a) by now left. f_equal. apply IH. intros x Hx. apply H.
  now right.
Qed.

Lemma filter_all_true {A : Type} (l : list A) :
  filter (fun _ => true) l = l.
Proof. induction l as [|a rest IH]; simpl; [reflexivity | now rewrite IH]. Qed.

(** The first row of a group is at least as far before a row as the group
    has rows before it. *)
Lemma index_of_first_count {A : Type} (p : A -> bool) (pre post : list A)
    (x : A) (j : Z) :
  p x = true ->
  exists first,
    index_of_first p j (pre ++ x :: post) = Some first
    /\ Z.of_nat (List.length (filter p pre))
       <= j + Z.of_nat (List.length pre) - first.
Proof.
  intros Hx. revert j. induction pre as [|a rest IH]; intros j; simpl.
  - rewrite Hx. exists j. split; [reflexivity | lia].
  - destruct (p a) eqn:Hp.
    + exists j. split; [reflexivity|]. simpl List.length.
      pose proof (filter_length_le p (fun _ => true) rest
                    (fun _ _ => eq_refl)) as Hlen.
      rewrite (filter_all_true rest) in Hlen. lia.
    + destruct (IH (j + 1)) as [first [Hf Hle]]. exists first.
      split; [exact Hf | lia].
Qed.

Lemma fa_eqb_eq (x y : Z * Z) : fa_eqb x y = true <-> x = y.
Proof.
  destruct x as [a b], y as [c d]. unfold fa_eqb. simpl.
  rewrite andb_true_iff, !Z.eqb_eq. split.
  - now intros [-> ->].
  - now inversion 1.
Qed.

Lemma fav_eqb_eq (x y : Z * Z * string) : fav_eqb x y = true <-> x = y.
Proof.
  destruct x as [p s], y as [q t]. unfold fav_eqb. simpl.
  rewrite andb_true_iff, fa_eqb_eq, String.eqb_eq. split.
  - now intros [-> ->].
  - now inversion 1.
Qed.


Lemma merge_left_cons {L R O : Type} (on : L -> R -> bool)
    (matched : L -> R -> O) (unmatched : L -> O) (l : L) (rest : list L)
    (right : list R) :
  merge_left on matched unmatched (l :: rest) right
  = match filter (on l) right with
    | [] => [unmatched l]
    | ms => map (matched l) ms
    end ++ merge_left on matched unmatched rest right.
Proof. reflexivity. Qed.

Lemma merge_left_unique {L R O : Type} (on : L -> R -> bool)
    (matched : L -> R -> O) (unmatched : L -> O) (left : list L)
    (right : list R) (o : O) :
  In o (merge_left on matched unmatched left right) ->
  exists l, In l left
            /\ ((exists r, In r right /\ on l r = true /\ o = matched l r)
                \/ ((forall r, In r right -> on l r = false)
                    /\ o = unmatched l)).
Proof.
  unfold merge_left. rewrite in_flat_map. intros [l [Hl Ho]].
  exists l. split; [exact Hl|].
  destruct (filter (on l) right) as [|m ms] eqn:Hf.
  - right. destruct Ho as [<-|[]]. split; [|reflexivity].
    intros r Hr. destruct (on l r) eqn:Hon; [|reflexivity].
    assert (In r (filter (on l) right)) by (apply filter_In; auto).
    rewrite Hf in H. destruct H.
  - left. rewrite <- Hf in Ho. apply in_map_iff in Ho.
    destruct Ho as [r [<- Hr]]. apply filter_In in Hr.
    exists r. tauto.
Qed.

End FramesFacts.

(** * Facts about [profile/base.py] *)

Module ProfileFacts.
Import Frames Profile FramesFacts.

Lemma grouped_keys (values : list Value) :
  map fst (grouped values)
  = group_keys fav_leb fav_eqb (map value_fav values).
Proof.
  unfold grouped. rewrite map_map. simpl. apply map_id.
Qed.

Lemma grouped_In (values : list Value) (key : Z * Z * string) (c : Z) :
  In (key, c) (grouped values) <->
  In key (map value_fav values) /\ c = nunique_message_id values key.
Proof.
  unfold grouped. rewrite in_map_iff. split.
  - intros [k [Hk Hin]]. inversion Hk; subst.
    apply (group_keys_In fav_eqb fav_eqb_eq) in Hin. tauto.
  - intros [Hin ->]. exists key. split; [reflexivity|].
    now apply (group_keys_In fav_eqb fav_eqb_eq).
Qed.

Lemma grouped_count_Some (g : list (Z * Z * string * Z))
    (key : Z * Z * string) (c : Z) :
  grouped_count g key = Some c -> In (key, c) g.
Proof.
  induction g as [|[k c'] rest IH]; simpl; [discriminate|].
  destruct (fav_eqb k key) eqn:He.
  - apply fav_eqb_eq in He. subst. inversion 1. now left.
  - intros H. right. now apply IH.
Qed.



Lemma nunique_nonnegative (values : list Value) (key : Z * Z * string) :
  0 <= nunique_message_id values key.
Proof. unfold nunique_message_id. lia. Qed.


(** [tests/test_profile.py::TestUpdateFeatureCount::test_missing_values]. *)
Example test_missing_values :
  update_feature_count test_values test_features = test_expected.
Proof. reflexivity. Qed.

(** The keys of the features stay unique, as the unique constraint of the
    table has them. *)
Lemma update_feature_count_NoDup (values : list Value)
    (features : list Feature) :
  NoDup (map feature_fav features) ->
  NoDup (map feature_fav (update_feature_count values features)).
Proof.
  intros Hnd. unfold update_feature_count. rewrite map_app.
  assert (Hsame :
    map feature_fav
      (map (fun f =>
              match grouped_count (grouped values) (feature_fav f) with
              | Some c =>
                  mkFeature (feature_id f) (f_field_id f) (f_actor_id f)
                    (f_value f) (f_count f + c)
              | None => f
              end) features)
    = map feature_fav features).
  { rewrite map_map. apply map_ext. intros f.
    now destruct (grouped_count _ _). }
  rewrite Hsame.
  set (missing := filter _ (grouped values)).
  assert (Hkeys : map feature_fav
                    (map (fun kc : Z * Z * string * Z =>
                            mkFeature 0 (fst (fst (fst kc)))
                              (snd (fst (fst kc))) (snd (fst kc)) (snd kc))
                       missing)
                  = map fst missing).
  { rewrite map_map. apply map_ext. now intros [[[a b] c] d]. }
  rewrite Hkeys.
  assert (Hmnd : NoDup (map fst missing)).
  { subst missing.
    assert (Hall : NoDup (map fst (grouped values))).
    { rewrite grouped_keys. apply (group_keys_NoDup fav_eqb fav_eqb_eq). }
    revert Hall. generalize (grouped values). intros g.
    induction g as [|kc g IH]; simpl; intros Hall; [constructor|].
    inversion Hall; subst.
    destruct (negb _); simpl; [|now apply IH].
    constructor; [|now apply IH].
    intros Hin. apply in_map_iff in Hin. destruct Hin as [kc' [He Hin]].
    apply filter_In in Hin. apply H1. rewrite <- He. apply in_map. tauto. }
  apply NoDup_app; [exact Hnd | exact Hmnd |].
  intros key Hf Hin.
  apply in_map_iff in Hin. destruct Hin as [kc [He Hin]].
  subst missing. apply filter_In in Hin. destruct Hin as [_ Hn].
  apply negb_true_iff in Hn.
  apply in_map_iff in Hf. destruct Hf as [f [Hk Hf]].
  assert (existsb (fun f => fav_eqb (feature_fav f) (fst kc)) features
          = true).
  { apply existsb_exists. exists f. split; [exact Hf|].
    apply fav_eqb_eq. congruence. }
  congruence.
Qed.

End ProfileFacts.

(** * Facts about [profile/reporters.py] *)

Module ReportersFacts.
Import Frames Reporters FramesFacts.

Local Open Scope Q_scope.

Lemma Forall2_map_In {A B : Type} (P : A -> B -> Prop) (g : A -> B)
    (l : list A) :
  (forall x, In x l -> P x (g x)) -> Forall2 P l (map g l).
Proof.
  induction l as [|x rest IH]; intros H; simpl; constructor.
  - apply H. now left.
  - apply IH. intros y Hy. apply H. now right.
Qed.

Lemma Qlt_bool_iff (x y : Q) : Qlt_bool x y = true <-> x < y.
Proof.
  unfold Qlt_bool. rewrite negb_true_iff. split.
  - intros H. apply Qnot_le_lt. intros Hle.
    apply Qle_bool_iff in Hle. congruence.
  - intros H. destruct (Qle_bool y x) eqn:Hb; [|reflexivity].
    apply Qle_bool_iff in Hb. exfalso. exact (Qlt_not_le _ _ H Hb).
Qed.

Lemma Qeq_bool_false (x y : Q) : Qeq_bool x y = false <-> ~ x == y.
Proof.
  split.
  - intros H He. apply Qeq_bool_iff in He. congruence.
  - intros H. destruct (Qeq_bool x y) eqn:Hb; [|reflexivity].
    apply Qeq_bool_iff in Hb. contradiction.
Qed.

(** The two masked assignments of [Mandatory] are the three cases of the
    specification. *)
Lemma Mandatory_set_score_spec (weight : Q) (r : Row) :
  score (Mandatory_set_score weight r)
  == Mandatory_score_spec weight (row_value r) (count r) (mean r) (total r).
Proof.
  unfold Mandatory_set_score, Mandatory_score_spec, Qlt_bool. simpl.
  destruct (String.eqb (row_value r) EmptyString || Qeq_bool (count r) 0).
  - rewrite andb_false_r. apply Qmult_comm.
  - simpl. rewrite andb_true_r.
    destruct (Qle_bool (mean r) (count r)); simpl; apply Qmult_comm.
Qed.

(** ** The optional reporter *)

Lemma enumerate_from_In {A : Type} (l : list A) (j i : Z) (x : A) :
  In (i, x) (enumerate_from j l) -> In x l /\ (j <= i)%Z.
Proof.
  revert j. induction l as [|y rest IH]; intros j; simpl; [tauto|].
  intros [H|H].
  - inversion H; subst. split; [now left | lia].
  - apply IH in H. split; [tauto | lia].
Qed.

Lemma index_of_first_le {A : Type} (p : A -> bool) (l : list A) (j i : Z)
    (x : A) :
  In (i, x) (enumerate_from j l) -> p x = true ->
  exists first, index_of_first p j l = Some first /\ (j <= first <= i)%Z.
Proof.
  revert j. induction l as [|y rest IH]; intros j; simpl; [tauto|].
  intros [H|H] Hp.
  - inversion H; subst. rewrite Hp. exists i. split; [reflexivity | lia].
  - destruct (p y).
    + exists j. apply enumerate_from_In in H. split; [reflexivity | lia].
    + destruct (IH _ H Hp) as [first [Hf Hle]].
      exists first. split; [exact Hf | lia].
Qed.

Lemma same_actor_value_refl (r : Row) : same_actor_value r r = true.
Proof.
  unfold same_actor_value. now rewrite Z.eqb_refl, String.eqb_refl.
Qed.

Lemma same_actor_refl (r : Row) : same_actor r r = true.
Proof. unfold same_actor. apply Z.eqb_refl. Qed.

Lemma index_minus_first_nonneg (same : Row -> Row -> bool) (df : list Row)
    (ir : Z * Row) :
  (forall r, same r r = true) ->
  In ir (reset_index df) -> 0 <= index_minus_first same df ir.
Proof.
  intros Hrefl Hin. unfold index_minus_first. destruct ir as [i r].
  destruct (index_of_first_le (same r) df 0%Z i r Hin (Hrefl r))
    as [first [Hf Hle]].
  simpl. rewrite Hf.
  change 0 with (inject_Z 0). rewrite <- Zle_Qle. lia.
Qed.

(** [increment_count] keeps the rows and only adds to [count]. *)
Lemma increment_count_In (df : list Row) (r' : Row) :
  In r' (increment_count df) ->
  exists r, In r df /\ row r' = row r /\ total r' = total r
            /\ null_count r' = null_count r /\ count r <= count r'.
Proof.
  unfold increment_count. rewrite in_map_iff. intros [[i r] [<- Hin]].
  exists r. simpl. split.
  - apply enumerate_from_In in Hin. destruct Hin as [Hin _].
    now apply sort_values_In in Hin.
  - repeat split; try reflexivity.
    rewrite <- (Qplus_0_r (count r)) at 1.
    apply Qplus_le_r.
    apply (index_minus_first_nonneg same_actor_value _ (i, r));
      [exact same_actor_value_refl | exact Hin].
Qed.

Lemma increment_total_In (df : list Row) (r' : Row) :
  In r' (increment_total df) ->
  exists r, In r df /\ row r' = row r /\ count r' = count r.
Proof.
  unfold increment_total. rewrite in_map_iff. intros [[i r] [<- Hin]].
  exists r. simpl. split; [|split; reflexivity].
  apply enumerate_from_In in Hin. destruct Hin as [Hin _].
  now apply sort_values_In in Hin.
Qed.

Lemma update_count_from_In (df : list Row) (section counter : Z) (r' : Row) :
  In r' (update_count_from section counter df) ->
  exists r, In r df /\ row r' = row r /\ count r' = count r.
Proof.
  revert section counter. induction df as [|x rest IH];
    intros section counter; simpl; [tauto|].
  intros [H|H].
  - exists x. split; [now left|]. subst r'.
    destruct (negb (_ =? 0)%Z); split; reflexivity.
  - destruct (IH _ _ H) as [r [Hin Hr]]. exists r. split; [now right | exact Hr].
Qed.

Lemma merge_fav_count (df : list Row) (features : list Feature) (r' : Row) :
  (forall f, In f features -> (0 <= f_count f)%Z) ->
  In r' (merge_fav df features) -> 0 <= count r'.
Proof.
  intros Hpos Hin. unfold merge_fav in Hin.
  apply merge_left_unique in Hin.
  destruct Hin as [l [_ [[f [Hf [_ ->]]]|[_ ->]]]]; simpl.
  - change 0 with (inject_Z 0). rewrite <- Zle_Qle. now apply Hpos.
  - apply Qle_refl.
Qed.

(** The counts of the working frame of [Optional] are not negative when
    the counts of the features are not. *)
Lemma Optional_frame_count (values : list Value) (features : list Feature)
    (r : Row) :
  (forall f, In f features -> (0 <= f_count f)%Z) ->
  In r (Optional_frame values features) -> 0 <= count r.
Proof.
  intros Hpos Hin. unfold Optional_frame in Hin.
  apply increment_count_In in Hin.
  destruct Hin as [r1 [Hin [_ [_ [_ Hle]]]]].
  apply update_count_from_In in Hin. destruct Hin as [r2 [Hin [_ H2]]].
  apply increment_total_In in Hin. destruct Hin as [r3 [Hin [_ H3]]].
  apply (merge_fav_count _ _ _ Hpos) in Hin.
  eapply Qle_trans; [|exact Hle]. now rewrite H2, H3.
Qed.

Lemma Optional_set_score_spec (weight : Q) (r : Row) :
  0 <= count r ->
  score (Optional_set_score weight r)
  == Optional_score_spec weight (row_value r) (count r) (total r)
       (null_count r).
Proof.
  intros Hpos. unfold Optional_set_score, Optional_score_spec. simpl.
  destruct (String.eqb (row_value r) EmptyString); simpl.
  - apply Qmult_0_l.
  - destruct (Qlt_bool 0 (count r)) eqn:Hlt.
    + apply Qlt_bool_iff in Hlt.
      assert (Hz : Qeq_bool (count r) 0 = false).
      { apply Qeq_bool_false. intros He. rewrite He in Hlt.
        exact (Qlt_irrefl _ Hlt). }
      rewrite Hz. simpl. apply Qmult_comm.
    + assert (Hz : Qeq_bool (count r) 0 = true).
      { apply Qeq_bool_iff. apply Qle_antisym; [|exact Hpos].
        apply Qnot_lt_le. intros H. apply Qlt_bool_iff in H. congruence. }
      rewrite Hz. simpl.
      destruct (Qeq_bool (total r) 0); simpl; apply Qmult_comm.
Qed.

Example Optional_scenarios :
  map (fun out => (value (s_row out), Qred (s_score out)))
    (Optional_call 1
       (drift_values ++ [mkValue 1 13 4 1 1 EmptyString]) optional_features)
  = [(EmptyString, 0); (quoted "goodbye", 2 # 3); (quoted "hello", 0);
     (quoted "hello", 0)]
  /\ map s_score
       (Optional_call 1 [mkValue 1 10 1 1 1 (quoted "hello")] []) = [1].
Proof. split; vm_compute; reflexivity. Qed.

(** ** The groups of the mandatory reporter *)

Lemma update_groups_from_app (pre post : list Row) (section counter : Z) :
  update_groups_from section counter (pre ++ post)
  = update_groups_from section counter pre
    ++ update_groups_from (fst (groups_state section counter pre))
         (snd (groups_state section counter pre)) post.
Proof.
  revert section counter. induction pre as [|x rest IH];
    intros section counter; simpl; [reflexivity|].
  now rewrite IH.
Qed.

Lemma groups_state_app (pre : list Row) (y : Row) (section counter : Z) :
  groups_state section counter (pre ++ [y])
  = groups_state (fst (groups_state section counter pre))
      (snd (groups_state section counter pre)) [y].
Proof.
  revert section counter. induction pre as [|x rest IH];
    intros section counter; simpl; [reflexivity|].
  now rewrite IH.
Qed.

(** The counter a row of actor [actor] meets after the rows [pre]: the
    zero counts of the rows of its actor that come just before it. *)
Lemma groups_state_zeros (pre : list Row) (actor : Z) :
  (if negb (actor =? fst (groups_state (-1) 0 pre))%Z then 0%Z
   else snd (groups_state (-1) 0 pre))
  = zeros_in_run actor (rev pre).
Proof.
  revert actor. induction pre as [|y pre IH] using rev_ind; intros actor.
  - simpl. now destruct (negb _).
  - rewrite rev_unit, groups_state_app. simpl.
    specialize (IH (row_actor y)).
    destruct (groups_state (-1) 0 pre) as [s c]. simpl in *.
    assert (Hs : (if negb (row_actor y =? s)%Z then row_actor y else s)
                 = row_actor y).
    { destruct (row_actor y =? s)%Z eqn:He; simpl; [|reflexivity].
      apply Z.eqb_eq in He. now subst. }
    rewrite Hs. rewrite (Z.eqb_sym actor (row_actor y)).
    destruct (row_actor y =? actor)%Z eqn:Ha; simpl; [|reflexivity].
    apply Z.eqb_eq in Ha. subst actor.
    rewrite <- IH. destruct (Qeq_bool (count y) 0); lia.
Qed.

Lemma update_groups_from_length (df : list Row) (section counter : Z) :
  List.length (update_groups_from section counter df) = List.length df.
Proof.
  revert section counter. induction df as [|x rest IH];
    intros section counter; simpl; [reflexivity|].
  now rewrite IH.
Qed.

(** [_update_groups] on any frame: the row after the rows [pre] gets its
    [groups] plus the zero counts of the rows of its actor that come just
    before it. *)
Lemma update_groups_run :
  forall (pre post : list Row) (x : Row),
    exists (x' : Row) (post' : list Row),
      update_groups (pre ++ x :: post) = update_groups pre ++ x' :: post'
      /\ List.length (update_groups pre) = List.length pre
      /\ row x' = row x /\ count x' = count x /\ total x' = total x
      /\ mean x' = mean x /\ previous_mean x' = previous_mean x
      /\ groups x'
         == groups x + inject_Z (zeros_in_run (row_actor x) (rev pre)).
Proof.
  intros pre post x. unfold update_groups.
  rewrite update_groups_from_app. simpl.
  eexists. eexists. split; [reflexivity|].
  split; [apply update_groups_from_length|].
  pose proof (groups_state_zeros pre (row_actor x)) as Hz.
  rewrite Hz.
  destruct (zeros_in_run (row_actor x) (rev pre) =? 0)%Z eqn:He; simpl.
  - apply Z.eqb_eq in He. rewrite He.
    repeat split; try reflexivity. symmetry. apply Qplus_0_r.
  - repeat split; reflexivity.
Qed.

(** The frame handed to [_update_groups] is sorted by actor. *)
Lemma insert_sorted_In (leb : Row -> Row -> bool) (x y : Row) (l : list Row) :
  In y (insert_sorted leb x l) <-> y = x \/ In y l.
Proof.
  split.
  - intros H. apply (Permutation_in _ (insert_sorted_perm leb x l)) in H.
    destruct H; [left; congruence | now right].
  - intros H.
    apply (Permutation_in _ (Permutation_sym (insert_sorted_perm leb x l))).
    destruct H; [left; congruence | now right].
Qed.

Lemma insert_sorted_actor_le (x : Row) (l : list Row) :
  StronglySorted actor_le l ->
  StronglySorted actor_le (insert_sorted actor_timestamp_leb x l).
Proof.
  induction l as [|y rest IH]; intros Hs; simpl.
  - repeat constructor.
  - apply StronglySorted_inv in Hs. destruct Hs as [Hrest Hall].
    destruct (actor_timestamp_leb x y) eqn:Hle.
    + assert (Hxy : actor_le x y).
      { unfold actor_timestamp_leb in Hle. unfold actor_le.
        apply orb_true_iff in Hle. destruct Hle as [H|H].
        - apply Z.ltb_lt in H. lia.
        - apply andb_true_iff in H. destruct H as [H _].
          apply Z.eqb_eq in H. lia. }
      constructor; [now constructor|]. constructor; [exact Hxy|].
      rewrite Forall_forall in *. intros z Hz. specialize (Hall z Hz).
      unfold actor_le in *. lia.
    + assert (Hyx : actor_le y x).
      { unfold actor_timestamp_leb in Hle. unfold actor_le.
        apply orb_false_iff in Hle. destruct Hle as [H _].
        apply Z.ltb_ge in H. exact H. }
      constructor; [now apply IH|].
      rewrite Forall_forall in *. intros z Hz.
      apply insert_sorted_In in Hz. destruct Hz as [->|Hz]; [exact Hyx|].
      now apply Hall.
Qed.

Lemma sort_values_actor_le (df : list Row) :
  StronglySorted actor_le (sort_values actor_timestamp_leb df).
Proof.
  induction df as [|x rest IH]; simpl; [constructor|].
  now apply insert_sorted_actor_le.
Qed.

Lemma enumerate_map_actor_le (g : Z * Row -> Row) (df : list Row) (j : Z) :
  (forall ir, row_actor (g ir) = row_actor (snd ir)) ->
  StronglySorted actor_le df ->
  StronglySorted actor_le (map g (enumerate_from j df)).
Proof.
  intros Hg. revert j. induction df as [|x rest IH]; intros j Hs; simpl;
    [constructor|].
  apply StronglySorted_inv in Hs. destruct Hs as [Hrest Hall].
  constructor; [now apply IH|].
  rewrite Forall_forall in *. intros z Hz. apply in_map_iff in Hz.
  destruct Hz as [[i r] [<- Hin]]. apply enumerate_from_In in Hin.
  unfold actor_le. rewrite !Hg. simpl. apply Hall. tauto.
Qed.

Lemma Mandatory_before_groups_sorted (values : list Value)
    (features : list Feature) :
  StronglySorted actor_le (Mandatory_before_groups values features).
Proof.
  unfold Mandatory_before_groups, increment_total, reset_index.
  apply enumerate_map_actor_le; [reflexivity|].
  apply sort_values_actor_le.
Qed.

Lemma sorted_before (pre post : list Row) (x : Row) :
  StronglySorted actor_le (pre ++ x :: post) ->
  StronglySorted actor_le pre /\ forall y, In y pre -> actor_le y x.
Proof.
  induction pre as [|a rest IH]; simpl; intros Hs.
  - split; [constructor | tauto].
  - apply StronglySorted_inv in Hs. destruct Hs as [Hrest Hall].
    destruct (IH Hrest) as [Hs' Hb]. split.
    + constructor; [exact Hs'|]. rewrite Forall_forall in *.
      intros z Hz. apply Hall. apply in_app_iff. now left.
    + intros y [<-|Hy]; [|now apply Hb].
      rewrite Forall_forall in Hall. apply Hall. apply in_app_iff.
      right. now left.
Qed.

(** In a frame sorted by actor the rows of an actor are in one run: the
    zero counts just before a row are those of all earlier rows of its
    actor. *)
Lemma zeros_in_run_sorted (pre : list Row) (actor : Z) :
  StronglySorted actor_le pre ->
  (forall y, In y pre -> (row_actor y <= actor)%Z) ->
  zeros_in_run actor (rev pre)
  = Z.of_nat
      (List.length
         (filter (fun y => (row_actor y =? actor)%Z && Qeq_bool (count y) 0)
            pre)).
Proof.
  induction pre as [|y pre IH] using rev_ind; intros Hs Hb; [reflexivity|].
  rewrite rev_unit, filter_app, length_app. simpl.
  assert (Hsplit : StronglySorted actor_le pre
                   /\ forall z, In z pre -> actor_le z y).
  { apply (sorted_before pre [] y Hs). }
  destruct Hsplit as [Hpre Hzy].
  destruct (row_actor y =? actor)%Z eqn:Ha; simpl.
  - apply Z.eqb_eq in Ha. rewrite IH.
    + destruct (Qeq_bool (count y) 0); cbn [List.length]; lia.
    + exact Hpre.
    + intros z Hz. specialize (Hzy z Hz). unfold actor_le in Hzy. lia.
  - apply Z.eqb_neq in Ha.
    assert (Hy : (row_actor y <= actor)%Z).
    { apply Hb. apply in_app_iff. right. now left. }
    assert (Hnone : filter
                      (fun y0 => (row_actor y0 =? actor)%Z
                                 && Qeq_bool (count y0) 0) pre = []).
    { clear IH Hs Hb Hpre. induction pre as [|z rest IHr]; [reflexivity|].
      simpl. assert (Hz : actor_le z y) by (apply Hzy; now left).
      unfold actor_le in Hz.
      destruct (row_actor z =? actor)%Z eqn:Hza.
      - apply Z.eqb_eq in Hza. lia.
      - simpl. apply IHr. intros w Hw. apply Hzy. now right. }
    rewrite Hnone. reflexivity.
Qed.

(** C4, as the code has it. In the frame [Mandatory.__call__] hands to
    [_update_groups], which is sorted by actor, every row keeps its place
    and its columns except [groups]: the row after the rows [pre] gets
    its [groups] plus the number of rows of its actor in [pre] with
    [count == 0]. So a value that appears for the first time adds 1 to
    the [groups] of every later row of its actor partition and not to
    its own row; the mean and the score are set on the result. *)
Theorem groups_count_earlier_new_values :
  forall (values : list Value) (features : list Feature)
         (pre post : list Row) (x : Row),
    Mandatory_before_groups values features = pre ++ x :: post ->
    exists (x' : Row) (post' : list Row),
      update_groups (pre ++ x :: post) = update_groups pre ++ x' :: post'
      /\ List.length (update_groups pre) = List.length pre
      /\ row x' = row x /\ count x' = count x /\ total x' = total x
      /\ groups x' == groups x + inject_Z (new_values_before x pre)
      /\ Mandatory_frame values features
         = map set_mean (update_groups pre ++ x' :: post').
Proof.
  intros values features pre post x Hframe.
  destruct (update_groups_run pre post x)
    as [x' [post' [Hu [Hlen [Hr [Hc [Ht [_ [_ Hg]]]]]]]]].
  exists x', post'.
  split; [exact Hu|]. split; [exact Hlen|]. split; [exact Hr|].
  split; [exact Hc|]. split; [exact Ht|]. split.
  - rewrite Hg. unfold new_values_before.
    pose proof (Mandatory_before_groups_sorted values features) as Hs.
    rewrite Hframe in Hs. destruct (sorted_before pre post x Hs) as [Hp Hb].
    rewrite (zeros_in_run_sorted pre (row_actor x) Hp Hb). reflexivity.
  - unfold Mandatory_frame. now rewrite Hframe, Hu.
Qed.

Lemma groups_count_earlier_new_values_witness :
  drift_frame
  = firstn 1 drift_frame ++ nth 1 drift_frame null_row :: skipn 2 drift_frame
  /\ exists (x' : Row) (post' : list Row),
       update_groups
         (firstn 1 drift_frame
          ++ nth 1 drift_frame null_row :: skipn 2 drift_frame)
       = update_groups (firstn 1 drift_frame) ++ x' :: post'
       /\ List.length (update_groups (firstn 1 drift_frame))
          = List.length (firstn 1 drift_frame)
       /\ row x' = row (nth 1 drift_frame null_row)
       /\ count x' = count (nth 1 drift_frame null_row)
       /\ total x' = total (nth 1 drift_frame null_row)
       /\ groups x'
          == groups (nth 1 drift_frame null_row)
             + inject_Z
                 (new_values_before (nth 1 drift_frame null_row)
                    (firstn 1 drift_frame))
       /\ Mandatory_frame drift_values drift_features
          = map set_mean
              (update_groups (firstn 1 drift_frame) ++ x' :: post').
Proof.
  assert (H : Mandatory_before_groups drift_values drift_features
              = firstn 1 drift_frame
                ++ nth 1 drift_frame null_row :: skipn 2 drift_frame).
  { vm_compute. reflexivity. }
  split; [exact H|].
  exact (groups_count_earlier_new_values drift_values drift_features
           (firstn 1 drift_frame) (skipn 2 drift_frame)
           (nth 1 drift_frame null_row) H).
Defined.

(** The claim as it is worded fails in the drift scenario: the first
    ["goodbye"] of the batch has [count == 0], one value is recorded for
    its actor, and [_update_groups] leaves its [groups] at 1, not 2. Only
    the two rows after it get 2. *)
Lemma groups_unchanged_at_first_appearance :
  exists x x' : Row,
    nth_error (Mandatory_before_groups drift_values drift_features) 0
    = Some x
    /\ nth_error
         (update_groups (Mandatory_before_groups drift_values drift_features))
         0
       = Some x'
    /\ value (row x) = quoted "goodbye"
    /\ count x == 0
    /\ groups x == 1
    /\ groups x' == groups x
    /\ ~ groups x' == groups x + 1
    /\ map (fun r => (value (row r), Qred (count r), Qred (groups r)))
         (update_groups (Mandatory_before_groups drift_values drift_features))
       = [(quoted "goodbye", 0, 1); (quoted "hello", 100, 2);
          (quoted "hello", 101, 2)].
Proof.
  eexists. eexists.
  split; [vm_compute; reflexivity|].
  split; [vm_compute; reflexivity|].
  split; [vm_compute; reflexivity|].
  split; [vm_compute; reflexivity|].
  split; [vm_compute; reflexivity|].
  split; [vm_compute; reflexivity|].
  split; [|vm_compute; reflexivity].
  intros H. vm_compute in H. discriminate H.
Qed.

(** ** Counts and totals of the mandatory reporter *)

Lemma Qsum_nonneg (l : list Q) :
  (forall q, In q l -> 0 <= q) -> 0 <= Qsum l.
Proof.
  induction l as [|a rest IH]; intros H; simpl; [apply Qle_refl|].
  rewrite <- (Qplus_0_r 0). apply Qplus_le_compat.
  - apply H. now left.
  - apply IH. intros q Hq. apply H. now right.
Qed.

Lemma Qsum_member (l : list Q) (q : Q) :
  (forall q, In q l -> 0 <= q) -> In q l -> q <= Qsum l.
Proof.
  induction l as [|a rest IH]; intros H Hin; [destruct Hin|]. simpl.
  assert (Ha : 0 <= a) by (apply H; now left).
  assert (Hrest : 0 <= Qsum rest)
    by (apply Qsum_nonneg; intros q' Hq'; apply H; now right).
  destruct Hin as [->|Hin].
  - rewrite <- (Qplus_0_r q) at 1. now apply Qplus_le_compat; [apply Qle_refl|].
  - rewrite <- (Qplus_0_l q). apply Qplus_le_compat; [exact Ha|].
    apply IH; [|exact Hin]. intros q' Hq'. apply H. now right.
Qed.

Lemma counts_of_nonneg (features : list Feature) :
  (forall f, In f features -> (0 <= f_count f)%Z) ->
  forall q, In q (counts_of features) -> 0 <= q.
Proof.
  intros H q Hq. unfold counts_of in Hq. apply in_map_iff in Hq.
  destruct Hq as [f [<- Hf]]. change 0 with (inject_Z 0).
  rewrite <- Zle_Qle. now apply H.
Qed.

(** After the merges a count is between 0 and the total of its key. *)
Lemma merged_count_le_total (values : list Value) (features : list Feature)
    (r : Row) :
  (forall f, In f features -> (0 <= f_count f)%Z) ->
  In r (merge_fav
          (merge_fa values
             (feature_fa_agg (matching_features values features)))
          features) ->
  0 <= count r /\ count r <= total r.
Proof.
  intros Hpos Hin.
  set (matching := matching_features values features) in *.
  assert (Hmatching : forall f, In f matching -> (0 <= f_count f)%Z).
  { intros f Hf. apply Hpos. unfold matching, matching_features in Hf.
    now apply filter_In in Hf. }
  unfold merge_fav in Hin. apply merge_left_unique in Hin.
  destruct Hin as [l [Hl Hcase]].
  unfold merge_fa in Hl. apply merge_left_unique in Hl.
  destruct Hl as [v [Hv Hfa]].
  assert (Htotal : 0 <= total l).
  { destruct Hfa as [[a [Ha [_ ->]]]|[_ ->]]; simpl; [|apply Qle_refl].
    unfold feature_fa_agg in Ha. apply in_map_iff in Ha.
    destruct Ha as [key [<- _]]. simpl. apply Qsum_nonneg.
    apply counts_of_nonneg. intros f Hf. apply Hmatching.
    unfold fa_group in Hf. now apply filter_In in Hf. }
  destruct Hcase as [[f [Hf [Hon ->]]]|[_ ->]]; simpl;
    [|split; [apply Qle_refl | exact Htotal]].
  split.
  { change 0 with (inject_Z 0). rewrite <- Zle_Qle. now apply Hpos. }
  apply fav_eqb_eq in Hon.
  assert (Hrow : row l = v).
  { destruct Hfa as [[a [_ [_ ->]]]|[_ ->]]; reflexivity. }
  rewrite Hrow in Hon.
  assert (Hkey : feature_fa f = value_fa v).
  { unfold feature_fa, value_fa. unfold value_fav, feature_fav in Hon.
    now inversion Hon. }
  assert (Hfm : In f matching).
  { unfold matching, matching_features. apply filter_In. split; [exact Hf|].
    apply (existsb_eqb fa_eqb fa_eqb_eq). unfold unique_fa.
    apply (drop_duplicates_In fa_eqb fa_eqb_eq). rewrite Hkey.
    now apply in_map. }
  destruct Hfa as [[a [Ha [Hona ->]]]|[Hnone _]]; simpl.
  - apply fa_eqb_eq in Hona. unfold feature_fa_agg in Ha.
    apply in_map_iff in Ha. destruct Ha as [key [<- _]]. simpl in *.
    subst key. apply Qsum_member.
    + apply counts_of_nonneg. intros f' Hf'. apply Hmatching.
      unfold fa_group in Hf'. now apply filter_In in Hf'.
    + unfold counts_of. apply in_map_iff. exists f. split; [reflexivity|].
      unfold fa_group. apply filter_In. split; [exact Hfm|].
      now apply fa_eqb_eq.
  - exfalso.
    assert (Hagg : In (mkFaAgg (value_fa v)
                         (inject_Z (Z.of_nat
                            (List.length (fa_group matching (value_fa v)))))
                         (Qsum (counts_of (fa_group matching (value_fa v))))
                         (Qsum (counts_of (fa_group matching (value_fa v)))
                          / inject_Z (Z.of_nat
                              (List.length
                                 (fa_group matching (value_fa v))))))
                      (feature_fa_agg matching)).
    { unfold feature_fa_agg. apply in_map_iff. exists (value_fa v).
      split; [reflexivity|].
      apply (group_keys_In fa_eqb fa_eqb_eq). rewrite <- Hkey.
      now apply in_map. }
    specialize (Hnone _ Hagg). simpl in Hnone.
    assert (fa_eqb (value_fa v) (value_fa v) = true) by now apply fa_eqb_eq.
    congruence.
Qed.

(** ** Ranks within a batch *)

Lemma earlier_app (x : Row) (a b : list Row) :
  earlier_same_actor x (a ++ b)
  = (earlier_same_actor x a + earlier_same_actor x b)%Z.
Proof.
  unfold earlier_same_actor. rewrite filter_app, length_app. lia.
Qed.

Lemma earlier_nonneg (x : Row) (a : list Row) :
  (0 <= earlier_same_actor x a)%Z.
Proof. unfold earlier_same_actor. lia. Qed.

Lemma earlier_not_before (x y : Row) :
  actor_timestamp_leb x y = false -> earlier_same_actor y [x] = 0%Z.
Proof.
  unfold actor_timestamp_leb, earlier_same_actor. simpl. intros H.
  apply orb_false_iff in H. destruct H as [H1 H2].
  destruct (row_actor x =? row_actor y)%Z; simpl in *; [|reflexivity].
  now rewrite H2.
Qed.

Lemma ranked_weaken (x : Row) (k k' : Z) :
  (k <= k')%Z ->
  count x - total x <= inject_Z k -> count x - total x <= inject_Z k'.
Proof.
  intros Hk H. eapply Qle_trans; [exact H|]. now rewrite <- Zle_Qle.
Qed.

Lemma ranked_insert (S : list Row) :
  forall (E : list Row) (x : Row),
    ranked (E ++ [x]) S ->
    count x - total x <= inject_Z (earlier_same_actor x E) ->
    ranked E (insert_sorted actor_timestamp_leb x S).
Proof.
  induction S as [|y rest IH]; intros E x HS Hx; simpl.
  - intros pre z post Hsplit.
    destruct pre as [|a pre]; simpl in Hsplit.
    + inversion Hsplit; subst. now rewrite app_nil_r.
    + inversion Hsplit as [[Ha Hrest]]. now destruct pre.
  - destruct (actor_timestamp_leb x y) eqn:Hle.
    + intros pre z post Hsplit.
      destruct pre as [|a pre]; simpl in Hsplit.
      * inversion Hsplit; subst. now rewrite app_nil_r.
      * inversion Hsplit as [[Ha Hrest]]. subst a.
        specialize (HS pre z post Hrest).
        now rewrite <- app_assoc in HS.
    + intros pre z post Hsplit.
      destruct pre as [|a pre]; simpl in Hsplit.
      * inversion Hsplit as [[Hz Hrest]]. subst z.
        specialize (HS [] y rest eq_refl).
        rewrite !app_nil_r in *. rewrite earlier_app in HS.
        rewrite (earlier_not_before x y Hle) in HS.
        now rewrite Z.add_0_r in HS.
      * inversion Hsplit as [[Ha Hrest]]. subst a.
        assert (Hrank : ranked ((E ++ [y]) ++ [x]) rest).
        { intros pre' z' post' Hs'.
          specialize (HS (y :: pre') z' post').
          simpl in HS. rewrite Hs' in HS. specialize (HS eq_refl).
          eapply ranked_weaken; [|exact HS].
          rewrite !earlier_app. simpl.
          change (y :: pre') with ([y] ++ pre'). rewrite earlier_app. lia. }
        assert (Hx' : count x - total x
                      <= inject_Z (earlier_same_actor x (E ++ [y]))).
        { eapply ranked_weaken; [|exact Hx].
          rewrite earlier_app. pose proof (earlier_nonneg x [y]). lia. }
        specialize (IH (E ++ [y]) x Hrank Hx' pre z post Hrest).
        now rewrite <- app_assoc in IH.
Qed.

Lemma ranked_sort (df : list Row) :
  forall E : list Row,
    ranked E df -> ranked E (sort_values actor_timestamp_leb df).
Proof.
  induction df as [|x rest IH]; intros E H; simpl; [exact H|].
  apply ranked_insert.
  - apply IH. intros pre z post Hsplit.
    specialize (H (x :: pre) z post). simpl in H. rewrite Hsplit in H.
    specialize (H eq_refl). now rewrite <- app_assoc.
  - specialize (H [] x rest eq_refl). now rewrite app_nil_r in H.
Qed.

(** ** The order of [increment_count] *)

Lemma ltb_lt (a b : string) :
  String.ltb a b = true -> String_as_OT.lt a b.
Proof.
  unfold String.ltb. intros H. apply String_as_OT.cmp_lt.
  unfold String_as_OT.cmp. now destruct (String.compare a b).
Qed.

Lemma lt_irrefl (a : string) : ~ String_as_OT.lt a a.
Proof. intros H. now apply (String_as_OT.lt_not_eq _ _ H). Qed.

Lemma leb_key_le (x y : Row) :
  actor_value_timestamp_leb x y = true -> key_le x y.
Proof.
  unfold actor_value_timestamp_leb, key_le. intros H.
  apply orb_true_iff in H. destruct H as [H|H].
  - left. now apply Z.ltb_lt.
  - right. apply andb_true_iff in H. destruct H as [Ha H].
    apply Z.eqb_eq in Ha. split; [exact Ha|].
    apply orb_true_iff in H. destruct H as [H|H].
    + left. now apply ltb_lt.
    + right. apply andb_true_iff in H. destruct H as [Hv Ht].
      apply String.eqb_eq in Hv. apply Z.leb_le in Ht. tauto.
Qed.

Lemma leb_key_le_total (x y : Row) :
  actor_value_timestamp_leb x y = false -> key_le y x.
Proof.
  unfold actor_value_timestamp_leb, key_le. intros H.
  apply orb_false_iff in H. destruct H as [Hlt H].
  apply Z.ltb_ge in Hlt.
  destruct (row_actor x =? row_actor y)%Z eqn:Ha; simpl in H.
  - apply Z.eqb_eq in Ha. right. split; [now symmetry|].
    apply orb_false_iff in H. destruct H as [Hl H].
    unfold String.ltb in Hl.
    destruct (String.compare (row_value x) (row_value y)) eqn:Hc;
      try discriminate.
    + apply String.compare_eq_iff in Hc. right. split; [now symmetry|].
      rewrite Hc, String.eqb_refl in H. simpl in H.
      apply Z.leb_gt in H. lia.
    + left. apply String_as_OT.cmp_lt. unfold String_as_OT.cmp.
      rewrite String.compare_antisym, Hc. reflexivity.
  - apply Z.eqb_neq in Ha. left. lia.
Qed.

Lemma key_le_trans (x y z : Row) : key_le x y -> key_le y z -> key_le x z.
Proof.
  unfold key_le.
  intros [H1|[Ha1 H1]] [H2|[Ha2 H2]]; try (left; lia).
  right. split; [congruence|].
  destruct H1 as [H1|[Hv1 Ht1]], H2 as [H2|[Hv2 Ht2]].
  - left. now apply (String_as_OT.lt_trans _ (row_value y)).
  - left. now rewrite <- Hv2.
  - left. now rewrite Hv1.
  - right. split; [congruence | lia].
Qed.

(** Between two rows of one actor and value a sorted frame has rows of
    that actor only, none later than the second one. *)
Lemma key_le_between (a y x : Row) :
  key_le a y -> key_le y x -> same_actor_value x a = true ->
  row_actor y = row_actor x
  /\ (row_timestamp y <= row_timestamp x)%Z.
Proof.
  unfold key_le, same_actor_value. intros Hay Hyx Hs.
  apply andb_true_iff in Hs. destruct Hs as [Ha Hv].
  apply Z.eqb_eq in Ha. apply String.eqb_eq in Hv.
  destruct Hay as [H1|[Ha1 H1]], Hyx as [H2|[Ha2 H2]]; try lia.
  split; [exact Ha2|].
  destruct H2 as [H2|[_ Ht]]; [|exact Ht].
  exfalso. rewrite Hv in H2.
  destruct H1 as [H1|[Hv1 _]].
  - apply (lt_irrefl (row_value a)).
    now apply (String_as_OT.lt_trans _ (row_value y)).
  - rewrite Hv1 in H2. now apply (lt_irrefl (row_value y)).
Qed.

Lemma key_le_refl (a : Row) : key_le a a.
Proof. unfold key_le. right. split; [reflexivity|]. right. split; [reflexivity | lia]. Qed.

Lemma increment_count_sorted (df : list Row) :
  StronglySorted key_le (sort_values actor_value_timestamp_leb df).
Proof.
  apply (sort_values_ordered actor_value_timestamp_leb key_le).
  - exact leb_key_le.
  - exact leb_key_le_total.
  - exact key_le_trans.
Qed.

(** The rank of a row in its group of [(actor_id, value)] is at most the
    number of earlier rows of its actor before it. *)
Lemma rank_le_earlier (x : Row) (pre post : list Row) (j : Z) :
  StronglySorted key_le (pre ++ x :: post) ->
  exists first,
    index_of_first (same_actor_value x) j (pre ++ x :: post) = Some first
    /\ (j + Z.of_nat (List.length pre) - first
        <= earlier_same_actor x pre)%Z.
Proof.
  revert j. induction pre as [|a rest IH]; intros j Hs; simpl.
  - rewrite same_actor_value_refl. exists j. split; [reflexivity|].
    pose proof (earlier_nonneg x []). lia.
  - destruct (same_actor_value x a) eqn:Ha.
    + exists j. split; [reflexivity|].
      assert (Hall : forall y, In y (a :: rest) ->
                 ((row_actor y =? row_actor x)
                  && (row_timestamp y <=? row_timestamp x))%Z = true).
      { change (a :: rest ++ x :: post) with ((a :: rest) ++ x :: post) in Hs.
        destruct (sorted_split key_le _ _ _ Hs) as [Hpre [_ Hbefore]].
        apply StronglySorted_inv in Hpre. destruct Hpre as [_ Hafter].
        rewrite Forall_forall in Hafter.
        intros y Hy.
        assert (Hay : key_le a y).
        { destruct Hy as [<-|Hy]; [apply key_le_refl | now apply Hafter]. }
        destruct (key_le_between a y x Hay (Hbefore y Hy) Ha) as [H1 H2].
        apply andb_true_iff. split; [now apply Z.eqb_eq | now apply Z.leb_le]. }
      unfold earlier_same_actor. rewrite (filter_all _ _ Hall).
      simpl List.length. lia.
    + apply StronglySorted_inv in Hs. destruct Hs as [Hs _].
      destruct (IH (j + 1)%Z Hs) as [first [Hf Hle]]. exists first.
      split; [exact Hf|].
      change (a :: rest) with ([a] ++ rest). rewrite earlier_app.
      pose proof (earlier_nonneg x [a]). simpl List.length. lia.
Qed.

Lemma map_enumerate_split (g : Z * Row -> Row) (S : list Row) :
  forall (j : Z) (pre' post' : list Row) (x' : Row),
    map g (enumerate_from j S) = pre' ++ x' :: post' ->
    exists pre x post,
      S = pre ++ x :: post
      /\ pre' = map g (enumerate_from j pre)
      /\ x' = g ((j + Z.of_nat (List.length pre))%Z, x).
Proof.
  induction S as [|a rest IH]; intros j pre' post' x' H; simpl in H.
  - now destruct pre'.
  - destruct pre' as [|b pre'']; simpl in H; inversion H as [[Hb Hrest]].
    + exists [], a, rest. repeat split. simpl. now rewrite Z.add_0_r.
    + destruct (IH _ _ _ _ Hrest) as [pre [x [post [-> [-> ->]]]]].
      exists (a :: pre), x, post. repeat split. simpl List.length.
      f_equal. f_equal. lia.
Qed.

Lemma earlier_map_enumerate (g : Z * Row -> Row) (x x' : Row)
    (pre : list Row) (j : Z) :
  (forall ir, row (g ir) = row (snd ir)) -> row x' = row x ->
  earlier_same_actor x' (map g (enumerate_from j pre))
  = earlier_same_actor x pre.
Proof.
  intros Hg Hx. unfold earlier_same_actor, row_actor, row_timestamp.
  rewrite Hx. f_equal. revert j.
  induction pre as [|a rest IH]; intros j; simpl; [reflexivity|].
  rewrite Hg. simpl.
  destruct ((actor_id (row a) =? actor_id (row x))%Z
            && (timestamp (row a) <=? timestamp (row x))%Z);
    simpl; now rewrite IH.
Qed.

Lemma increment_count_ranked (df : list Row) :
  (forall r, In r df -> count r <= total r) ->
  ranked [] (increment_count df).
Proof.
  intros Hle pre' x' post' Hsplit. unfold increment_count, reset_index in Hsplit.
  apply map_enumerate_split in Hsplit.
  destruct Hsplit as [pre [x [post [HS [-> ->]]]]].
  simpl app.
  rewrite (earlier_map_enumerate _ x) by reflexivity.
  pose proof (increment_count_sorted df) as Hsorted. rewrite HS in Hsorted.
  destruct (rank_le_earlier x pre post 0%Z Hsorted) as [first [Hf Hrank]].
  simpl. unfold index_minus_first. simpl. rewrite HS, Hf.
  assert (Hx : count x <= total x).
  { apply Hle. apply (sort_values_In actor_value_timestamp_leb).
    rewrite HS. apply in_app_iff. right. now left. }
  assert (Hq : inject_Z (Z.of_nat (List.length pre) - first)
               <= inject_Z (earlier_same_actor x pre))
    by (rewrite <- Zle_Qle; lia).
  lra.
Qed.

Lemma increment_total_count_le (df : list Row) (r : Row) :
  ranked [] df -> In r (increment_total df) -> count r <= total r.
Proof.
  intros Hranked Hin. apply (ranked_sort df []) in Hranked.
  unfold increment_total, reset_index in Hin. apply in_map_iff in Hin.
  destruct Hin as [[i x] [<- Hin]].
  apply enumerate_from_split in Hin. destruct Hin as [pre [post [HS ->]]].
  specialize (Hranked pre x post HS). simpl in Hranked. simpl.
  unfold index_minus_first. simpl. rewrite HS.
  destruct (index_of_first_count (same_actor x) pre post x 0%Z
              (same_actor_refl x)) as [first [Hf Hcount]].
  rewrite Hf.
  assert (Hearlier : (earlier_same_actor x pre
                      <= Z.of_nat (List.length (filter (same_actor x) pre)))%Z).
  { unfold earlier_same_actor. apply inj_le. apply filter_length_le.
    intros y Hy. apply andb_true_iff in Hy. destruct Hy as [Hy _].
    unfold same_actor. now rewrite Z.eqb_sym. }
  assert (Hq : inject_Z (earlier_same_actor x pre)
               <= inject_Z (Z.of_nat (List.length pre) - first)).
  { rewrite <- Zle_Qle. lia. }
  rewrite ?Z.add_0_l. lra.
Qed.

Lemma update_groups_from_In (df : list Row) (section counter : Z) (r' : Row) :
  In r' (update_groups_from section counter df) ->
  exists r, In r df /\ row r' = row r /\ count r' = count r
            /\ total r' = total r.
Proof.
  revert section counter. induction df as [|x rest IH];
    intros section counter; simpl; [tauto|].
  intros [H|H].
  - exists x. split; [now left|]. subst r'.
    destruct (negb (_ =? 0)%Z); repeat split; reflexivity.
  - destruct (IH _ _ H) as [r [Hin Hr]]. exists r.
    split; [now right | exact Hr].
Qed.

(** In the working frame of [Mandatory] a count is between 0 and the
    total, so the total of a row with a count is not 0. *)
Lemma Mandatory_frame_count_le_total (values : list Value)
    (features : list Feature) (r : Row) :
  (forall f, In f features -> (0 <= f_count f)%Z) ->
  In r (Mandatory_frame values features) ->
  0 <= count r /\ count r <= total r.
Proof.
  intros Hpos Hin. unfold Mandatory_frame in Hin.
  apply in_map_iff in Hin. destruct Hin as [r1 [Hr1 Hin]].
  assert (Hmean : count r = count r1 /\ total r = total r1).
  { subst r. unfold set_mean. now destruct (Qlt_bool 0 (groups r1)). }
  destruct Hmean as [-> ->].
  apply update_groups_from_In in Hin.
  destruct Hin as [r2 [Hin [_ [-> ->]]]].
  unfold Mandatory_before_groups in Hin.
  set (df0 := merge_fav _ features) in Hin.
  assert (Hbase : forall x, In x (map set_previous_mean df0) ->
                            0 <= count x /\ count x <= total x).
  { intros x Hx. apply in_map_iff in Hx. destruct Hx as [x0 [<- Hx0]].
    simpl. now apply (merged_count_le_total values features). }
  split.
  - apply increment_total_In in Hin. destruct Hin as [r3 [Hin [_ ->]]].
    apply increment_count_In in Hin.
    destruct Hin as [r4 [Hin [_ [_ [_ Hle]]]]].
    eapply Qle_trans; [|exact Hle]. now apply Hbase.
  - eapply increment_total_count_le; [|exact Hin].
    apply increment_count_ranked. intros x Hx. now apply Hbase.
Qed.

(** ** The scores of the mandatory reporter *)

Lemma set_mean_mean (r1 : Row) :
  0 < groups (set_mean r1) ->
  mean (set_mean r1)
  == previous_mean (set_mean r1)
     + (count (set_mean r1) - previous_mean (set_mean r1))
       / groups (set_mean r1).
Proof.
  unfold set_mean. destruct (Qlt_bool 0 (groups r1)) eqn:Hg; simpl.
  - intros _. reflexivity.
  - intros H. apply Qlt_bool_iff in H. congruence.
Qed.

(** The scenarios of the specification: a first message scores 1; after a
    hundred identical values one more scores 0; a first ["goodbye"] then
    scores 1 and the two ["hello"] after it score 0. *)
Example Mandatory_scenarios :
  map s_score
    (Mandatory_call 1 [mkValue 1 10 1 1 1 (quoted "hello")] []) = [1]
  /\ map s_score
       (Mandatory_call 1 [mkValue 1 10 1 1 1 (quoted "hello")]
          drift_features) = [0]
  /\ map (fun out => (value (s_row out), Qred (s_score out)))
       (Mandatory_call 1 drift_values drift_features)
     = [(quoted "goodbye", 1); (quoted "hello", 0); (quoted "hello", 0)].
Proof. repeat split; vm_compute; reflexivity. Qed.

End ReportersFacts.

Module ReportersBounds.
Import Frames Reporters ReportersRuns FramesFacts ReportersFacts.

(** Facts about the range of the scores of [profile/reporters.py]. *)

Local Open Scope Q_scope.

Lemma ratio_in_unit (c t : Q) : 0 <= c -> c <= t -> 0 < t ->
  0 <= c / t /\ c / t <= 1.
Proof.
  intros Hc Hct Ht. split.
  - apply Qle_shift_div_l; [exact Ht|]. lra.
  - apply Qle_shift_div_r; [exact Ht|]. lra.
Qed.

Lemma scaled_in_range (weight y : Q) :
  0 <= weight -> 0 <= y -> y <= 1 ->
  0 <= weight * y /\ weight * y <= weight.
Proof. intros Hw H0 H1. split; nra. Qed.

(** X3. With a weight that is not negative and feature counts that are
    not negative, every score [Mandatory.__call__] returns lies between 0
    and the weight. *)
Theorem Mandatory_score_in_range :
  forall (weight : Q) (values : list Value) (features : list Feature)
         (out : Scored),
    0 <= weight ->
    (forall f, In f features -> (0 <= f_count f)%Z) ->
    In out (Mandatory_call weight values features) ->
    0 <= s_score out /\ s_score out <= weight.
Proof.
  intros weight values features out Hw Hpos Hin.
  unfold Mandatory_call in Hin. rewrite map_map in Hin.
  apply in_map_iff in Hin. destruct Hin as [r [<- Hr]].
  destruct (Mandatory_frame_count_le_total values features r Hpos Hr)
    as [H0 Hle].
  change (s_score (drop_columns (Mandatory_set_score weight r)))
    with (score (Mandatory_set_score weight r)).
  rewrite Mandatory_set_score_spec. unfold Mandatory_score_spec.
  destruct (String.eqb (row_value r) EmptyString); cbn [orb].
  { apply scaled_in_range; lra. }
  destruct (Qeq_bool (count r) 0) eqn:Hzero.
  { apply scaled_in_range; lra. }
  destruct (Qle_bool (mean r) (count r)).
  { apply scaled_in_range; lra. }
  apply Qeq_bool_false in Hzero.
  assert (Hc : 0 < count r).
  { apply Qle_lteq in H0. destruct H0 as [H0|H0]; [exact H0|].
    exfalso. apply Hzero. now symmetry. }
  assert (Ht : 0 < total r) by lra.
  destruct (ratio_in_unit (count r) (total r) H0 Hle Ht) as [Hr0 Hr1].
  apply scaled_in_range; lra.
Qed.

Lemma Mandatory_score_in_range_witness :
  let out := hd (mkScored (mkValue 0 0 0 0 0 EmptyString) 0)
               (Mandatory_call (1 # 2) drift_values drift_features) in
  0 <= s_score out /\ s_score out <= 1 # 2.
Proof.
  apply (Mandatory_score_in_range (1 # 2) drift_values drift_features).
  - discriminate.
  - intros f [<-|[]]. simpl. lia.
  - vm_compute. left. reflexivity.
Defined.

(** ** The optional reporter: [null_count] is at most [total] *)

Lemma actor_rows_app (actor : Z) (a b : list Row) :
  actor_rows actor (a ++ b) = (actor_rows actor a + actor_rows actor b)%Z.
Proof. unfold actor_rows. rewrite filter_app, length_app. lia. Qed.

Lemma actor_rows_nonneg (actor : Z) (l : list Row) :
  (0 <= actor_rows actor l)%Z.
Proof. unfold actor_rows. lia. Qed.

Lemma actor_rows_one (actor : Z) (x : Row) :
  actor_rows actor [x] = if (row_actor x =? actor)%Z then 1%Z else 0%Z.
Proof. unfold actor_rows. simpl. now destruct (row_actor x =? actor)%Z. Qed.

(** The feature of a value's key is in the group whose counts make the
    total of the key. *)
Lemma feature_in_group (values : list Value) (features : list Feature)
    (f : Feature) (v : Value) :
  In f features -> In v values -> feature_fa f = value_fa v ->
  In f (fa_group (matching_features values features) (value_fa v))
  /\ In (value_fa v)
       (group_keys fa_leb fa_eqb
          (map feature_fa (matching_features values features))).
Proof.
  intros Hf Hv Hkey.
  assert (Hfm : In f (matching_features values features)).
  { unfold matching_features. apply filter_In. split; [exact Hf|].
    apply (existsb_eqb fa_eqb fa_eqb_eq). unfold unique_fa.
    apply (drop_duplicates_In fa_eqb fa_eqb_eq). rewrite Hkey.
    now apply in_map. }
  split.
  - unfold fa_group. apply filter_In. split; [exact Hfm|].
    now apply fa_eqb_eq.
  - apply (group_keys_In fa_eqb fa_eqb_eq). rewrite <- Hkey.
    now apply in_map.
Qed.

Lemma group_counts_nonneg (values : list Value) (features : list Feature)
    (key : Z * Z) :
  (forall f, In f features -> (0 <= f_count f)%Z) ->
  forall q,
    In q (counts_of (fa_group (matching_features values features) key)) ->
    0 <= q.
Proof.
  intros Hpos. apply counts_of_nonneg. intros f Hf. apply Hpos.
  unfold fa_group in Hf. apply filter_In in Hf. destruct Hf as [Hf _].
  unfold matching_features in Hf. now apply filter_In in Hf.
Qed.

(** After the merges of [Optional] a null count is between 0 and the
    total of its key. *)
Lemma merged_null_le_total (values : list Value) (features : list Feature)
    (r : Row) :
  (forall f, In f features -> (0 <= f_count f)%Z) ->
  In r (merge_fav
          (merge_null
             (merge_total values
                (features_fa_agg (matching_features values features)))
             (null_values values features))
          features) ->
  0 <= null_count r /\ null_count r <= total r.
Proof.
  intros Hpos Hin.
  unfold merge_fav in Hin. apply merge_left_unique in Hin.
  destruct Hin as [l [Hl Hr]].
  assert (Hsame : null_count r = null_count l /\ total r = total l).
  { destruct Hr as [[f [_ [_ ->]]]|[_ ->]]; split; reflexivity. }
  destruct Hsame as [-> ->]. clear Hr r.
  unfold merge_null in Hl. apply merge_left_unique in Hl.
  destruct Hl as [m [Hm Hl]].
  unfold merge_total in Hm. apply merge_left_unique in Hm.
  destruct Hm as [v [Hv Hm]].
  assert (Hrow : row m = v).
  { destruct Hm as [[a [_ [_ ->]]]|[_ ->]]; reflexivity. }
  assert (Htotal : 0 <= total m).
  { destruct Hm as [[a [Ha [_ ->]]]|[_ ->]]; simpl; [|apply Qle_refl].
    unfold features_fa_agg in Ha. apply in_map_iff in Ha.
    destruct Ha as [key [<- _]]. simpl. apply Qsum_nonneg.
    now apply group_counts_nonneg. }
  destruct Hl as [[n [Hn [Hon ->]]]|[_ ->]]; simpl;
    [|split; [apply Qle_refl | exact Htotal]].
  apply fa_eqb_eq in Hon. rewrite Hrow in Hon.
  unfold null_values in Hn. apply merge_left_unique in Hn.
  destruct Hn as [key [_ Hn]].
  destruct Hn as [[f [Hf [Hfav ->]]]|[_ ->]]; simpl in *;
    [|split; [apply Qle_refl | exact Htotal]].
  split.
  { change 0 with (inject_Z 0). rewrite <- Zle_Qle. now apply Hpos. }
  apply fav_eqb_eq in Hfav.
  assert (Hkey : feature_fa f = value_fa v).
  { unfold feature_fa. unfold feature_fav in Hfav. rewrite Hon.
    now inversion Hfav. }
  destruct (feature_in_group values features f v Hf Hv Hkey)
    as [Hgroup Hkeys].
  destruct Hm as [[a [Ha [Hona ->]]]|[Hnone _]]; simpl.
  - apply fa_eqb_eq in Hona. unfold features_fa_agg in Ha.
    apply in_map_iff in Ha. destruct Ha as [key' [<- _]]. simpl in *.
    subst key'. apply Qsum_member.
    + now apply group_counts_nonneg.
    + unfold counts_of. apply in_map_iff. now exists f.
  - exfalso.
    assert (Hagg : In (mkTotalAgg (value_fa v)
                         (Qsum (counts_of
                                  (fa_group
                                     (matching_features values features)
                                     (value_fa v)))))
                      (features_fa_agg (matching_features values features))).
    { unfold features_fa_agg. apply in_map_iff. exists (value_fa v).
      split; [reflexivity | exact Hkeys]. }
    specialize (Hnone _ Hagg). simpl in Hnone.
    assert (fa_eqb (value_fa v) (value_fa v) = true) by now apply fa_eqb_eq.
    congruence.
Qed.

Lemma actor_rows_map_enumerate (g : Z * Row -> Row) (actor : Z)
    (pre : list Row) (j : Z) :
  (forall ir, row (g ir) = row (snd ir)) ->
  actor_rows actor (map g (enumerate_from j pre)) = actor_rows actor pre.
Proof.
  intros Hg. unfold actor_rows, row_actor. f_equal. revert j.
  induction pre as [|a rest IH]; intros j; simpl; [reflexivity|].
  rewrite Hg. simpl.
  destruct (actor_id (row a) =? actor)%Z; simpl; now rewrite IH.
Qed.

(** After [increment_total] the total of a row exceeds its null count by
    the rows of its actor before it, at least. *)
Lemma increment_total_null_room (df : list Row) :
  (forall r, In r df -> 0 <= null_count r /\ null_count r <= total r) ->
  forall pre x post,
    increment_total df = pre ++ x :: post ->
    0 <= null_count x
    /\ null_count x + inject_Z (actor_rows (row_actor x) pre) <= total x.
Proof.
  intros Hle pre' x' post' Hsplit.
  unfold increment_total, reset_index in Hsplit.
  apply map_enumerate_split in Hsplit.
  destruct Hsplit as [pre [x [post [HS [-> ->]]]]].
  rewrite actor_rows_map_enumerate by reflexivity.
  assert (Hx : 0 <= null_count x /\ null_count x <= total x).
  { apply Hle. apply (sort_values_In actor_timestamp_leb).
    rewrite HS. apply in_app_iff. right. now left. }
  destruct Hx as [Hx0 Hx1].
  destruct (index_of_first_count (same_actor x) pre post x 0%Z
              (same_actor_refl x)) as [first [Hf Hcount]].
  cbn [null_count with_total total snd fst]. split; [exact Hx0|].
  unfold index_minus_first. cbn [snd fst]. rewrite HS, Hf.
  assert (Hrows : (actor_rows (row_actor x) pre
                   <= Z.of_nat (List.length (filter (same_actor x) pre)))%Z).
  { unfold actor_rows. apply inj_le. apply filter_length_le.
    intros y Hy. unfold same_actor. now rewrite Z.eqb_sym. }
  assert (Hq : inject_Z (actor_rows (row_actor x) pre)
               <= inject_Z (Z.of_nat (List.length pre) - first)).
  { rewrite <- Zle_Qle. lia. }
  unfold row_actor in *. cbn [row with_total].
  rewrite ?Z.add_0_l. lra.
Qed.

(** [_update_count] adds to a null count no more than the rows of the
    actor before the row. *)
Lemma update_count_from_le (df : list Row) :
  forall (outside : list Row) (section counter : Z),
    (0 <= counter <= actor_rows section outside)%Z ->
    (forall pre x post,
        df = pre ++ x :: post ->
        0 <= null_count x
        /\ null_count x + inject_Z (actor_rows (row_actor x) (outside ++ pre))
           <= total x) ->
    forall r, In r (update_count_from section counter df) ->
              0 <= null_count r /\ null_count r <= total r.
Proof.
  induction df as [|x rest IH]; intros outside section counter Hc Hroom r;
    cbn [update_count_from]; [intros []|].
  set (counter0 := if negb (row_actor x =? section)%Z then 0%Z else counter).
  set (section0 :=
         if negb (row_actor x =? section)%Z then row_actor x else section).
  assert (Hsection : section0 = row_actor x).
  { unfold section0. destruct (row_actor x =? section)%Z eqn:He; simpl;
      [|reflexivity]. apply Z.eqb_eq in He. now symmetry. }
  assert (Hc0 : (0 <= counter0 <= actor_rows (row_actor x) outside)%Z).
  { unfold counter0. destruct (row_actor x =? section)%Z eqn:He; simpl.
    - apply Z.eqb_eq in He. now rewrite He.
    - pose proof (actor_rows_nonneg (row_actor x) outside). lia. }
  destruct (Hroom [] x rest eq_refl) as [Hx0 Hx1]. rewrite app_nil_r in Hx1.
  intros [Hr|Hr].
  - subst r. destruct (negb (counter0 =? 0)%Z); cbn [null_count with_null_count total].
    + assert (Hq : inject_Z counter0
                   <= inject_Z (actor_rows (row_actor x) outside))
        by (rewrite <- Zle_Qle; lia).
      assert (Hq0 : inject_Z 0 <= inject_Z counter0)
        by (rewrite <- Zle_Qle; lia).
      change (inject_Z 0) with 0 in Hq0. split; lra.
    + assert (Hq0 : inject_Z 0 <= inject_Z (actor_rows (row_actor x) outside)).
      { rewrite <- Zle_Qle. apply actor_rows_nonneg. }
      change (inject_Z 0) with 0 in Hq0. split; lra.
  - apply (IH (outside ++ [x]) section0
              (if String.eqb (row_value x) EmptyString
               then (counter0 + 1)%Z else counter0)).
    + rewrite Hsection, actor_rows_app, actor_rows_one, Z.eqb_refl.
      destruct (String.eqb (row_value x) EmptyString); lia.
    + intros pre y post Hsplit.
      specialize (Hroom (x :: pre) y post). cbn [app] in Hroom.
      rewrite Hsplit in Hroom. specialize (Hroom eq_refl).
      rewrite <- app_assoc. exact Hroom.
    + exact Hr.
Qed.

(** In the working frame of [Optional] a null count is between 0 and the
    total. *)
Lemma Optional_frame_null_le_total (values : list Value)
    (features : list Feature) (r : Row) :
  (forall f, In f features -> (0 <= f_count f)%Z) ->
  In r (Optional_frame values features) ->
  0 <= null_count r /\ null_count r <= total r.
Proof.
  intros Hpos Hin. unfold Optional_frame in Hin.
  apply increment_count_In in Hin.
  destruct Hin as [r1 [Hin [_ [-> [-> _]]]]].
  unfold update_count in Hin.
  apply (update_count_from_le _ [] (-1)%Z 0%Z) in Hin; [exact Hin| |].
  - unfold actor_rows. simpl. lia.
  - intros pre x post Hsplit. cbn [app].
    exact (increment_total_null_room _
             (fun r0 Hr0 => merged_null_le_total values features r0 Hpos Hr0)
             pre x post Hsplit).
Qed.

(** X4. With a weight that is not negative and feature counts that are
    not negative, every score [Optional.__call__] returns lies between 0
    and the weight: in its working frame a null count is between 0 and the
    total, so the ratio [null_count / total] is between 0 and 1. *)
Theorem Optional_score_in_range :
  forall (weight : Q) (values : list Value) (features : list Feature)
         (out : Scored),
    0 <= weight ->
    (forall f, In f features -> (0 <= f_count f)%Z) ->
    In out (Optional_call weight values features) ->
    0 <= s_score out /\ s_score out <= weight.
Proof.
  intros weight values features out Hw Hpos Hin.
  unfold Optional_call in Hin. rewrite map_map in Hin.
  apply in_map_iff in Hin. destruct Hin as [r [<- Hr]].
  destruct (Optional_frame_null_le_total values features r Hpos Hr)
    as [H0 Hle].
  change (s_score (drop_columns (Optional_set_score weight r)))
    with (score (Optional_set_score weight r)).
  unfold Optional_set_score. cbn [score with_score].
  destruct (negb (String.eqb (row_value r) EmptyString)
            && Qeq_bool (count r) 0); cbn [andb].
  - destruct (Qeq_bool (total r) 0) eqn:Hzero.
    + change (Qeq_bool 1 0) with false. cbv iota. lra.
    + change (Qeq_bool 0 0) with true. cbv iota.
      apply Qeq_bool_false in Hzero.
      assert (Ht : 0 < total r).
      { assert (Ht0 : 0 <= total r) by lra.
        apply Qle_lteq in Ht0. destruct Ht0 as [Ht0|Ht0]; [exact Ht0|].
        exfalso. apply Hzero. now symmetry. }
      destruct (ratio_in_unit (null_count r) (total r) H0 Hle Ht)
        as [Hr0 Hr1].
      rewrite Qmult_comm. apply scaled_in_range; lra.
  - lra.
Qed.

Lemma Optional_score_in_range_witness :
  let out := hd (mkScored (mkValue 0 0 0 0 0 EmptyString) 0)
               (Optional_call (1 # 2) drift_values optional_features) in
  0 <= s_score out /\ s_score out <= 1 # 2.
Proof.
  apply (Optional_score_in_range (1 # 2) drift_values optional_features).
  - discriminate.
  - intros f [<-|[<-|[]]]; simpl; lia.
  - vm_compute. left. reflexivity.
Defined.

End ReportersBounds.

Module ReportersRows.
Import Frames Reporters Profile FramesFacts ReportersFacts.

(** Facts about the rows the reporters of [profile/reporters.py] return. *)

(** A key that the right frame holds once matches one row at most. *)
Lemma filter_key_once {R K : Type} (eqb : K -> K -> bool) (kr : R -> K)
    (k : K) (right : list R) :
  (forall x y, eqb x y = true <-> x = y) ->
  NoDup (map kr right) ->
  (List.length (filter (fun r => eqb k (kr r)) right) <= 1)%nat.
Proof.
  intros eqb_eq. induction right as [|a rest IH]; intros Hnd; simpl; [lia|].
  inversion Hnd as [|? ? Hnotin Hrest]; subst.
  destruct (eqb k (kr a)) eqn:Ha; [|now apply IH].
  apply eqb_eq in Ha. subst k.
  assert (Hnone : filter (fun r => eqb (kr a) (kr r)) rest = []).
  { clear IH Hnd Hrest. induction rest as [|b rest IH]; [reflexivity|].
    simpl in *. destruct (eqb (kr a) (kr b)) eqn:Hb.
    - apply eqb_eq in Hb. exfalso. apply Hnotin. now left.
    - apply IH. intros H. apply Hnotin. now right. }
  rewrite Hnone. simpl. lia.
Qed.

(** A left merge where every row matches once at most keeps the rows of
    the left frame, one for one. *)
Lemma merge_left_rows {L R O K : Type} (on : L -> R -> bool)
    (matched : L -> R -> O) (unmatched : L -> O) (key : O -> K)
    (kl : L -> K) (left : list L) (right : list R) :
  (forall l, (List.length (filter (on l) right) <= 1)%nat) ->
  (forall l r, key (matched l r) = kl l) ->
  (forall l, key (unmatched l) = kl l) ->
  map key (merge_left on matched unmatched left right) = map kl left.
Proof.
  intros Hone Hm Hu. induction left as [|l rest IH]; [reflexivity|].
  rewrite merge_left_cons, map_app, IH. cbn [map]. specialize (Hone l).
  destruct (filter (on l) right) as [|m [|m' ms]]; simpl in *.
  - now rewrite Hu.
  - now rewrite Hm.
  - lia.
Qed.

Lemma feature_fa_agg_keys (matching : list Feature) :
  NoDup (map agg_key (feature_fa_agg matching)).
Proof.
  unfold feature_fa_agg. rewrite map_map. cbn [agg_key]. rewrite map_id.
  apply (group_keys_NoDup fa_eqb fa_eqb_eq).
Qed.

Lemma features_fa_agg_keys (matching : list Feature) :
  NoDup (map tagg_key (features_fa_agg matching)).
Proof.
  unfold features_fa_agg. rewrite map_map. cbn [tagg_key]. rewrite map_id.
  apply (group_keys_NoDup fa_eqb fa_eqb_eq).
Qed.

Lemma merge_fa_rows (values : list Value) (matching : list Feature) :
  map row (merge_fa values (feature_fa_agg matching)) = values.
Proof.
  unfold merge_fa. rewrite <- (map_id values) at 2.
  apply merge_left_rows; try reflexivity.
  intros v. apply (filter_key_once fa_eqb agg_key (value_fa v));
    [exact fa_eqb_eq | apply feature_fa_agg_keys].
Qed.

Lemma merge_total_rows (values : list Value) (matching : list Feature) :
  map row (merge_total values (features_fa_agg matching)) = values.
Proof.
  unfold merge_total. rewrite <- (map_id values) at 2.
  apply merge_left_rows; try reflexivity.
  intros v. apply (filter_key_once fa_eqb tagg_key (value_fa v));
    [exact fa_eqb_eq | apply features_fa_agg_keys].
Qed.

Lemma merge_fav_rows (df : list Row) (features : list Feature) :
  NoDup (map feature_fav features) ->
  map row (merge_fav df features) = map row df.
Proof.
  intros Hnd. unfold merge_fav. apply merge_left_rows; try reflexivity.
  intros r.
  apply (filter_key_once fav_eqb feature_fav (value_fav (row r)));
    [exact fav_eqb_eq | exact Hnd].
Qed.

Lemma null_values_keys (values : list Value) (features : list Feature) :
  NoDup (map feature_fav features) ->
  NoDup (map null_key (null_values values features)).
Proof.
  intros Hnd. unfold null_values.
  rewrite (merge_left_rows _ _ _ null_key (fun key => key)).
  - rewrite map_id. unfold unique_fa.
    apply (drop_duplicates_NoDup fa_eqb fa_eqb_eq).
  - intros key.
    apply (filter_key_once fav_eqb feature_fav (key, EmptyString));
      [exact fav_eqb_eq | exact Hnd].
  - reflexivity.
  - reflexivity.
Qed.

Lemma merge_null_rows (df : list Row) (values : list Value)
    (features : list Feature) :
  NoDup (map feature_fav features) ->
  map row (merge_null df (null_values values features)) = map row df.
Proof.
  intros Hnd. unfold merge_null. apply merge_left_rows; try reflexivity.
  intros r.
  apply (filter_key_once fa_eqb null_key (value_fa (row r)));
    [exact fa_eqb_eq | now apply null_values_keys].
Qed.

Lemma map_enumerate_rows (g : Z * Row -> Row) (df : list Row) :
  (forall ir, row (g ir) = row (snd ir)) ->
  forall j, map row (map g (enumerate_from j df)) = map row df.
Proof.
  intros Hg. induction df as [|x rest IH]; intros j; simpl; [reflexivity|].
  now rewrite Hg, IH.
Qed.

Lemma increment_total_rows (df : list Row) :
  Permutation (map row (increment_total df)) (map row df).
Proof.
  unfold increment_total, reset_index.
  rewrite map_enumerate_rows by reflexivity.
  apply Permutation_map. apply sort_values_perm.
Qed.

Lemma increment_count_rows (df : list Row) :
  Permutation (map row (increment_count df)) (map row df).
Proof.
  unfold increment_count, reset_index.
  rewrite map_enumerate_rows by reflexivity.
  apply Permutation_map. apply sort_values_perm.
Qed.

Lemma update_groups_from_rows (df : list Row) :
  forall section counter,
    map row (update_groups_from section counter df) = map row df.
Proof.
  induction df as [|x rest IH]; intros section counter; simpl;
    [reflexivity|].
  rewrite IH. now destruct (negb (_ =? 0)%Z).
Qed.

Lemma update_count_from_rows (df : list Row) :
  forall section counter,
    map row (update_count_from section counter df) = map row df.
Proof.
  induction df as [|x rest IH]; intros section counter; simpl;
    [reflexivity|].
  rewrite IH. now destruct (negb (_ =? 0)%Z).
Qed.

Lemma Mandatory_frame_rows (values : list Value) (features : list Feature) :
  NoDup (map feature_fav features) ->
  Permutation (map row (Mandatory_frame values features)) values.
Proof.
  intros Hnd. unfold Mandatory_frame, Mandatory_before_groups.
  rewrite map_map.
  rewrite (map_ext (fun x => row (set_mean x)) row)
    by (intros x; unfold set_mean; now destruct (Qlt_bool 0 (groups x))).
  unfold update_groups. rewrite update_groups_from_rows.
  rewrite increment_total_rows, increment_count_rows.
  rewrite map_map. cbn [row set_previous_mean with_previous_mean].
  change (fun x : Row => row x) with row.
  rewrite merge_fav_rows by exact Hnd.
  now rewrite merge_fa_rows.
Qed.

Lemma Optional_frame_rows (values : list Value) (features : list Feature) :
  NoDup (map feature_fav features) ->
  Permutation (map row (Optional_frame values features)) values.
Proof.
  intros Hnd. unfold Optional_frame.
  rewrite increment_count_rows. unfold update_count.
  rewrite update_count_from_rows, increment_total_rows.
  rewrite merge_fav_rows by exact Hnd.
  rewrite merge_null_rows by exact Hnd.
  now rewrite merge_total_rows.
Qed.

Lemma reporter_call_rows (r : Reporter) (values : list Value)
    (features : list Feature) :
  NoDup (map feature_fav features) ->
  Permutation (map s_row (reporter_call r values features)) values.
Proof.
  intros Hnd. destruct r as [weight|weight]; cbn [reporter_call].
  - unfold Mandatory_call. rewrite !map_map. cbn [s_row drop_columns].
    rewrite (map_ext _ row) by reflexivity.
    now apply Mandatory_frame_rows.
  - unfold Optional_call. rewrite !map_map. cbn [s_row drop_columns].
    rewrite (map_ext _ row) by reflexivity.
    now apply Optional_frame_rows.
Qed.

(** X5. With features that hold each [(field_id, actor_id, value)] once,
    as the features table does, a reporter returns every row of the
    values it is given exactly once, each with a score: the value rows of
    the frame that [Mandatory.__call__] or [Optional.__call__] returns
    are the values of the batch, reordered. *)
Theorem reporter_returns_every_row :
  forall (r : Reporter) (values : list Value) (features : list Feature),
    NoDup (map feature_fav features) ->
    Permutation (map s_row (reporter_call r values features)) values
    /\ List.length (reporter_call r values features) = List.length values.
Proof.
  intros r values features Hnd.
  pose proof (reporter_call_rows r values features Hnd) as Hperm.
  split; [exact Hperm|].
  apply Permutation_length in Hperm. now rewrite length_map in Hperm.
Qed.

Lemma reporter_returns_every_row_witness :
  Permutation
    (map s_row (reporter_call (Optional 1) drift_values optional_features))
    drift_values
  /\ List.length (reporter_call (Optional 1) drift_values optional_features)
     = List.length drift_values.
Proof.
  apply (reporter_returns_every_row (Optional 1) drift_values
           optional_features).
  repeat constructor; simpl; intuition discriminate.
Defined.

End ReportersRows.

Module ReportersInOrderFacts.
Import Frames Reporters ReportersInOrder FramesFacts ReportersFacts ReportersRows.

(** ** Rows with the rows before them *)

Section Earlier.

Context {A B : Type}.

Lemma with_earlier_app (f : list A -> A -> B) (e l1 l2 : list A) :
  with_earlier f e (l1 ++ l2)
  = with_earlier f e l1 ++ with_earlier f (e ++ l1) l2.
Proof.
  revert e. induction l1 as [|x l1 IH]; intros e; simpl.
  - now rewrite app_nil_r.
  - rewrite IH. now rewrite <- app_assoc.
Qed.

Lemma with_earlier_length (f : list A -> A -> B) (e l : list A) :
  List.length (with_earlier f e l) = List.length l.
Proof.
  revert e. induction l as [|x l IH]; intros e; simpl; [reflexivity|].
  now rewrite IH.
Qed.

Lemma with_earlier_ext (f g : list A -> A -> B) (e l : list A) :
  (forall pre x post, l = pre ++ x :: post -> f (e ++ pre) x = g (e ++ pre) x) ->
  with_earlier f e l = with_earlier g e l.
Proof.
  revert e. induction l as [|a l IH]; intros e H; simpl; [reflexivity|].
  f_equal.
  - specialize (H [] a l eq_refl). now rewrite app_nil_r in H.
  - apply IH. intros pre x post ->.
    specialize (H (a :: pre) x post eq_refl).
    now rewrite <- app_assoc.
Qed.

Lemma with_earlier_map {C : Type} (g : B -> C) (f : list A -> A -> B)
    (e l : list A) :
  map g (with_earlier f e l) = with_earlier (fun pre x => g (f pre x)) e l.
Proof.
  revert e. induction l as [|a l IH]; intros e; simpl; [reflexivity|].
  now rewrite IH.
Qed.

Lemma with_earlier_const (h : A -> B) (e l : list A) :
  with_earlier (fun _ x => h x) e l = map h l.
Proof.
  revert e. induction l as [|a l IH]; intros e; simpl; [reflexivity|].
  now rewrite IH.
Qed.

Lemma enumerate_with_earlier (G : Z * A -> B) (e l : list A) (j : Z) :
  j = Z.of_nat (List.length e) ->
  map G (enumerate_from j l)
  = with_earlier (fun pre x => G (Z.of_nat (List.length pre), x)) e l.
Proof.
  revert e j. induction l as [|a l IH]; intros e j Hj; simpl; [reflexivity|].
  f_equal.
  - now subst.
  - apply IH. rewrite length_app. simpl. lia.
Qed.

Lemma with_earlier_split (f : list A -> A -> B) (e l : list A)
    (pre' post' : list B) (y : B) :
  with_earlier f e l = pre' ++ y :: post' ->
  exists pre x post,
    l = pre ++ x :: post /\ y = f (e ++ pre) x
    /\ pre' = with_earlier f e pre.
Proof.
  revert e pre'. induction l as [|a l IH]; intros e pre' H; simpl in H.
  - now destruct pre'.
  - destruct pre' as [|b pre']; simpl in H; inversion H; subst.
    + exists [], a, l. now rewrite app_nil_r.
    + destruct (IH _ _ H2) as [pre [x [post [-> [-> ->]]]]].
      exists (a :: pre), x, post. rewrite <- app_assoc.
      repeat split.
Qed.

Lemma Forall2_with_earlier (P : B -> B -> Prop) (f g : list A -> A -> B)
    (e l : list A) :
  (forall pre x post,
     l = pre ++ x :: post -> P (f (e ++ pre) x) (g (e ++ pre) x)) ->
  Forall2 P (with_earlier f e l) (with_earlier g e l).
Proof.
  revert e. induction l as [|a l IH]; intros e H; simpl; constructor.
  - specialize (H [] a l eq_refl). now rewrite app_nil_r in H.
  - apply IH. intros pre x post ->.
    specialize (H (a :: pre) x post eq_refl).
    now rewrite <- app_assoc.
Qed.

End Earlier.

Lemma with_earlier_compose {A B C : Type} (f : list A -> A -> B)
    (g : list B -> B -> C) (e l : list A) :
  with_earlier g (with_earlier f [] e) (with_earlier f e l)
  = with_earlier (fun pre x => g (with_earlier f [] pre) (f pre x)) e l.
Proof.
  revert e. induction l as [|a l IH]; intros e; simpl; [reflexivity|].
  f_equal. rewrite <- IH. f_equal.
  now rewrite with_earlier_app.
Qed.

(** ** Stable sorting *)

Section Stable.

Context {A : Type}.
Variable leb : A -> A -> bool.
Hypothesis leb_total : forall x y, leb x y = false -> leb y x = true.
Hypothesis leb_trans :
  forall x y z, leb x y = true -> leb y z = true -> leb x z = true.

Let below (x y : A) : Prop := leb x y = true.

Lemma sort_values_below (l : list A) :
  StronglySorted below (sort_values leb l).
Proof.
  apply (sort_values_ordered leb below).
  - now intros x y H.
  - exact leb_total.
  - exact leb_trans.
Qed.

Lemma insert_sorted_first (x : A) (l : list A) :
  (forall h, In h l -> leb x h = true) -> insert_sorted leb x l = x :: l.
Proof.
  destruct l as [|h l]; intros H; simpl; [reflexivity|].
  now rewrite (H h (or_introl eq_refl)).
Qed.

(** A sorted frame is left as it is. *)
Lemma sort_values_sorted (l : list A) :
  StronglySorted below l -> sort_values leb l = l.
Proof.
  induction 1 as [|x l Hs IH Hall]; simpl; [reflexivity|].
  fold (sort_values leb l). rewrite IH.
  apply insert_sorted_first. intros h Hh.
  rewrite Forall_forall in Hall. now apply Hall.
Qed.

Lemma filter_insert_sorted (p : A -> bool) (x : A) (l : list A) :
  StronglySorted below l ->
  filter p (insert_sorted leb x l)
  = if p x then insert_sorted leb x (filter p l) else filter p l.
Proof.
  induction 1 as [|y l Hs IH Hall]; simpl.
  - now destruct (p x).
  - rewrite Forall_forall in Hall.
    destruct (leb x y) eqn:Hxy; simpl.
    + destruct (p x) eqn:Hpx; [|reflexivity].
      symmetry. apply insert_sorted_first.
      intros h Hh.
      assert (Hin : In h (y :: l)).
      { destruct (p y); [|now right; apply filter_In in Hh].
        destruct Hh as [<-|Hh]; [now left|].
        right. now apply filter_In in Hh. }
      destruct Hin as [<-|Hin]; [exact Hxy|].
      exact (leb_trans _ _ _ Hxy (Hall _ Hin)).
    + rewrite IH. destruct (p y) eqn:Hpy, (p x) eqn:Hpx; simpl;
        try reflexivity.
      now rewrite Hxy.
Qed.

(** The rows of a group keep, in the sorted frame, the order that the
    sorted group has. *)
Lemma filter_sort_values (p : A -> bool) (l : list A) :
  filter p (sort_values leb l) = sort_values leb (filter p l).
Proof.
  induction l as [|x l IH]; simpl; [reflexivity|].
  fold (sort_values leb l).
  rewrite filter_insert_sorted by apply sort_values_below.
  rewrite IH. now destruct (p x).
Qed.

End Stable.

Lemma StronglySorted_filter {A : Type} (R : A -> A -> Prop) (p : A -> bool)
    (l : list A) :
  StronglySorted R l -> StronglySorted R (filter p l).
Proof.
  induction 1 as [|x l Hs IH Hall]; simpl; [constructor|].
  destruct (p x); [|exact IH].
  constructor; [exact IH|].
  rewrite Forall_forall in *. intros y Hy. apply filter_In in Hy.
  now apply Hall.
Qed.

Lemma StronglySorted_weaken {A : Type} (R S : A -> A -> Prop) (l : list A) :
  (forall x y, In x l -> In y l -> R x y -> S x y) ->
  StronglySorted R l -> StronglySorted S l.
Proof.
  intros H Hs. induction Hs as [|x l Hs IH Hall]; constructor.
  - apply IH. intros a b Ha Hb. apply H; now right.
  - rewrite Forall_forall in *. intros y Hy.
    apply H; [now left | now right | now apply Hall].
Qed.

Lemma StronglySorted_map {A B : Type} (R : B -> B -> Prop) (f : A -> B)
    (l : list A) :
  StronglySorted (fun x y => R (f x) (f y)) l <-> StronglySorted R (map f l).
Proof.
  induction l as [|x l IH]; simpl.
  - split; constructor.
  - split; intros H; apply StronglySorted_inv in H; destruct H as [Hs Hall];
      constructor; try (now apply IH); rewrite Forall_forall in *.
    + intros y Hy. apply in_map_iff in Hy. destruct Hy as [a [<- Ha]].
      now apply Hall.
    + intros a Ha. apply Hall. now apply in_map.
Qed.

Lemma insert_sorted_map {A B : Type} (lebA : A -> A -> bool)
    (lebB : B -> B -> bool) (f : A -> B) (x : A) (l : list A) :
  (forall y, In y l -> lebA x y = lebB (f x) (f y)) ->
  map f (insert_sorted lebA x l) = insert_sorted lebB (f x) (map f l).
Proof.
  induction l as [|y l IH]; intros H; simpl; [reflexivity|].
  rewrite <- (H y (or_introl eq_refl)).
  destruct (lebA x y); simpl; [reflexivity|].
  rewrite IH; [reflexivity|]. intros z Hz. apply H. now right.
Qed.

(** Sorting commutes with a map that keeps the order. *)
Lemma sort_values_map {A B : Type} (lebA : A -> A -> bool)
    (lebB : B -> B -> bool) (f : A -> B) (l : list A) :
  (forall x y, In x l -> In y l -> lebA x y = lebB (f x) (f y)) ->
  map f (sort_values lebA l) = sort_values lebB (map f l).
Proof.
  induction l as [|x l IH]; intros H; simpl; [reflexivity|].
  fold (sort_values lebA l). fold (sort_values lebB (map f l)).
  rewrite (insert_sorted_map lebA lebB).
  - rewrite IH; [reflexivity|]. intros a b Ha Hb. apply H; now right.
  - intros y Hy. apply sort_values_In in Hy. apply H; [now left | now right].
Qed.

(** ** The first row of a group in a sorted frame *)

(** When the rows of a group come one after the other up to [x], the
    first of them is as far before [x] as the group has rows before
    [x]. *)
Lemma index_of_first_run {A : Type} (p : A -> bool) (pre post : list A)
    (x : A) (j : Z) :
  p x = true ->
  (forall a b c, pre = a ++ b :: c -> p b = true ->
                 forall z, In z c -> p z = true) ->
  index_of_first p j (pre ++ x :: post)
  = Some (j + Z.of_nat (List.length pre)
          - Z.of_nat (List.length (filter p pre))).
Proof.
  intros Hx. revert j. induction pre as [|a pre IH]; intros j Hrun; simpl.
  - rewrite Hx. f_equal. lia.
  - destruct (p a) eqn:Ha.
    + rewrite (filter_all p pre).
      * f_equal. simpl. lia.
      * intros z Hz. exact (Hrun [] a pre eq_refl Ha z Hz).
    + rewrite IH.
      * f_equal. lia.
      * intros a' b c -> Hb z Hz.
        exact (Hrun (a :: a') b c eq_refl Hb z Hz).
Qed.

Lemma index_of_first_sorted {A : Type} (R : A -> A -> Prop) (p : A -> bool)
    (pre post : list A) (x : A) (j : Z) :
  StronglySorted R (pre ++ x :: post) ->
  p x = true ->
  (forall b z, R b z -> R z x -> p b = true -> p z = true) ->
  index_of_first p j (pre ++ x :: post)
  = Some (j + Z.of_nat (List.length pre)
          - Z.of_nat (List.length (filter p pre))).
Proof.
  intros Hs Hx Hbetween. apply index_of_first_run; [exact Hx|].
  intros a b c -> Hb z Hz.
  apply sorted_split in Hs. destruct Hs as [Hpre [_ Hbelow]].
  apply sorted_split in Hpre. destruct Hpre as [_ [Hbc _]].
  apply StronglySorted_inv in Hbc. destruct Hbc as [_ Hall].
  rewrite Forall_forall in Hall.
  apply (Hbetween b z); [now apply Hall | | exact Hb].
  apply Hbelow. apply in_or_app. right. now right.
Qed.

(** ** Ranks *)

(** When every row of a group carries the number of rows of the group
    before it, the rows of the group carry 0, 1, 2, ... *)
Lemma ranks_of_group {A : Type} (p : A -> bool) (tag : A -> Z)
    (l : list A) (n : Z) :
  (forall pre x post,
     l = pre ++ x :: post -> p x = true ->
     tag x = n + Z.of_nat (List.length (filter p pre))) ->
  forall g1 x g2,
    filter p l = g1 ++ x :: g2 -> tag x = n + Z.of_nat (List.length g1).
Proof.
  revert n. induction l as [|a l IH]; intros n H g1 x g2 Hf; simpl in Hf.
  - now destruct g1.
  - destruct (p a) eqn:Ha.
    + destruct g1 as [|b g1]; simpl in Hf; inversion Hf; subst.
      * rewrite (H [] x l eq_refl Ha). reflexivity.
      * rewrite (IH (n + 1) ) with (g1 := g1) (g2 := g2); [simpl; lia| |exact H2].
        intros pre y post -> Hy.
        rewrite (H (b :: pre) y post eq_refl Hy). simpl. rewrite Ha. simpl. lia.
    + apply (IH n) with (g2 := g2); [|exact Hf].
      intros pre y post -> Hy.
      rewrite (H (a :: pre) y post eq_refl Hy). simpl. now rewrite Ha.
Qed.

Lemma with_earlier_of_map {A B C : Type} (m : A -> B)
    (f : list B -> B -> C) (e l : list A) :
  with_earlier f (map m e) (map m l)
  = with_earlier (fun pre x => f (map m pre) (m x)) e l.
Proof.
  revert e. induction l as [|a l IH]; intros e; simpl; [reflexivity|].
  f_equal. rewrite <- IH. f_equal. now rewrite map_app.
Qed.

Lemma filter_map_length {A B : Type} (p : B -> bool) (m : A -> B)
    (l : list A) :
  List.length (filter p (map m l))
  = List.length (filter (fun x => p (m x)) l).
Proof.
  induction l as [|a l IH]; simpl; [reflexivity|].
  destruct (p (m a)); simpl; now rewrite IH.
Qed.

Lemma filter_rows_length (p : Value -> bool) (df : list Row) :
  List.length (filter (fun y => p (row y)) df)
  = List.length (filter p (map row df)).
Proof. symmetry. apply filter_map_length. Qed.

(** ** The orders *)

Lemma value_timestamp_leb_total (x y : Value) :
  value_timestamp_leb x y = false -> value_timestamp_leb y x = true.
Proof.
  unfold value_timestamp_leb. intros H.
  apply orb_false_iff in H. destruct H as [H1 H2].
  apply Z.ltb_ge in H1. apply orb_true_iff.
  destruct (actor_id x =? actor_id y) eqn:He; simpl in H2.
  - apply Z.eqb_eq in He. apply Z.leb_gt in H2. right.
    apply andb_true_iff. split; [apply Z.eqb_eq | apply Z.leb_le]; lia.
  - apply Z.eqb_neq in He. left. apply Z.ltb_lt. lia.
Qed.

Lemma value_timestamp_leb_spec (x y : Value) :
  value_timestamp_leb x y = true
  <-> actor_id x < actor_id y
      \/ (actor_id x = actor_id y /\ timestamp x <= timestamp y).
Proof.
  unfold value_timestamp_leb.
  now rewrite orb_true_iff, andb_true_iff, Z.ltb_lt, Z.eqb_eq, Z.leb_le.
Qed.

Lemma value_timestamp_leb_trans (x y z : Value) :
  value_timestamp_leb x y = true -> value_timestamp_leb y z = true ->
  value_timestamp_leb x z = true.
Proof. rewrite !value_timestamp_leb_spec. lia. Qed.

Lemma lt_ltb (a b : string) :
  String_as_OT.lt a b -> String.ltb a b = true.
Proof.
  intros H. apply String_as_OT.cmp_lt in H.
  unfold String.ltb. unfold String_as_OT.cmp in H. now rewrite H.
Qed.

Lemma key_le_leb (x y : Row) :
  key_le x y -> actor_value_timestamp_leb x y = true.
Proof.
  unfold key_le, actor_value_timestamp_leb.
  intros [H|[Ha [H|[Hv Ht]]]]; apply orb_true_iff.
  - left. now apply Z.ltb_lt.
  - right. apply andb_true_iff. split; [now apply Z.eqb_eq|].
    apply orb_true_iff. left. now apply lt_ltb.
  - right. apply andb_true_iff. split; [now apply Z.eqb_eq|].
    apply orb_true_iff. right. apply andb_true_iff.
    split; [now apply String.eqb_eq | now apply Z.leb_le].
Qed.

Lemma ranked_leb_total (x y : Z * Row * Scored) :
  ranked_leb x y = false -> ranked_leb y x = true.
Proof.
  unfold ranked_leb. intros H. apply key_le_leb.
  now apply leb_key_le_total.
Qed.

Lemma ranked_leb_trans (x y z : Z * Row * Scored) :
  ranked_leb x y = true -> ranked_leb y z = true -> ranked_leb x z = true.
Proof.
  unfold ranked_leb. intros H1 H2. apply key_le_leb.
  apply (key_le_trans _ (snd (fst y))); now apply leb_key_le.
Qed.

(** A row between two rows of one actor and value is of that actor and
    value. *)
Lemma key_le_same (b z x : Row) :
  key_le b z -> key_le z x -> same_actor_value x b = true ->
  same_actor_value x z = true.
Proof.
  unfold key_le, same_actor_value. intros Hbz Hzx Hs.
  apply andb_true_iff in Hs. destruct Hs as [Ha Hv].
  apply Z.eqb_eq in Ha. apply String.eqb_eq in Hv.
  destruct Hbz as [H1|[Ha1 H1]], Hzx as [H2|[Ha2 H2]]; try lia.
  apply andb_true_iff. split; [apply Z.eqb_eq; lia|].
  apply String.eqb_eq.
  destruct H1 as [H1|[H1 _]], H2 as [H2|[H2 _]].
  - exfalso. apply (lt_irrefl (row_value x)).
    rewrite Hv at 1. now apply (String_as_OT.lt_trans _ (row_value z)).
  - exfalso. apply (lt_irrefl (row_value x)).
    rewrite Hv at 1. now rewrite <- H2.
  - exfalso. apply (lt_irrefl (row_value x)).
    rewrite Hv at 1. now rewrite H1.
  - now symmetry.
Qed.

Lemma actor_le_same (b z x : Row) :
  actor_le b z -> actor_le z x -> same_actor x b = true ->
  same_actor x z = true.
Proof.
  unfold actor_le, same_actor. intros H1 H2 H.
  apply Z.eqb_eq in H. apply Z.eqb_eq. lia.
Qed.

(** ** The merges *)

Lemma merge_left_map {L R O : Type} (on : L -> R -> bool)
    (matched : L -> R -> O) (unmatched : L -> O) (left : list L)
    (right : list R) :
  (forall l, (List.length (filter (on l) right) <= 1)%nat) ->
  merge_left on matched unmatched left right
  = map (fun l => match filter (on l) right with
                  | [] => unmatched l
                  | m :: _ => matched l m
                  end) left.
Proof.
  intros Hone. induction left as [|l rest IH]; [reflexivity|].
  rewrite merge_left_cons, IH. cbn [map]. specialize (Hone l).
  destruct (filter (on l) right) as [|m [|m' ms]]; simpl in *;
    try reflexivity; lia.
Qed.

Lemma matching_group (values : list Value) (features : list Feature)
    (v : Value) :
  In v values ->
  fa_group (matching_features values features) (value_fa v)
  = fa_group features (value_fa v).
Proof.
  intros Hv. unfold fa_group, matching_features.
  induction features as [|f rest IH]; simpl; [reflexivity|].
  destruct (fa_eqb (feature_fa f) (value_fa v)) eqn:Hk.
  - assert (He : existsb (fa_eqb (feature_fa f)) (unique_fa values) = true).
    { apply (existsb_eqb fa_eqb fa_eqb_eq). unfold unique_fa.
      apply (drop_duplicates_In fa_eqb fa_eqb_eq).
      apply fa_eqb_eq in Hk. rewrite Hk. now apply in_map. }
    rewrite He. simpl. rewrite Hk. now rewrite IH.
  - destruct (existsb _ _); simpl; [rewrite Hk|]; exact IH.
Qed.

Lemma merge_total_frame (values : list Value) (features : list Feature) :
  merge_total values (features_fa_agg (matching_features values features))
  = map (fun v => mkRow v 0 (stored_total features (value_fa v)) 0 0 0 0 0)
      values.
Proof.
  unfold merge_total. rewrite merge_left_map.
  2:{ intros v. apply (filter_key_once fa_eqb tagg_key (value_fa v));
        [exact fa_eqb_eq | apply features_fa_agg_keys]. }
  apply map_ext_in. intros v Hv.
  unfold stored_total. rewrite <- (matching_group values features v Hv).
  set (matching := matching_features values features).
  destruct (filter _ (features_fa_agg matching)) as [|a rest] eqn:Hf.
  - destruct (fa_group matching (value_fa v)) as [|f fs] eqn:Hg;
      [reflexivity|exfalso].
    assert (Hin : In f (fa_group matching (value_fa v)))
      by (rewrite Hg; now left).
    unfold fa_group in Hin. apply filter_In in Hin.
    destruct Hin as [Hin Hk]. apply fa_eqb_eq in Hk.
    assert (Ha : In (mkTotalAgg (value_fa v)
                       (Qsum (counts_of (fa_group matching (value_fa v)))))
                   (filter (fun a => fa_eqb (value_fa v) (tagg_key a))
                      (features_fa_agg matching))).
    { apply filter_In. split; [|now apply fa_eqb_eq].
      unfold features_fa_agg. apply in_map_iff. exists (value_fa v).
      split; [reflexivity|].
      apply (group_keys_In fa_eqb fa_eqb_eq). rewrite <- Hk.
      now apply in_map. }
    rewrite Hf in Ha. exact Ha.
  - assert (Ha : In a (filter (fun a => fa_eqb (value_fa v) (tagg_key a))
                         (features_fa_agg matching)))
      by (rewrite Hf; now left).
    apply filter_In in Ha. destruct Ha as [Ha Hk].
    apply fa_eqb_eq in Hk. unfold features_fa_agg in Ha.
    apply in_map_iff in Ha. destruct Ha as [key [<- _]].
    cbn [tagg_key tagg_total] in *. now subst key.
Qed.

Lemma null_values_frame (values : list Value) (features : list Feature) :
  NoDup (map feature_fav features) ->
  null_values values features
  = map (fun key => mkNullValue key (stored_count features (key, EmptyString)))
      (unique_fa values).
Proof.
  intros Hnd. unfold null_values. rewrite merge_left_map.
  2:{ intros key.
      apply (filter_key_once fav_eqb feature_fav (key, EmptyString));
        [exact fav_eqb_eq | exact Hnd]. }
  apply map_ext. intros key. unfold stored_count.
  now destruct (filter _ features).
Qed.

Lemma merge_null_frame (df : list Row) (values : list Value)
    (features : list Feature) :
  NoDup (map feature_fav features) ->
  (forall r, In r df -> In (row r) values) ->
  merge_null df (null_values values features)
  = map (fun r =>
           with_null_count
             (stored_count features (value_fa (row r), EmptyString)) r)
      df.
Proof.
  intros Hnd Hrows. unfold merge_null. rewrite merge_left_map.
  2:{ intros r. apply (filter_key_once fa_eqb null_key (value_fa (row r)));
        [exact fa_eqb_eq | now apply null_values_keys]. }
  apply map_ext_in. intros r Hr.
  rewrite (null_values_frame values features Hnd).
  set (nulls := map _ (unique_fa values)).
  destruct (filter _ nulls) as [|n rest] eqn:Hf.
  - exfalso.
    assert (Hn : In (mkNullValue (value_fa (row r))
                       (stored_count features
                          (value_fa (row r), EmptyString)))
                   (filter (fun n => fa_eqb (value_fa (row r)) (null_key n))
                      nulls)).
    { apply filter_In. split; [|now apply fa_eqb_eq].
      unfold nulls. apply in_map_iff. exists (value_fa (row r)).
      split; [reflexivity|]. unfold unique_fa.
      apply (drop_duplicates_In fa_eqb fa_eqb_eq). apply in_map.
      now apply Hrows. }
    rewrite Hf in Hn. exact Hn.
  - assert (Hn : In n (filter (fun n => fa_eqb (value_fa (row r)) (null_key n))
                         nulls))
      by (rewrite Hf; now left).
    apply filter_In in Hn. destruct Hn as [Hn Hk].
    apply fa_eqb_eq in Hk. unfold nulls in Hn.
    apply in_map_iff in Hn. destruct Hn as [key [<- _]].
    cbn [null_key null_value_count] in *. now subst key.
Qed.

Lemma merge_fav_frame (df : list Row) (features : list Feature) :
  NoDup (map feature_fav features) ->
  merge_fav df features
  = map (fun r => with_count (stored_count features (value_fav (row r))) r)
      df.
Proof.
  intros Hnd. unfold merge_fav. rewrite merge_left_map.
  2:{ intros r.
      apply (filter_key_once fav_eqb feature_fav (value_fav (row r)));
        [exact fav_eqb_eq | exact Hnd]. }
  apply map_ext. intros r. unfold stored_count.
  now destruct (filter _ features).
Qed.

(** The three merges of [Optional.__call__] give every value row its
    columns from the features table. *)
Lemma merged_frame (values : list Value) (features : list Feature) :
  NoDup (map feature_fav features) ->
  merge_fav
    (merge_null
       (merge_total values
          (features_fa_agg (matching_features values features)))
       (null_values values features))
    features
  = map (merged_row features) values.
Proof.
  intros Hnd. rewrite merge_total_frame.
  rewrite (merge_null_frame _ values features Hnd).
  2:{ intros r Hr. apply in_map_iff in Hr. now destruct Hr as [v [<- Hv]]. }
  rewrite (merge_fav_frame _ features Hnd).
  rewrite !map_map. apply map_ext. intros v. reflexivity.
Qed.


(** ** The increments *)

Lemma sorted_values_actor (values : list Value) :
  StronglySorted (fun a b => actor_id a <= actor_id b)
    (sort_values value_timestamp_leb values).
Proof.
  apply (sort_values_ordered value_timestamp_leb).
  - intros x y H. apply value_timestamp_leb_spec in H. lia.
  - intros x y H. apply value_timestamp_leb_total in H.
    apply value_timestamp_leb_spec in H. lia.
  - intros x y z. lia.
Qed.

(** [increment_total] on the merged frame: the rows in the order of
    [(actor_id, timestamp)], each with the total of its actor advanced by
    the rows of the actor before it. *)
Lemma increment_total_frame (values : list Value) (features : list Feature) :
  increment_total (map (merged_row features) values)
  = with_earlier (totalled_row features) []
      (sort_values value_timestamp_leb values).
Proof.
  unfold increment_total, reset_index.
  assert (Hs := sort_values_actor_le (map (merged_row features) values)).
  rewrite <- (sort_values_map value_timestamp_leb actor_timestamp_leb
                (merged_row features)) in * by reflexivity.
  set (sorted := sort_values value_timestamp_leb values) in *.
  rewrite (enumerate_with_earlier _ [] _ 0) by reflexivity.
  change (@nil Row) with (map (merged_row features) []).
  rewrite with_earlier_of_map.
  apply with_earlier_ext. intros pre v post Hsplit. cbn [app].
  rewrite Hsplit in Hs. rewrite Hsplit. rewrite map_app in *. cbn [map] in *.
  unfold index_minus_first. cbn [fst snd].
  rewrite (index_of_first_sorted actor_le _ _ _ _ 0 Hs
             (same_actor_refl _) (fun b z => actor_le_same b z _)).
  unfold totalled_row. f_equal. f_equal. f_equal.
  unfold actor_rows_before. rewrite filter_map_length.
  rewrite (filter_ext
             (fun x => same_actor (merged_row features v)
                         (merged_row features x))
             (fun u => (actor_id v =? actor_id u) && true))
    by (intros u; unfold same_actor, row_actor; cbn; now rewrite andb_true_r).
  lia.
Qed.

Lemma update_count_from_frame (l e : list Row) (section counter : Z) :
  StronglySorted actor_le (e ++ l) ->
  counter
  = Z.of_nat
      (List.length
         (filter (fun y => (section =? row_actor y)
                           && String.eqb (row_value y) EmptyString) e)) ->
  (forall y, In y e -> row_actor y <= section) ->
  (e = [] \/ exists y, In y e /\ row_actor y = section) ->
  update_count_from section counter l
  = with_earlier
      (fun pre x =>
         let c :=
           Z.of_nat
             (List.length
                (filter (fun y => (row_actor x =? row_actor y)
                                  && String.eqb (row_value y) EmptyString)
                   pre)) in
         if negb (c =? 0)
         then with_null_count (null_count x + inject_Z c)%Q x else x)
      e l.
Proof.
  revert e section counter.
  induction l as [|x l IH]; intros e section counter Hs Hc Hle Hlast;
    [reflexivity|].
  destruct (sorted_split _ _ _ _ Hs) as [_ [_ Hbelow]].
  unfold actor_le in Hbelow.
  assert (Hcounter :
    (if negb (row_actor x =? section) then 0 else counter)
    = Z.of_nat
        (List.length
           (filter (fun y => (row_actor x =? row_actor y)
                             && String.eqb (row_value y) EmptyString) e))).
  { destruct (row_actor x =? section) eqn:He; simpl.
    - apply Z.eqb_eq in He. now rewrite He.
    - apply Z.eqb_neq in He.
      rewrite (filter_ext_in _ (fun _ => false)).
      + clear. induction e; simpl; auto.
      + intros y Hy. destruct (row_actor x =? row_actor y) eqn:Hxy;
          [|reflexivity].
        apply Z.eqb_eq in Hxy. exfalso.
        destruct Hlast as [->|[y0 [Hy0 Hy0s]]]; [exact Hy|].
        specialize (Hbelow _ Hy0). specialize (Hle _ Hy). lia. }
  assert (Hsection :
    (if negb (row_actor x =? section) then row_actor x else section)
    = row_actor x).
  { destruct (row_actor x =? section) eqn:He; simpl; [|reflexivity].
    now apply Z.eqb_eq in He. }
  cbn [update_count_from with_earlier]. cbv zeta.
  rewrite Hsection, Hcounter. f_equal.
  apply IH.
  - now rewrite <- app_assoc.
  - rewrite filter_app, length_app. cbn [filter].
    rewrite Z.eqb_refl. cbn [andb].
    destruct (String.eqb (row_value x) EmptyString); cbn [List.length]; lia.
  - intros y Hy. apply in_app_or in Hy. destruct Hy as [Hy|[<-|[]]];
      [now apply Hbelow | lia].
  - right. exists x. split; [|reflexivity].
    apply in_or_app. right. now left.
Qed.

Lemma totalled_rows (features : list Feature) (e l : list Value) :
  map row (with_earlier (totalled_row features) e l) = l.
Proof.
  rewrite with_earlier_map. cbn [totalled_row with_total row].
  rewrite (with_earlier_const (fun x => x)). apply map_id.
Qed.

(** [_update_count] after [increment_total]. *)
Lemma update_count_frame (values : list Value) (features : list Feature) :
  update_count
    (with_earlier (totalled_row features) []
       (sort_values value_timestamp_leb values))
  = with_earlier (counted_row features) []
      (sort_values value_timestamp_leb values).
Proof.
  unfold update_count.
  rewrite (update_count_from_frame _ [] (-1) 0).
  - rewrite (with_earlier_compose (totalled_row features) _ []).
    apply with_earlier_ext. intros pre v post _. cbn [app].
    unfold counted_row, actor_rows_before. cbv zeta.
    rewrite (filter_rows_length
               (fun u => (actor_id v =? actor_id u)
                         && String.eqb (value u) EmptyString)).
    now rewrite totalled_rows.
  - cbn [app]. apply (StronglySorted_map (fun a b => actor_id a <= actor_id b) row).
    rewrite totalled_rows. apply sorted_values_actor.
  - reflexivity.
  - intros y [].
  - now left.
Qed.


(** The working frame of [Optional.__call__] before [increment_count]. *)
Lemma Optional_frame_counted (values : list Value)
    (features : list Feature) :
  NoDup (map feature_fav features) ->
  Optional_frame values features
  = increment_count
      (with_earlier (counted_row features) []
         (sort_values value_timestamp_leb values)).
Proof.
  intros Hnd. unfold Optional_frame. cbv zeta.
  now rewrite merged_frame, increment_total_frame, update_count_frame.
Qed.

Lemma counted_row_row (features : list Feature) (e : list Value)
    (v : Value) :
  row (counted_row features e v) = v.
Proof. unfold counted_row. cbv zeta. now destruct (negb _). Qed.

Lemma counted_row_count (features : list Feature) (e : list Value)
    (v : Value) :
  count (counted_row features e v) = stored_count features (value_fav v).
Proof. unfold counted_row. cbv zeta. now destruct (negb _). Qed.

Lemma counted_row_total (features : list Feature) (e : list Value)
    (v : Value) :
  total (counted_row features e v)
  = (stored_total features (value_fa v)
     + inject_Z (actor_rows_before (fun _ => true) v e))%Q.
Proof. unfold counted_row. cbv zeta. now destruct (negb _). Qed.

Lemma counted_row_null_count (features : list Feature) (e : list Value)
    (v : Value) :
  (null_count (counted_row features e v)
   == stored_count features (value_fa v, EmptyString)
      + inject_Z
          (actor_rows_before (fun u => String.eqb (value u) EmptyString) v
             e))%Q.
Proof.
  unfold counted_row. cbv zeta.
  destruct (actor_rows_before _ v e =? 0) eqn:Hc; simpl.
  - apply Z.eqb_eq in Hc. rewrite Hc. now rewrite Qplus_0_r.
  - reflexivity.
Qed.

Lemma ranked_rows (weight : Q) (features : list Feature) (e l : list Value) :
  map (fun t => row (snd (fst t)))
    (with_earlier (ranked_row weight features) e l) = l.
Proof.
  rewrite with_earlier_map. cbn [ranked_row fst snd].
  rewrite (with_earlier_ext _ (fun _ x => x))
    by (intros; apply counted_row_row).
  rewrite (with_earlier_const (fun x => x)). apply map_id.
Qed.

Lemma ranked_frame (weight : Q) (features : list Feature)
    (e l : list Value) :
  map (fun t => snd (fst t)) (with_earlier (ranked_row weight features) e l)
  = with_earlier (counted_row features) e l.
Proof. now rewrite with_earlier_map. Qed.

Lemma ranked_scored (weight : Q) (features : list Feature)
    (e l : list Value) :
  map snd (with_earlier (ranked_row weight features) e l)
  = with_earlier (Optional_row weight features) e l.
Proof. now rewrite with_earlier_map. Qed.

Lemma ranked_In (weight : Q) (features : list Feature) (l : list Value)
    (t : Z * Row * Scored) :
  In t (with_earlier (ranked_row weight features) [] l) ->
  exists pre v post,
    l = pre ++ v :: post /\ t = ranked_row weight features pre v.
Proof.
  intros Hin. apply in_split in Hin. destruct Hin as [l1 [l2 Hsplit]].
  apply with_earlier_split in Hsplit.
  destruct Hsplit as [pre [v [post [Hl [Ht _]]]]].
  now exists pre, v, post.
Qed.

Lemma stored_count_nonneg (features : list Feature) (key : Z * Z * string) :
  (forall f, In f features -> 0 <= f_count f) ->
  (0 <= stored_count features key)%Q.
Proof.
  intros Hpos. unfold stored_count.
  destruct (filter _ features) as [|f rest] eqn:Hf; [apply Qle_refl|].
  assert (Hin : In f (filter (fun f => fav_eqb key (feature_fav f)) features))
    by (rewrite Hf; now left).
  apply filter_In in Hin.
  change 0%Q with (inject_Z 0). rewrite <- Zle_Qle. now apply Hpos.
Qed.

(** In a batch of one field the rows of a [(field_id, actor_id)] are the
    rows of the actor. *)
Lemma rows_before_actor (p q : Value -> bool) (v : Value)
    (earlier : list Value) :
  (forall u, In u earlier -> field_id u = field_id v) ->
  (forall u, p u = q u) ->
  rows_before p v earlier = inject_Z (actor_rows_before q v earlier).
Proof.
  intros Hfield Hpq. unfold rows_before, actor_rows_before.
  do 3 f_equal. apply filter_ext_in. intros u Hu.
  unfold fa_eqb, value_fa. cbn [fst snd].
  rewrite (Hfield u Hu), Z.eqb_refl, Hpq. cbn [andb].
  now rewrite Z.eqb_sym.
Qed.

Lemma Optional_score_spec_compat (weight : Q) (s : string)
    (c c' t t' n n' : Q) :
  (c == c')%Q -> (t == t')%Q -> (n == n')%Q ->
  (Optional_score_spec weight s c t n
   == Optional_score_spec weight s c' t' n')%Q.
Proof.
  intros Hc Ht Hn. unfold Optional_score_spec, Qlt_bool.
  assert (H1 : Qle_bool c 0 = Qle_bool c' 0) by now rewrite Hc.
  assert (H2 : Qeq_bool c 0 = Qeq_bool c' 0) by now rewrite Hc.
  assert (H3 : Qeq_bool t 0 = Qeq_bool t' 0) by now rewrite Ht.
  rewrite H1, H2, H3.
  destruct (String.eqb s EmptyString); [reflexivity|].
  destruct (negb (Qle_bool c' 0)); [reflexivity|].
  destruct (Qeq_bool c' 0 && Qeq_bool t' 0); [reflexivity|].
  now rewrite Hn, Ht.
Qed.


(** ** The rank of a row among the rows of its actor and value *)

Lemma ranked_row_same (weight : Q) (features : list Feature)
    (pre : list Value) (v : Value) (t' : Z * Row * Scored) :
  same_actor_value (snd (fst (ranked_row weight features pre v)))
    (snd (fst t'))
  = (actor_id v =? actor_id (row (snd (fst t'))))
    && String.eqb (value v) (value (row (snd (fst t')))).
Proof.
  unfold same_actor_value, row_actor, row_value. cbn [ranked_row fst snd].
  now rewrite counted_row_row.
Qed.

(** The rows of one actor and value are, in the frame sorted by
    [(actor_id, timestamp)], in the order of
    [(actor_id, value, timestamp)]. *)
Lemma group_is_sorted (weight : Q) (features : list Feature)
    (values : list Value) (p : Z * Row * Scored -> bool) (x : Row) :
  (forall t, p t = same_actor_value x (snd (fst t))) ->
  StronglySorted (fun a b => ranked_leb a b = true)
    (filter p
       (with_earlier (ranked_row weight features) []
          (sort_values value_timestamp_leb values))).
Proof.
  intros Hp.
  set (LT := with_earlier _ _ _).
  assert (Hs : StronglySorted
                 (fun a b =>
                    value_timestamp_leb (row (snd (fst a)))
                      (row (snd (fst b))) = true) LT).
  { apply (StronglySorted_map
             (fun a b => value_timestamp_leb a b = true)
             (fun t => row (snd (fst t)))).
    unfold LT. rewrite ranked_rows.
    apply (sort_values_below value_timestamp_leb
             value_timestamp_leb_total value_timestamp_leb_trans). }
  apply (StronglySorted_filter _ p) in Hs.
  revert Hs. apply StronglySorted_weaken.
  intros a b Ha Hb Hab.
  apply filter_In in Ha. destruct Ha as [_ Ha].
  apply filter_In in Hb. destruct Hb as [_ Hb].
  rewrite Hp in Ha, Hb. unfold same_actor_value in Ha, Hb.
  apply andb_true_iff in Ha. destruct Ha as [Ha1 Ha2].
  apply andb_true_iff in Hb. destruct Hb as [Hb1 Hb2].
  apply Z.eqb_eq in Ha1, Hb1. apply String.eqb_eq in Ha2, Hb2.
  apply value_timestamp_leb_spec in Hab.
  unfold ranked_leb. apply key_le_leb. unfold key_le.
  unfold row_actor, row_value, row_timestamp in *.
  right. split; [lia|]. right. split; [congruence | lia].
Qed.

(** The rank that a row carries from the frame sorted by
    [(actor_id, timestamp)] is its rank in the frame sorted by
    [(actor_id, value, timestamp)]. *)
Lemma rank_is_kept (weight : Q) (features : list Feature)
    (values : list Value) (preT postT : list (Z * Row * Scored))
    (t : Z * Row * Scored) :
  sort_values ranked_leb
    (with_earlier (ranked_row weight features) []
       (sort_values value_timestamp_leb values))
  = preT ++ t :: postT ->
  fst (fst t)
  = Z.of_nat
      (List.length
         (filter (same_actor_value (snd (fst t)))
            (map (fun t' => snd (fst t')) preT))).
Proof.
  intros HST.
  set (LT := with_earlier _ _ _) in HST.
  set (p := fun t' : Z * Row * Scored =>
              same_actor_value (snd (fst t)) (snd (fst t'))).
  rewrite filter_map_length. fold p.
  assert (Hgroup : filter p LT = filter p preT ++ t :: filter p postT).
  { rewrite <- (sort_values_sorted ranked_leb (filter p LT))
      by (apply (group_is_sorted _ _ _ p (snd (fst t))); reflexivity).
    rewrite <- (filter_sort_values ranked_leb ranked_leb_total
                  ranked_leb_trans).
    rewrite HST, filter_app. cbn [filter]. unfold p at 2.
    now rewrite same_actor_value_refl. }
  rewrite (ranks_of_group p (fun t' => fst (fst t')) LT 0)
    with (g1 := filter p preT) (x := t) (g2 := filter p postT);
    [lia | | exact Hgroup].
  intros preL y postL HLT Hy.
  unfold LT in HLT. apply with_earlier_split in HLT.
  destruct HLT as [pre' [v' [post' [_ [-> ->]]]]]. cbn [app] in *.
  assert (Ht : In t LT).
  { apply (sort_values_In ranked_leb). rewrite HST.
    apply in_or_app. right. now left. }
  apply ranked_In in Ht. destruct Ht as [pre [v [post [_ Ht]]]].
  unfold p in *. rewrite Ht in *.
  rewrite ranked_row_same in Hy.
  cbn [ranked_row fst snd] in Hy. rewrite counted_row_row in Hy.
  apply andb_true_iff in Hy. destruct Hy as [Hy1 Hy2].
  apply Z.eqb_eq in Hy1. apply String.eqb_eq in Hy2.
  rewrite (filter_ext _
             (fun t' =>
                (fun u => (actor_id v' =? actor_id u)
                          && String.eqb (value v') (value u))
                  (row (snd (fst t')))))
    by (intros t'; rewrite ranked_row_same; now rewrite Hy1, Hy2).
  rewrite <- (filter_map_length
                (fun u => (actor_id v' =? actor_id u)
                          && String.eqb (value v') (value u))
                (fun t' : Z * Row * Scored => row (snd (fst t')))
                (with_earlier (ranked_row weight features) [] pre')).
  rewrite ranked_rows. cbn [ranked_row fst]. unfold actor_rows_before. lia.
Qed.


Lemma ranked_keys (weight : Q) (features : list Feature) (l : list Value)
    (x y : Z * Row * Scored) :
  In x (with_earlier (ranked_row weight features) [] l) ->
  In y (with_earlier (ranked_row weight features) [] l) ->
  ranked_leb x y = scored_leb (snd x) (snd y).
Proof.
  intros Hx Hy.
  apply ranked_In in Hx. destruct Hx as [px [vx [qx [_ ->]]]].
  apply ranked_In in Hy. destruct Hy as [py [vy [qy [_ ->]]]].
  unfold ranked_leb, actor_value_timestamp_leb, scored_leb, row_actor,
    row_value, row_timestamp.
  cbn [ranked_row Optional_row fst snd s_row].
  now rewrite !counted_row_row.
Qed.

(** C3. [Optional.__call__] on the rows of one field, with a features
    table that holds each [(field_id, actor_id, value)] once and no
    negative count, returns what scoring the batch row at a time returns:
    the rows taken in the order of [(actor_id, timestamp)], each scored on
    [count] (the features count of its [(field_id, actor_id, value)] plus
    the earlier rows of the batch with its actor and value), [total] (the
    sum of the features counts of its [(field_id, actor_id)] plus the
    earlier rows of the batch of its actor) and [null_count] (the
    features count of [''] for its [(field_id, actor_id)] plus the earlier
    rows of the batch of its actor with the value ['']): score 0 when the
    value is the empty string; otherwise [weight * 0] when [count > 0],
    [weight * 1] when [count == 0] and [total == 0], and
    [weight * (null_count / total)] otherwise. The frame returned is in
    the order of [(actor_id, value, timestamp)]. The three columns hold
    whole numbers, so the tests are exact; the quotient is the exact one,
    which the code rounds to a double. *)
Theorem Optional_scores_row_at_a_time :
  forall (weight : Q) (values : list Value) (features : list Feature),
    NoDup (map feature_fav features) ->
    (forall f, In f features -> 0 <= f_count f) ->
    (forall u v, In u values -> In v values -> field_id u = field_id v) ->
    Forall2
      (fun out ref =>
         s_row out = s_row ref /\ (s_score out == s_score ref)%Q)
      (Optional_call weight values features)
      (Optional_in_order weight values features).
Proof.
  intros weight values features Hnd Hpos Hfield.
  unfold Optional_call, Optional_in_order.
  rewrite (Optional_frame_counted _ _ Hnd).
  set (sorted := sort_values value_timestamp_leb values).
  rewrite <- (ranked_frame weight features [] sorted).
  rewrite <- (ranked_scored weight features [] sorted).
  unfold increment_count, reset_index.
  assert (Hkey :=
    increment_count_sorted
      (map (fun t => snd (fst t))
         (with_earlier (ranked_row weight features) [] sorted))).
  rewrite <- (sort_values_map ranked_leb actor_value_timestamp_leb
                (fun t => snd (fst t))) in * by reflexivity.
  rewrite <- (sort_values_map ranked_leb scored_leb snd)
    by (intros x y; apply ranked_keys).
  assert (Hrank := rank_is_kept weight features values).
  assert (Hin := fun t =>
    proj1 (sort_values_In ranked_leb
             (with_earlier (ranked_row weight features) [] sorted) t)).
  fold sorted in Hrank.
  set (ST := sort_values ranked_leb _) in *.
  rewrite !map_map.
  rewrite (enumerate_with_earlier _ [] _ 0) by reflexivity.
  change (@nil Row) with (map (fun t : Z * Row * Scored => snd (fst t)) []).
  rewrite with_earlier_of_map.
  rewrite <- (with_earlier_const snd [] ST).
  apply Forall2_with_earlier. intros preT t postT HST. cbn [app].
  specialize (Hrank preT postT t HST).
  assert (Ht : In t ST)
    by (rewrite HST; apply in_or_app; right; now left).
  apply Hin in Ht. apply ranked_In in Ht.
  destruct Ht as [pre [v [post [Hsorted Ht]]]].
  rewrite HST, map_app in Hkey. cbn [map] in Hkey.
  unfold index_minus_first. cbn [fst snd]. rewrite HST, map_app. cbn [map].
  rewrite (index_of_first_sorted key_le _ _ _ _ 0 Hkey
             (same_actor_value_refl _) (fun b z => key_le_same b z _)).
  rewrite <- Hrank.
  match goal with
  | |- context [inject_Z ?z] =>
      replace z with (fst (fst t)) by lia
  end.
  subst t. cbn [ranked_row fst snd Optional_row s_row s_score drop_columns].
  assert (Hpre : forall u, In u pre -> field_id u = field_id v).
  { assert (Hsub : forall u, In u sorted -> In u values)
      by (intros u; apply sort_values_In).
    intros u Hu. apply Hfield; apply Hsub; rewrite Hsorted;
      apply in_or_app; [now left | right; now left]. }
  split.
  - unfold Optional_set_score. cbn [with_score with_count row].
    apply counted_row_row.
  - rewrite Optional_set_score_spec.
    + unfold row_value. cbn [with_count row count total null_count].
      rewrite counted_row_row, counted_row_count, counted_row_total.
      apply Optional_score_spec_compat.
      * rewrite (rows_before_actor _
                   (fun u => String.eqb (value v) (value u)) v pre Hpre)
          by (intros u; apply String.eqb_sym).
        reflexivity.
      * rewrite (rows_before_actor _ (fun _ => true) v pre Hpre)
          by reflexivity.
        reflexivity.
      * rewrite counted_row_null_count.
        rewrite (rows_before_actor _
                   (fun u => String.eqb (value u) EmptyString) v pre Hpre)
          by reflexivity.
        reflexivity.
    + cbn [with_count count]. rewrite counted_row_count.
      assert (H1 := stored_count_nonneg features (value_fav v) Hpos).
      assert (H2 : (0 <= inject_Z
                           (actor_rows_before
                              (fun u => String.eqb (value v) (value u)) v
                              pre))%Q).
      { change 0%Q with (inject_Z 0). rewrite <- Zle_Qle.
        unfold actor_rows_before. lia. }
      lra.
Qed.

Lemma Optional_scores_row_at_a_time_witness :
  NoDup (map feature_fav optional_features)
  /\ (forall f, In f optional_features -> 0 <= f_count f)
  /\ (forall u v, In u optional_batch -> In v optional_batch ->
                  field_id u = field_id v)
  /\ Forall2
       (fun out ref =>
          s_row out = s_row ref /\ (s_score out == s_score ref)%Q)
       (Optional_call 1 optional_batch optional_features)
       (Optional_in_order 1 optional_batch optional_features).
Proof.
  assert (Hnd : NoDup (map feature_fav optional_features)).
  { repeat constructor; simpl; intuition discriminate. }
  assert (Hpos : forall f, In f optional_features -> 0 <= f_count f).
  { intros f [<-|[<-|[]]]; simpl; lia. }
  assert (Hfield : forall u v, In u optional_batch -> In v optional_batch ->
                               field_id u = field_id v).
  { intros u v [<-|[<-|[<-|[]]]] [<-|[<-|[<-|[]]]]; reflexivity. }
  repeat split; try assumption.
  exact (Optional_scores_row_at_a_time 1 optional_batch optional_features
           Hnd Hpos Hfield).
Defined.

(** The batch of the witness: the empty value scores 0, the first
    ["goodbye"] scores (2 + 1)/(3 + 2), the ["hello"] that the features
    hold scores 0. *)
Example Optional_in_order_scenario :
  map (fun out => (value (s_row out), Qred (s_score out)))
    (Optional_in_order 1 optional_batch optional_features)
  = [(EmptyString, 0%Q); (quoted "goodbye", (3 # 5)%Q);
     (quoted "hello", 0%Q)]
  /\ map (fun out => (value (s_row out), Qred (s_score out)))
       (Optional_call 1 optional_batch optional_features)
     = [(EmptyString, 0%Q); (quoted "goodbye", (3 # 5)%Q);
        (quoted "hello", 0%Q)].
Proof. split; vm_compute; reflexivity. Qed.


End ReportersInOrderFacts.

Module ProfileProcess.
Import Py Frames Profile FramesFacts ProfileFacts ReportersRows.

(** Facts about [Profile.identify] and [Profile.process] of
    [profile/base.py]. *)

(** ** [identify] *)

Lemma field_rows_In (self : Profile) (message : Message.Message)
    (actor_name name : string) (v : Value) :
  In (name, v) (field_rows self message actor_name) <->
  name = actor_name
  /\ exists field,
       In field (fields self)
       /\ get_field_value field message = Ok (value v)
       /\ v = mkValue (profile_model_id self) (Message.id message)
                (Message.timestamp message) 0 (model_id field) (value v).
Proof.
  unfold field_rows. rewrite in_flat_map. split.
  - intros [field [Hf Hin]].
    destruct (get_field_value field message) as [s|e] eqn:Hv;
      [|destruct Hin].
    destruct Hin as [Hin|[]]. inversion Hin; subst. split; [reflexivity|].
    exists field. cbn [value]. now repeat split.
  - intros [-> [field [Hf [Hv Heq]]]]. exists field. split; [exact Hf|].
    rewrite Hv. left. now rewrite Heq at 2.
Qed.

(** X8. [identify] yields a row exactly for each message of the batch
    that matches the profile and whose actor name is obtained, and each
    field of the profile whose value is obtained from that message; the
    row carries that actor name, the id and timestamp of the message, the
    profile id, the field id and the value. A message that does not
    match, or whose actor raises, yields nothing; a field whose value
    raises loses only its own row. The rows of a batch are those of its
    parts: [identify] of two batches, one after the other, is what
    [identify] gives for each. *)
Theorem identify_rows :
  forall (self : Profile) (messages more : list Message.Message)
         (name : string) (v : Value),
    (In (name, v) (identify self messages) <->
     exists message field,
       In message messages
       /\ matches self message = true
       /\ get_actor_name self message = Ok name
       /\ In field (fields self)
       /\ get_field_value field message = Ok (value v)
       /\ v = mkValue (profile_model_id self) (Message.id message)
                (Message.timestamp message) 0 (model_id field) (value v))
    /\ identify self (messages ++ more)
       = identify self messages ++ identify self more.
Proof.
  intros self messages more name v. split.
  - unfold identify. rewrite in_flat_map. split.
    + intros [message [Hm Hin]].
      destruct (matches self message) eqn:Hmatch; [|destruct Hin].
      destruct (get_actor_name self message) as [actor|e] eqn:Ha;
        [|destruct Hin].
      apply field_rows_In in Hin. destruct Hin as [-> [field Hfield]].
      exists message, field. tauto.
    + intros [message [field [Hm [Hmatch [Ha Hfield]]]]].
      exists message. split; [exact Hm|]. rewrite Hmatch, Ha.
      apply field_rows_In. split; [reflexivity|]. now exists field.
  - unfold identify. apply flat_map_app.
Qed.

(** ** [process] *)

Lemma filter_disjoint_perm {A : Type} (p q : A -> bool) (l : list A) :
  (forall x, p x = true -> q x = true -> False) ->
  Permutation (filter p l ++ filter q l) (filter (fun x => p x || q x) l).
Proof.
  intros Hpq. induction l as [|a rest IH]; simpl; [constructor|].
  destruct (p a) eqn:Hp; destruct (q a) eqn:Hq; simpl.
  - exfalso. exact (Hpq a Hp Hq).
  - now constructor.
  - apply Permutation_sym. apply Permutation_cons_app.
    now apply Permutation_sym.
  - exact IH.
Qed.

(** The groups of [groupby('field_id')] hold every row once. *)
Lemma field_groups_partition (values : list Value) (keys : list Z) :
  NoDup keys ->
  Permutation
    (flat_map (fun key => filter (fun v => field_id v =? key) values) keys)
    (filter (fun v => existsb (Z.eqb (field_id v)) keys) values).
Proof.
  induction keys as [|key rest IH]; intros Hnd; cbn [flat_map existsb].
  - induction values as [|v values IHv]; [constructor | exact IHv].
  - inversion Hnd as [|? ? Hnotin Hrest]; subst.
    eapply Permutation_trans.
    + apply Permutation_app_head. exact (IH Hrest).
    + apply filter_disjoint_perm. intros v Hk Hin.
      apply Z.eqb_eq in Hk. apply existsb_exists in Hin.
      destruct Hin as [k [Hin He]]. apply Z.eqb_eq in He.
      apply Hnotin. congruence.
Qed.

Lemma update_feature_count_keeps (values : list Value)
    (features : list Feature) (f : Feature) :
  In f features ->
  exists f', In f' (update_feature_count values features)
             /\ feature_id f' = feature_id f
             /\ feature_fav f' = feature_fav f
             /\ f_count f <= f_count f'.
Proof.
  intros Hf. unfold update_feature_count.
  destruct (grouped_count (grouped values) (feature_fav f)) as [c|] eqn:Hc.
  - exists (mkFeature (feature_id f) (f_field_id f) (f_actor_id f)
              (f_value f) (f_count f + c)).
    split.
    + apply in_or_app. left. apply in_map_iff. exists f.
      rewrite Hc. now split.
    + apply grouped_count_Some, grouped_In in Hc. destruct Hc as [_ ->].
      pose proof (nunique_nonnegative values (feature_fav f)).
      cbn. repeat split; lia.
  - exists f. split.
    + apply in_or_app. left. apply in_map_iff. exists f.
      rewrite Hc. now split.
    + repeat split; lia.
Qed.

Lemma process_groups_ok (self : Profile) (values : list Value) :
  forall (keys : list Z) (features : list Feature),
    NoDup (map feature_fav features) ->
    (forall key, In key keys -> exists pf, by_id (fields self) key = Ok pf) ->
    exists results features',
      process_groups self values keys features = Ok (results, features')
      /\ List.length results = List.length keys
      /\ Permutation (map Reporters.s_row (List.concat results))
           (flat_map (fun key => filter (fun v => field_id v =? key) values)
              keys)
      /\ NoDup (map feature_fav features')
      /\ (forall f, In f features ->
            exists f', In f' features'
                       /\ feature_id f' = feature_id f
                       /\ feature_fav f' = feature_fav f
                       /\ f_count f <= f_count f').
Proof.
  induction keys as [|key rest IH]; intros features Hnd Hfields;
    cbn [process_groups flat_map].
  - exists [], features. split; [reflexivity|]. split; [reflexivity|].
    split; [constructor|].
    split; [exact Hnd|]. intros f Hf. exists f. repeat split; [exact Hf | lia].
  - destruct (Hfields key (or_introl eq_refl)) as [pf Hpf]. rewrite Hpf.
    cbn [bind].
    set (group := filter (fun v => field_id v =? key) values).
    destruct (IH (update_feature_count group features)
                (update_feature_count_NoDup group features Hnd)
                (fun k Hk => Hfields k (or_intror Hk)))
      as [results [features' [Hrest [Hlen [Hperm [Hnd' Hkeep]]]]]].
    rewrite Hrest. cbn [bind fst snd].
    exists (reporter_call (reporter pf) group features :: results), features'.
    split; [reflexivity|]. split; [cbn [List.length]; now rewrite Hlen|].
    split; [|split; [exact Hnd'|]].
    + cbn [List.concat]. rewrite map_app.
      apply Permutation_app; [|exact Hperm].
      now apply reporter_call_rows.
    + intros f Hf.
      destruct (update_feature_count_keeps group features f Hf)
        as [f1 [Hf1 [Hid1 [Hkey1 Hle1]]]].
      destruct (Hkeep f1 Hf1) as [f2 [Hf2 [Hid2 [Hkey2 Hle2]]]].
      exists f2. split; [exact Hf2|]. repeat split; try congruence. lia.
Qed.

Lemma by_id_raises (fs : list ProfileField) (key : Z) (e : exn) :
  by_id fs key = Raise e -> e = KeyError [].
Proof.
  induction fs as [|f rest IH]; simpl.
  - now inversion 1.
  - destruct (model_id f =? key); [discriminate | exact IH].
Qed.

Lemma process_groups_raises (self : Profile) (values : list Value)
    (key : Z) :
  by_id (fields self) key = Raise (KeyError []) ->
  forall (keys : list Z) (features : list Feature),
    In key keys ->
    process_groups self values keys features = Raise (KeyError []).
Proof.
  intros Hkey. induction keys as [|k rest IH]; intros features Hin;
    [destruct Hin|]. cbn [process_groups].
  destruct (by_id (fields self) k) as [pf|e] eqn:Hk; cbn [bind].
  - destruct Hin as [->|Hin]; [congruence|].
    now rewrite (IH _ Hin).
  - now rewrite (by_id_raises _ _ _ Hk).
Qed.

(** X9. [process] scores every row once and keeps the features
    consistent, and it raises on a frame without rows. When the features
    hold each key once and every [field_id] of the values is a field of
    the profile: for values that are not empty [process] returns; the
    value rows of the scored frame are the values, reordered; the
    returned features hold each key once; and every feature given is
    still there, with its id and key, and a count that is not smaller.
    For an empty frame of values there is no group and no result, and
    [pa.concat] of no frame raises [ValueError]. *)
Theorem process_scores_every_row :
  forall (self : Profile) (values : list Value) (features : list Feature),
    NoDup (map feature_fav features) ->
    (forall v, In v values ->
               exists pf, by_id (fields self) (field_id v) = Ok pf) ->
    (values = [] -> process self values features = Raise ValueError)
    /\ (values <> [] ->
        exists scored features',
          process self values features = Ok (scored, features')
          /\ Permutation (map Reporters.s_row scored) values
          /\ NoDup (map feature_fav features')
          /\ (forall f, In f features ->
                exists f', In f' features'
                           /\ feature_id f' = feature_id f
                           /\ feature_fav f' = feature_fav f
                           /\ f_count f <= f_count f')).
Proof.
  intros self values features Hnd Hfields. split.
  - intros ->. reflexivity.
  - intros Hvalues. unfold process.
    set (keys := group_keys Z.leb Z.eqb (map field_id values)).
    assert (Hkeys : forall key, In key keys <-> In key (map field_id values)).
    { intros key. apply (group_keys_In Z.eqb Z.eqb_eq). }
    destruct (process_groups_ok self values keys features Hnd)
      as [results [features' [Hp [Hlen [Hperm Hrest]]]]].
    { intros key Hk. apply Hkeys in Hk. apply in_map_iff in Hk.
      destruct Hk as [v [<- Hv]]. now apply Hfields. }
    rewrite Hp. cbn [bind fst snd].
    destruct results as [|result results].
    { exfalso. destruct values as [|v rest]; [congruence|].
      assert (Hin : In (field_id v) keys).
      { apply Hkeys. now left. }
      destruct keys; [destruct Hin | discriminate]. }
    cbn [concat_results bind].
    exists (List.concat (result :: results)), features'.
    split; [reflexivity|]. split; [|exact Hrest].
    eapply Permutation_trans; [exact Hperm|].
    eapply Permutation_trans.
    + apply field_groups_partition. apply (group_keys_NoDup Z.eqb Z.eqb_eq).
    + rewrite filter_all; [apply Permutation_refl|].
      intros v Hv. apply existsb_exists. exists (field_id v).
      split; [|apply Z.eqb_refl]. apply Hkeys. now apply in_map.
Qed.

Lemma process_scores_every_row_witness :
  exists scored features',
    process Pipeline.example_profile
      [mkValue 1 10 1 1 1 (quoted "hello"); mkValue 1 11 2 1 1 (quoted "bye")]
      Reporters.drift_features
    = Ok (scored, features')
    /\ Permutation (map Reporters.s_row scored)
         [mkValue 1 10 1 1 1 (quoted "hello");
          mkValue 1 11 2 1 1 (quoted "bye")]
    /\ NoDup (map feature_fav features')
    /\ (forall f, In f Reporters.drift_features ->
          exists f', In f' features'
                     /\ feature_id f' = feature_id f
                     /\ feature_fav f' = feature_fav f
                     /\ f_count f <= f_count f').
Proof.
  apply (process_scores_every_row Pipeline.example_profile).
  - repeat constructor. simpl. tauto.
  - intros v [<-|[<-|[]]]; eexists; reflexivity.
  - discriminate.
Defined.

(** X10. [process] raises the [KeyError] of [fields.by_id[field_id]] as
    soon as one value of the frame has a [field_id] that is no field of
    the profile: no scored frame is returned for the other groups
    either. *)
Theorem process_unknown_field_raises :
  forall (self : Profile) (values : list Value) (features : list Feature)
         (v : Value) (e : exn),
    In v values ->
    by_id (fields self) (field_id v) = Raise e ->
    process self values features = Raise (KeyError []).
Proof.
  intros self values features v e Hv He.
  pose proof (by_id_raises _ _ _ He) as ->.
  unfold process.
  rewrite (process_groups_raises self values (field_id v) He);
    [reflexivity|].
  apply (group_keys_In Z.eqb Z.eqb_eq). now apply in_map.
Qed.

Lemma process_unknown_field_raises_witness :
  process Pipeline.example_profile
    [mkValue 1 10 1 1 1 (quoted "hello"); mkValue 1 11 2 1 7 (quoted "bye")]
    []
  = Raise (KeyError []).
Proof.
  apply (process_unknown_field_raises Pipeline.example_profile _ []
           (mkValue 1 11 2 1 7 (quoted "bye")) (KeyError [])).
  - right. left. reflexivity.
  - reflexivity.
Defined.

End ProfileProcess.

Module Reporters64Facts.
Import Frames Binary64 Reporters64.

Local Open Scope float_scope.

(** C1. The mean [Mandatory.__call__] compares the count with is not the
    mean of the counts, and the score depends on how the messages are
    batched.

    The mixed batch: the features hold ["hello"] twice and ["hi"] once;
    the batch holds two ["hi"], then a ["hello"]. At the last row the
    columns are [groups] 2, [total] 5 and [count] 2, so the mean of the
    counts is 5 / 2 = 2.5 and the count is below it: the score of the
    claim is 1 - 2/5 = 0.6. The reporter has advanced its mean from
    [previous_mean] with this row's count only, to 1.5, and returns 0.
    The same message scored in a cycle of its own, on the features as the
    two earlier rows leave them, gets 0.6.

    The batch on the boundary: the features hold ["hello"] four times and
    six other values nine times each; the batch holds six ["hello"]. At
    the last row [groups] is 7, [total] 63 and [count] 9: the count is
    the mean, and the score of the claim is 0. The reporter computes
    [previous_mean] as 9.0000000000000018 from the rounded mean 58 / 7,
    its mean stays there, the count is below it, and it returns
    1 - 9/63 = 0.857. In a cycle of its own the row gets 0. *)
Theorem Mandatory_mean_is_not_the_mean_of_counts :
  map (fun r => (groups r, total r, count r, mean r))
    (Mandatory_frame mixed_batch mixed_features)
  = [(2%Z, 3%Z, 1%Z, 1.5); (2%Z, 4%Z, 2%Z, 2); (2%Z, 5%Z, 2%Z, 1.5)]
  /\ map s_score (Mandatory_call 1 mixed_batch mixed_features)
     = [0.66666666666666674; 0; 0]
  /\ of_Z 5 / of_Z 2 = 2.5
  /\ (Reporters.Mandatory_score_spec 1 (value mixed_last) 2 (5 # 2) 5
      == 3 # 5)%Q
  /\ map s_score
       (Mandatory_call 1 [mixed_last]
          (Profile.update_feature_count mixed_earlier mixed_features))
     = [0.6]
  /\ map (fun r => (groups r, total r, count r, mean r))
       (Mandatory_frame boundary_batch boundary_features)
     = [(7%Z, 58%Z, 4%Z, 8.2857142857142865);
        (7%Z, 59%Z, 5%Z, 8.4285714285714306);
        (7%Z, 60%Z, 6%Z, 8.571428571428573);
        (7%Z, 61%Z, 7%Z, 8.7142857142857153);
        (7%Z, 62%Z, 8%Z, 8.8571428571428594);
        (7%Z, 63%Z, 9%Z, 9.0000000000000018)]
  /\ map s_score (Mandatory_call 1 boundary_batch boundary_features)
     = [0.93103448275862066; 0.9152542372881356; 0.9;
        0.88524590163934425; 0.87096774193548387; 0.85714285714285721]
  /\ of_Z 63 / of_Z 7 = 9
  /\ (Reporters.Mandatory_score_spec 1 (value boundary_last) 9 (63 # 7) 63
      == 0)%Q
  /\ map s_score
       (Mandatory_call 1 [boundary_last]
          (Profile.update_feature_count boundary_earlier boundary_features))
     = [0].
Proof. repeat split; vm_compute; reflexivity. Qed.

End Reporters64Facts.

(** * Facts about [profile/analyzers.py] *)

Module AnalyzersFacts.
Import Frames Analyzers FramesFacts.

Local Open Scope Q_scope.

Lemma filter_eqb_NoDup (l : list Z) (x : Z) :
  NoDup l -> In x l -> filter (fun y => (x =? y)%Z) l = [x].
Proof.
  induction l as [|y rest IH]; intros Hnd Hin; [destruct Hin|].
  inversion Hnd as [|? ? Hn Hrest]; subst. simpl.
  destruct (x =? y)%Z eqn:He.
  - apply Z.eqb_eq in He. subst y. f_equal.
    clear IH Hin Hnd Hrest. induction rest as [|z rest IH]; [reflexivity|].
    simpl. destruct (x =? z)%Z eqn:Hz.
    + apply Z.eqb_eq in Hz. subst. exfalso. apply Hn. now left.
    + apply IH. intros H. apply Hn. now right.
  - destruct Hin as [->|Hin]; [now rewrite Z.eqb_refl in He|].
    now apply IH.
Qed.

Lemma filter_map_swap {A B : Type} (p : B -> bool) (f : A -> B)
    (l : list A) :
  filter p (map f l) = map f (filter (fun x => p (f x)) l).
Proof.
  induction l as [|x rest IH]; simpl; [reflexivity|].
  destruct (p (f x)); simpl; now rewrite IH.
Qed.

(** The aggregate has one row for the actor of every anomaly. *)
Lemma agg_row (anomalies : list Anomaly) (r : Anomaly) :
  In r anomalies ->
  filter (fun a => (actor_id r =? agg_actor a)%Z) (agg anomalies)
  = [mkActorAgg (actor_id r)
       (Qsum (map score (actor_group anomalies (actor_id r)))
        / inject_Z
            (Z.of_nat (List.length (actor_group anomalies (actor_id r)))))
       (Z.of_nat (List.length (actor_group anomalies (actor_id r))))].
Proof.
  intros Hin. unfold agg. rewrite filter_map_swap. simpl.
  rewrite filter_eqb_NoDup.
  - simpl. now rewrite length_map.
  - apply (group_keys_NoDup Z.eqb Z.eqb_eq).
  - apply (group_keys_In Z.eqb Z.eqb_eq). now apply in_map.
Qed.

Lemma analyze_filter (self : ExponentialDecayAnalyzer)
    (anomalies : list Anomaly) :
  analyze self anomalies
  = filter
      (fun r =>
         Qle_bool (threshold self)
           (group_weighted_mean self anomalies (actor_id r)))
      anomalies.
Proof.
  unfold analyze.
  set (on := fun (r : Anomaly) (a : ActorAgg) =>
               (actor_id r =? agg_actor a)%Z).
  set (matched := fun (r : Anomaly) (a : ActorAgg) =>
                    (r, Some (weighted_mean self a))).
  set (unmatched := fun r : Anomaly => (r, @None Q)).
  set (keep := fun rw : Anomaly * option Q =>
                 match snd rw with
                 | Some w => Qle_bool (threshold self) w
                 | None => false
                 end).
  assert (H : forall l, incl l anomalies ->
    map fst (filter keep (merge_left on matched unmatched l (agg anomalies)))
    = filter
        (fun r =>
           Qle_bool (threshold self)
             (group_weighted_mean self anomalies (actor_id r))) l).
  { induction l as [|r rest IH]; intros Hincl; [reflexivity|].
    rewrite merge_left_cons. unfold on at 1.
    rewrite agg_row by (apply Hincl; now left).
    rewrite filter_app, map_app, IH
      by (intros y Hy; apply Hincl; now right).
    simpl. unfold keep, matched, weighted_mean. simpl.
    fold (group_weighted_mean self anomalies (actor_id r)).
    now destruct (Qle_bool _ _). }
  apply H. apply incl_refl.
Qed.

End AnalyzersFacts.

Module AnalyzersGroups.
Import Frames Analyzers FramesFacts AnalyzersFacts.

(** Facts about the actor groups of [ExponentialDecayAnalyzer.analyze]. *)

Local Open Scope Q_scope.

Lemma filter_twice {A : Type} (p q : A -> bool) (l : list A) :
  filter p (filter q l) = filter (fun x => q x && p x) l.
Proof.
  induction l as [|x rest IH]; simpl; [reflexivity|].
  destruct (q x); simpl; [destruct (p x)|]; now rewrite IH.
Qed.

Lemma filter_same {A : Type} (p q : A -> bool) (l : list A) :
  (forall x, In x l -> p x = q x) -> filter p l = filter q l.
Proof.
  intros H. induction l as [|x rest IH]; simpl; [reflexivity|].
  rewrite (H x) by now left.
  rewrite IH by (intros y Hy; apply H; now right). reflexivity.
Qed.

(** The verdict on a row: its actor group reaches the threshold. *)
Lemma group_of_kept (keep : Z -> bool) (anomalies : list Anomaly)
    (actor : Z) :
  actor_group (filter (fun r => keep (actor_id r)) anomalies) actor
  = if keep actor then actor_group anomalies actor else [].
Proof.
  unfold actor_group. rewrite filter_twice.
  destruct (keep actor) eqn:Hk.
  - apply filter_same. intros r _.
    destruct (actor_id r =? actor)%Z eqn:He.
    + apply Z.eqb_eq in He. now rewrite He, Hk.
    + apply andb_false_r.
  - induction anomalies as [|r rest IH]; [reflexivity|]. simpl.
    destruct (actor_id r =? actor)%Z eqn:He.
    + apply Z.eqb_eq in He. now rewrite He, Hk.
    + now rewrite andb_false_r.
Qed.

Lemma group_weighted_mean_same (self : ExponentialDecayAnalyzer)
    (a b : list Anomaly) (actor : Z) :
  actor_group a actor = actor_group b actor ->
  group_weighted_mean self a actor = group_weighted_mean self b actor.
Proof. unfold group_weighted_mean. now intros ->. Qed.

(** X11. The verdict of [analyze] on an actor depends on the anomalies of
    that actor only: the rows of an actor in the result of a frame are
    the result of the rows of that actor alone. So a frame can be
    analyzed actor by actor. *)
Theorem analyze_actor_by_actor :
  forall (self : ExponentialDecayAnalyzer) (anomalies : list Anomaly)
         (actor : Z),
    actor_group (analyze self anomalies) actor
    = analyze self (actor_group anomalies actor).
Proof.
  intros self anomalies actor. rewrite !analyze_filter.
  unfold actor_group at 1 3. rewrite !filter_twice.
  apply filter_same. intros r _.
  destruct (actor_id r =? actor)%Z eqn:He.
  - apply Z.eqb_eq in He. rewrite He. rewrite andb_true_r. cbn [andb].
    f_equal. apply group_weighted_mean_same.
    unfold actor_group. rewrite filter_twice. apply filter_same.
    intros x _. now rewrite andb_diag.
  - now rewrite andb_false_r.
Qed.

(** X12. Analyzing again changes nothing, and a stricter threshold can be
    applied afterwards: for two analyzers with the same weight and decay,
    the second with a threshold that is not lower, [analyze] of the
    second on the result of the first is [analyze] of the second on the
    whole frame. With the same analyzer twice, [analyze] is
    idempotent. *)
Theorem analyze_then_stricter :
  forall (first second : ExponentialDecayAnalyzer)
         (anomalies : list Anomaly),
    weight second = weight first ->
    decay second = decay first ->
    threshold first <= threshold second ->
    analyze second (analyze first anomalies) = analyze second anomalies.
Proof.
  intros first second anomalies Hw Hd Ht.
  rewrite (analyze_filter first anomalies).
  set (keep := fun actor =>
                 Qle_bool (threshold first)
                   (group_weighted_mean first anomalies actor)).
  change (filter _ anomalies)
    with (filter (fun r => keep (actor_id r)) anomalies).
  rewrite !analyze_filter, filter_twice.
  apply filter_same. intros r _.
  rewrite (group_weighted_mean_same second _
             (if keep (actor_id r) then anomalies else []) (actor_id r)).
  2:{ rewrite group_of_kept. now destruct (keep (actor_id r)). }
  destruct (keep (actor_id r)) eqn:Hk; cbn [andb].
  - reflexivity.
  - symmetry. destruct (Qle_bool (threshold second) _) eqn:H2;
      [|reflexivity].
    exfalso. apply Qle_bool_iff in H2.
    assert (Hsame : group_weighted_mean second anomalies (actor_id r)
                    = group_weighted_mean first anomalies (actor_id r)).
    { unfold group_weighted_mean. now rewrite Hw, Hd. }
    rewrite Hsame in H2.
    assert (Hk' : Qle_bool (threshold first)
                    (group_weighted_mean first anomalies (actor_id r))
                  = true).
    { apply Qle_bool_iff. eapply Qle_trans; [exact Ht | exact H2]. }
    unfold keep in Hk. congruence.
Qed.

Lemma analyze_then_stricter_witness :
  analyze default_analyzer (analyze default_analyzer scenario_all)
  = analyze default_analyzer scenario_all.
Proof.
  apply (analyze_then_stricter default_analyzer default_analyzer
           scenario_all).
  - reflexivity.
  - reflexivity.
  - apply Qle_refl.
Defined.

End AnalyzersGroups.

Module Analyzers64Facts.
Import Frames FramesFacts Binary64 Analyzers64.

Local Open Scope float_scope.

(** Facts about [ExponentialDecayAnalyzer.analyze] over float64. *)

(** The aggregate has one row for the actor of every anomaly. *)
Lemma agg_row_float64 (np : Numpy) (anomalies : list Anomaly) (r : Anomaly) :
  In r anomalies ->
  filter (fun a => (actor_id r =? agg_actor a)%Z) (agg np anomalies)
  = [mkActorAgg (actor_id r)
       (mean_of np (map score (actor_group anomalies (actor_id r))))
       (Z.of_nat (List.length (actor_group anomalies (actor_id r))))].
Proof.
  intros Hin. unfold agg. rewrite AnalyzersFacts.filter_map_swap.
  cbn [agg_actor]. rewrite AnalyzersFacts.filter_eqb_NoDup.
  - cbn [map]. now rewrite length_map.
  - apply (group_keys_NoDup Z.eqb Z.eqb_eq).
  - apply (group_keys_In Z.eqb Z.eqb_eq). now apply in_map.
Qed.

Lemma analyze_filter_float64 (np : Numpy) (self : ExponentialDecayAnalyzer)
    (anomalies : list Anomaly) :
  analyze np self anomalies
  = filter
      (fun r =>
         PrimFloat.leb (threshold self)
           (group_weighted_mean np self anomalies (actor_id r)))
      anomalies.
Proof.
  unfold analyze.
  set (on := fun (r : Anomaly) (a : ActorAgg) =>
               (actor_id r =? agg_actor a)%Z).
  set (matched := fun (r : Anomaly) (a : ActorAgg) =>
                    (r, Some (weighted_mean np self a))).
  set (unmatched := fun r : Anomaly => (r, @None float)).
  set (keep := fun rw : Anomaly * option float =>
                 match snd rw with
                 | Some w => PrimFloat.leb (threshold self) w
                 | None => false
                 end).
  assert (H : forall l, incl l anomalies ->
    map fst
      (filter keep (merge_left on matched unmatched l (agg np anomalies)))
    = filter
        (fun r =>
           PrimFloat.leb (threshold self)
             (group_weighted_mean np self anomalies (actor_id r))) l).
  { induction l as [|r rest IH]; intros Hincl; [reflexivity|].
    rewrite merge_left_cons. unfold on at 1.
    rewrite agg_row_float64 by (apply Hincl; now left).
    rewrite filter_app, map_app, IH
      by (intros y Hy; apply Hincl; now right).
    cbn [map filter]. unfold keep at 1, matched, weighted_mean.
    cbn [snd fst agg_mean agg_count].
    fold (group_weighted_mean np self anomalies (actor_id r)).
    now destruct (PrimFloat.leb _ _). }
  apply H. apply incl_refl.
Qed.

(** C5, as the code computes it. [ExponentialDecayAnalyzer.analyze]
    returns, in their order, exactly the rows whose actor group (mean of
    [score], count of [event_id]) has
    [mean - weight * (1 - decay) ** (count - 1)] at least [threshold],
    each operation being the float64 one: the mean and the power as the
    libraries round them, then the rounded product and the rounded
    difference, compared with the threshold as floats. For a group of one
    row this is the float64 [score - weight * 1 >= threshold], whenever
    the mean of one score is that score and the power with exponent 0 is
    1. With the defaults 0.2, 0.1 and 0.5: two scores 0.9 give 0.72 and
    are kept; twenty scores 0.9 give 0.873 to three decimals and are
    kept; a single 0.9 gives 0.7 and is kept; a single 0.6 gives
    0.39999999999999997 and is dropped. *)
Theorem analyze_keeps_weighted_groups_float64 :
  (forall (np : Numpy) (self : ExponentialDecayAnalyzer)
          (anomalies : list Anomaly),
      analyze np self anomalies
      = filter
          (fun r =>
             PrimFloat.leb (threshold self)
               (group_weighted_mean np self anomalies (actor_id r)))
          anomalies)
  /\ (forall (np : Numpy) (self : ExponentialDecayAnalyzer)
             (anomalies : list Anomaly) (r : Anomaly),
         In r (analyze np self anomalies) <->
         In r anomalies
         /\ PrimFloat.leb (threshold self)
              (group_weighted_mean np self anomalies (actor_id r)) = true)
  /\ (forall (np : Numpy) (self : ExponentialDecayAnalyzer) (r : Anomaly),
         mean_of np [score r] = score r ->
         power np (1 - decay self) 0 = 1 ->
         analyze np self [r]
         = if PrimFloat.leb (threshold self) (score r - weight self * 1)
           then [r] else [])
  /\ group_weighted_mean reference default_analyzer scenario_all 1 = 0.72
  /\ (PrimFloat.leb 0.8725
        (group_weighted_mean reference default_analyzer scenario_all 2)
      && PrimFloat.leb
           (group_weighted_mean reference default_analyzer scenario_all 2)
           0.8735 = true)
  /\ group_weighted_mean reference default_analyzer scenario_all 3 = 0.7
  /\ group_weighted_mean reference default_analyzer scenario_all 4
     = 0.39999999999999997
  /\ analyze reference default_analyzer scenario_all
     = scenario_two ++ scenario_single_high ++ scenario_twenty.
Proof.
  split; [exact analyze_filter_float64|]. split; [|split].
  - intros np self anomalies r. rewrite analyze_filter_float64, filter_In.
    reflexivity.
  - intros np self r Hmean Hpower. rewrite analyze_filter_float64.
    cbn [filter]. unfold group_weighted_mean, actor_group.
    cbn [filter]. rewrite Z.eqb_refl. cbn [map List.length Z.of_nat].
    change (Z.pos (Pos.of_succ_nat 0) - 1)%Z with 0%Z.
    now rewrite Hmean, Hpower.
  - repeat split; vm_compute; reflexivity.
Qed.

(** The claim as it is worded fails on the threshold. With the defaults,
    a single anomaly of score 0.7 has
    0.7 - 0.2 * 0.9 ^ 0 = 0.5 in exact arithmetic, which reaches the
    threshold 0.5, and the analyzer over exact rationals keeps the row;
    in float64 the difference is 0.49999999999999994, below the
    threshold, and [analyze] returns no row. *)
Lemma row_on_threshold_is_dropped :
  (5 # 10 <= (7 # 10) - (2 # 10) * (1 - (1 # 10)) ^ (1 - 1))%Q
  /\ Analyzers.analyze Analyzers.default_analyzer
       [Analyzers.anomaly_of 5 400 (7 # 10)]
     = [Analyzers.anomaly_of 5 400 (7 # 10)]
  /\ group_weighted_mean reference default_analyzer scenario_on_threshold 5
     = 0.49999999999999994
  /\ PrimFloat.leb (threshold default_analyzer)
       (group_weighted_mean reference default_analyzer scenario_on_threshold
          5) = false
  /\ analyze reference default_analyzer scenario_on_threshold = [].
Proof. repeat split; vm_compute; try reflexivity. discriminate. Qed.

End Analyzers64Facts.

(** * Facts about [profile/collectors.py] *)

Module CollectorsFacts.
Import Collectors.

Lemma earliest_Some (candidates : list Event) (e : Event) :
  earliest candidates = Some e ->
  In e candidates
  /\ forall e', In e' candidates -> created_at e <= created_at e'.
Proof.
  revert e. induction candidates as [|c rest IH]; intros e; simpl;
    [discriminate|].
  destruct (earliest rest) as [m|] eqn:Hm.
  - destruct (IH m eq_refl) as [Hin Hmin].
    destruct (created_at c <=? created_at m) eqn:Hle; intros H;
      inversion H; subst.
    + apply Z.leb_le in Hle. split; [now left|].
      intros e' [<-|He']; [lia|]. specialize (Hmin e' He'). lia.
    + apply Z.leb_gt in Hle. split; [now right|].
      intros e' [<-|He']; [lia|]. now apply Hmin.
  - intros H. inversion H; subst. split; [now left|].
    intros e' [<-|He']; [lia|].
    destruct rest; [destruct He'|]. simpl in Hm.
    destruct (earliest rest); [destruct (_ <=? _)|]; discriminate.
Qed.

Lemma earliest_None (candidates : list Event) :
  earliest candidates = None -> candidates = [].
Proof.
  destruct candidates as [|c rest]; [reflexivity|]. simpl.
  destruct (earliest rest); [destruct (_ <=? _)|]; discriminate.
Qed.

(** [next_event] is the earliest event of the profile after [start]. *)
Lemma next_event_Some (db : Store) (profile start : Z) (ev : Event) :
  next_event db profile start = Some ev ->
  In ev (events db)
  /\ event_of_profile db profile ev = true
  /\ start < created_at ev
  /\ forall e, In e (events db) -> event_of_profile db profile e = true ->
               start < created_at e -> created_at ev <= created_at e.
Proof.
  unfold next_event. intros H. apply earliest_Some in H.
  destruct H as [Hin Hmin]. apply filter_In in Hin.
  destruct Hin as [Hin Hc]. apply andb_true_iff in Hc.
  destruct Hc as [Hp Hs]. apply Z.ltb_lt in Hs.
  repeat split; try assumption.
  intros e He Hpe Hse. apply Hmin. apply filter_In. split; [exact He|].
  rewrite Hpe. now apply Z.ltb_lt.
Qed.

Lemma next_event_None (db : Store) (profile start : Z) :
  next_event db profile start = None ->
  forall e, In e (events db) -> event_of_profile db profile e = true ->
            ~ start < created_at e.
Proof.
  unfold next_event. intros H e He Hp Hs. apply earliest_None in H.
  assert (Hin : In e (filter
                        (fun e => event_of_profile db profile e
                                  && (start <? created_at e))
                        (events db))).
  { apply filter_In. split; [exact He|]. rewrite Hp. now apply Z.ltb_lt. }
  rewrite H in Hin. destruct Hin.
Qed.

(** The passes of the loop, case by case. A pass of the loop of
    [_loop_until_anomalies] that finds the shutdown event set returns the
    empty table. A pass without shutdown whose query over
    [(start, start + seconds]] has rows returns them. When the query has
    no rows and the profile has an event later than [start], the pass
    takes the earliest one and returns what one more fetch over
    [(created_at, created_at + seconds]] gives, empty or not: the loop is
    not entered again. When the profile has no later event, the loop waits
    [interval] and runs the next pass from the same [start]. The first
    wait is 0. *)
Theorem loop_pass_cases :
  forall (self : TimeRangeCollector) (timeout : Q) (p : Pass)
         (rest : list Pass) (profile start : Z),
    (shutdown_wait p = true ->
     loop_from self timeout (p :: rest) profile start = ([timeout], Some []))
    /\ (forall rows,
          shutdown_wait p = false -> wait_first p = false ->
          anomaly_query (db p) profile start (start + seconds self) = rows ->
          rows <> [] ->
          loop_from self timeout (p :: rest) profile start
          = ([timeout], Some rows))
    /\ (forall ev,
          shutdown_wait p = false -> wait_first p = false ->
          anomaly_query (db p) profile start (start + seconds self) = [] ->
          next_event (db p) profile start = Some ev ->
          (In ev (events (db p))
           /\ event_of_profile (db p) profile ev = true
           /\ start < created_at ev
           /\ forall e, In e (events (db p)) ->
                        event_of_profile (db p) profile e = true ->
                        start < created_at e ->
                        created_at ev <= created_at e)
          /\ loop_from self timeout (p :: rest) profile start
             = ([timeout],
                Some (if wait_second p then []
                      else anomaly_query (db p) profile (created_at ev)
                             (created_at ev + seconds self))))
    /\ (shutdown_wait p = false -> wait_first p = false ->
        anomaly_query (db p) profile start (start + seconds self) = [] ->
        next_event (db p) profile start = None ->
        (forall e, In e (events (db p)) ->
                   event_of_profile (db p) profile e = true ->
                   ~ start < created_at e)
        /\ loop_from self timeout (p :: rest) profile start
           = (timeout :: fst (loop_from self (interval self) rest profile
                                start),
              snd (loop_from self (interval self) rest profile start)))
    /\ loop_until_anomalies self (p :: rest) profile start
       = loop_from self 0%Q (p :: rest) profile start.
Proof.
  intros self timeout p rest profile start.
  split; [|split; [|split; [|split]]].
  - intros Hs. simpl. now rewrite Hs.
  - intros rows Hs Hw Hq Hne. simpl. rewrite Hs. unfold fetch_anomalies.
    rewrite Hw, Hq. destruct rows; [contradiction | reflexivity].
  - intros ev Hs Hw Hq Hn. split; [now apply next_event_Some|].
    simpl. rewrite Hs. unfold fetch_anomalies at 1. rewrite Hw, Hq, Hn.
    reflexivity.
  - intros Hs Hw Hq Hn. split; [now apply next_event_None|].
    simpl. rewrite Hs. unfold fetch_anomalies at 1. rewrite Hw, Hq, Hn.
    reflexivity.
  - reflexivity.
Qed.

(** With one event of the profile at tick 100, a window of 60 ticks, a
    start at tick 0 and no shutdown, the first query over (0, 60] is
    empty, the next event is the one at tick 100, the fetch over
    (100, 160] leaves that event out, and the loop returns the empty
    table after a single pass. *)
Lemma empty_table_without_shutdown :
  shutdown_wait quiet_pass = false
  /\ wait_first quiet_pass = false
  /\ wait_second quiet_pass = false
  /\ anomaly_query lonely_store 1 0 (0 + seconds default_collector) = []
  /\ next_event lonely_store 1 0 = Some (mkEvent 1 1 1 100)
  /\ anomaly_query lonely_store 1 100 (100 + seconds default_collector) = []
  /\ loop_until_anomalies default_collector [quiet_pass; quiet_pass] 1 0
     = ([0%Q], Some []).
Proof. repeat split; reflexivity. Qed.

End CollectorsFacts.

Module CollectorsWindows.
Import Collectors CollectorsRun CollectorsFacts.

(** Facts about the windows of [TimeRangeCollector]. *)

(** The row of an event of the profile and one of its anomalies. *)
Lemma anomaly_query_In (db : Store) (profile start end_ : Z) (r : Row) :
  In r (anomaly_query db profile start end_) <->
  exists e a,
    In e (events db) /\ In a (anomalies db)
    /\ event_of_profile db profile e = true
    /\ start < created_at e <= end_
    /\ anomaly_event a = event_id e
    /\ r = mkRow (event_id e) (event_message e) (event_actor e)
             (created_at e) (anomaly_id a) (anomaly_field a)
             (anomaly_score a).
Proof.
  unfold anomaly_query. rewrite in_flat_map. split.
  - intros [e [He Hin]].
    destruct (event_of_profile db profile e) eqn:Hp; [|destruct Hin].
    destruct (start <? created_at e) eqn:Hs; [|destruct Hin].
    destruct (created_at e <=? end_) eqn:Hend; [|destruct Hin].
    cbn [andb] in Hin. apply in_map_iff in Hin.
    destruct Hin as [a [<- Ha]]. apply filter_In in Ha.
    destruct Ha as [Ha Hev]. apply Z.eqb_eq in Hev.
    apply Z.ltb_lt in Hs. apply Z.leb_le in Hend.
    exists e, a. repeat split; assumption.
  - intros [e [a [He [Ha [Hp [[Hs Hend] [Hev ->]]]]]]].
    exists e. split; [exact He|]. rewrite Hp.
    apply Z.ltb_lt in Hs. apply Z.leb_le in Hend. rewrite Hs, Hend.
    cbn [andb]. apply in_map_iff. exists a. split; [reflexivity|].
    apply filter_In. split; [exact Ha|]. now apply Z.eqb_eq.
Qed.

Lemma fetch_anomalies_window (self : TimeRangeCollector) (waited : bool)
    (db : Store) (profile start : Z) (r : Row) :
  In r (fetch_anomalies self waited db profile start) ->
  start < r_created_at r <= start + seconds self
  /\ exists e, In e (events db) /\ event_of_profile db profile e = true
               /\ r_event_id r = event_id e
               /\ r_created_at r = created_at e.
Proof.
  unfold fetch_anomalies. destruct waited; [intros []|].
  intros Hin. apply anomaly_query_In in Hin.
  destruct Hin as [e [a [He [_ [Hp [Hw [_ ->]]]]]]]. cbn.
  split; [exact Hw|]. exists e. now repeat split.
Qed.

Lemma loop_from_window (self : TimeRangeCollector) (profile start : Z) :
  forall (passes : list Pass) (timeout : Q) (timeouts : list Q)
         (rows : list Row),
    loop_from self timeout passes profile start = (timeouts, Some rows) ->
    exists p s,
      In p passes
      /\ (s = start
          \/ exists ev, next_event (db p) profile start = Some ev
                        /\ s = created_at ev)
      /\ forall r, In r rows ->
           s < r_created_at r <= s + seconds self
           /\ exists e, In e (events (db p))
                        /\ event_of_profile (db p) profile e = true
                        /\ r_event_id r = event_id e
                        /\ r_created_at r = created_at e.
Proof.
  induction passes as [|p rest IH]; intros timeout timeouts rows;
    cbn [loop_from]; [discriminate|].
  destruct (shutdown_wait p).
  { intros H. inversion H; subst. exists p, start.
    split; [now left|]. split; [now left|]. intros r []. }
  destruct (fetch_anomalies self (wait_first p) (db p) profile start)
    as [|r0 found] eqn:Hfetch.
  - destruct (next_event (db p) profile start) as [ev|] eqn:Hnext.
    + intros H. inversion H; subst. exists p, (created_at ev).
      split; [now left|]. split; [right; now exists ev|].
      intros r Hr. eapply fetch_anomalies_window. exact Hr.
    + destruct (loop_from self (interval self) rest profile start)
        as [ts out] eqn:Hrest.
      cbn [fst snd]. intros H. inversion H; subst.
      destruct (IH _ _ _ Hrest) as [p' [s [Hp' Hs]]].
      exists p', s. split; [now right | exact Hs].
  - intros H. inversion H; subst. exists p, start.
    split; [now left|]. split; [now left|].
    intros r Hr. rewrite <- Hfetch in Hr.
    eapply fetch_anomalies_window. exact Hr.
Qed.

(** X13. Whatever [_loop_until_anomalies] returns lies in one window of
    [seconds] that does not begin before [start]: there are a pass and a
    time [s], either [start] or the time of the next event the pass has
    found after [start], such that every returned row is the row of an
    event of the profile with [s < created_at <= s + seconds]. So no row
    is at or before [start], and the event that the loop advances to is
    itself never among the rows it returns. *)
Theorem collected_rows_lie_in_one_window :
  forall (self : TimeRangeCollector) (passes : list Pass)
         (profile start : Z) (timeouts : list Q) (rows : list Row),
    loop_until_anomalies self passes profile start = (timeouts, Some rows) ->
    exists p s,
      In p passes
      /\ start <= s
      /\ (s = start
          \/ exists ev, next_event (db p) profile start = Some ev
                        /\ s = created_at ev
                        /\ forall r, In r rows ->
                                     created_at ev < r_created_at r)
      /\ forall r, In r rows ->
           start < r_created_at r
           /\ s < r_created_at r <= s + seconds self
           /\ exists e, In e (events (db p))
                        /\ event_of_profile (db p) profile e = true
                        /\ r_event_id r = event_id e
                        /\ r_created_at r = created_at e.
Proof.
  intros self passes profile start timeouts rows H.
  unfold loop_until_anomalies in H.
  destruct (loop_from_window self profile start passes 0%Q timeouts rows H)
    as [p [s [Hp [Hs Hrows]]]].
  assert (Hle : start <= s).
  { destruct Hs as [->|[ev [Hev ->]]]; [lia|].
    apply next_event_Some in Hev. lia. }
  exists p, s. split; [exact Hp|]. split; [exact Hle|]. split.
  - destruct Hs as [->|[ev [Hev ->]]]; [now left|]. right. exists ev.
    split; [exact Hev|]. split; [reflexivity|].
    intros r Hr. destruct (Hrows r Hr) as [Hw _]. lia.
  - intros r Hr. destruct (Hrows r Hr) as [Hw He].
    split; [lia|]. split; [exact Hw | exact He].
Qed.

Lemma collected_rows_lie_in_one_window_witness :
  exists p s,
    In p [quiet_pass]
    /\ 50 <= s
    /\ (s = 50
        \/ exists ev, next_event (db p) 1 50 = Some ev
                      /\ s = created_at ev
                      /\ forall r, In r [mkRow 1 1 1 100 1 1 1%Q] ->
                                   created_at ev < r_created_at r)
    /\ forall r, In r [mkRow 1 1 1 100 1 1 1%Q] ->
         50 < r_created_at r
         /\ s < r_created_at r <= s + seconds default_collector
         /\ exists e, In e (events (db p))
                      /\ event_of_profile (db p) 1 e = true
                      /\ r_event_id r = event_id e
                      /\ r_created_at r = created_at e.
Proof.
  apply (collected_rows_lie_in_one_window default_collector [quiet_pass]
           1 50 [0%Q]).
  reflexivity.
Defined.

Lemma latest_Some (candidates : list Event) (e : Event) :
  latest candidates = Some e ->
  In e candidates
  /\ forall e', In e' candidates -> created_at e' <= created_at e.
Proof.
  revert e. induction candidates as [|c rest IH]; intros e; cbn [latest];
    [discriminate|].
  destruct (latest rest) as [m|] eqn:Hm.
  - destruct (IH m eq_refl) as [Hin Hmax].
    destruct (created_at m <=? created_at c) eqn:Hle; intros H;
      inversion H; subst.
    + apply Z.leb_le in Hle. split; [now left|].
      intros e' [<-|He']; [lia|]. specialize (Hmax e' He'). lia.
    + apply Z.leb_gt in Hle. split; [now right|].
      intros e' [<-|He']; [lia|]. now apply Hmax.
  - intros H. inversion H; subst. split; [now left|].
    intros e' [<-|He']; [lia|].
    destruct rest as [|c' rest']; [destruct He'|]. cbn [latest] in Hm.
    destruct (latest rest'); [destruct (_ <=? _)|]; discriminate.
Qed.

Lemma latest_None (candidates : list Event) :
  latest candidates = None -> candidates = [].
Proof.
  destruct candidates as [|c rest]; [reflexivity|]. cbn [latest].
  destruct (latest rest); [destruct (_ <=? _)|]; discriminate.
Qed.

(** X14. With a previous investigation, [collect] starts after its last
    event: when the previous investigation has events assigned, every row
    collected is later than each of them, so two investigations in a row
    never take an event of the same time; when it has none,
    [last_event.created_at] raises the [AttributeError] of [None]. *)
Theorem collect_starts_after_previous :
  forall (self : TimeRangeCollector) (store : Store) (assigned : Assigned)
         (first_passes : list FirstPass) (passes : list Pass)
         (profile investigation : Z),
    ((forall e, In e (events store) ->
                ~ In (investigation, event_id e) assigned) ->
     collect self store assigned first_passes passes profile
       (Some investigation) = AttributeError)
    /\ (forall rows,
          collect self store assigned first_passes passes profile
            (Some investigation) = Collected rows ->
          forall e r,
            In e (events store) ->
            In (investigation, event_id e) assigned ->
            In r rows ->
            created_at e < r_created_at r).
Proof.
  intros self store assigned first_passes passes profile investigation.
  unfold collect, get_last_investigation_event.
  set (mine := filter _ (events store)).
  assert (Hmine : forall e, In e mine <->
                    In e (events store)
                    /\ In (investigation, event_id e) assigned).
  { intros e. unfold mine. rewrite filter_In, existsb_exists.
    split.
    - intros [He [[i ev] [Hin Heq]]]. cbn [fst snd] in Heq.
      apply andb_true_iff in Heq. destruct Heq as [Hi Hev].
      apply Z.eqb_eq in Hi, Hev. subst. now split.
    - intros [He Hin]. split; [exact He|].
      exists (investigation, event_id e). split; [exact Hin|].
      cbn [fst snd]. now rewrite !Z.eqb_refl. }
  split.
  - intros Hnone. destruct (latest mine) as [last|] eqn:Hlast;
      [|reflexivity].
    apply latest_Some in Hlast. destruct Hlast as [Hin _].
    apply Hmine in Hin. destruct Hin as [He Ha]. exfalso.
    exact (Hnone last He Ha).
  - intros rows. destruct (latest mine) as [last|] eqn:Hlast;
      [|discriminate].
    apply latest_Some in Hlast. destruct Hlast as [_ Hmax].
    destruct (loop_until_anomalies self passes profile (created_at last))
      as [timeouts [found|]] eqn:Hloop; cbn [snd outcome_of];
      [|discriminate].
    intros H e r He Ha Hr. inversion H; subst found.
    unfold loop_until_anomalies in Hloop.
    destruct (loop_from_window self profile (created_at last) passes 0%Q
                timeouts rows Hloop) as [p [s [_ [Hs Hrows]]]].
    destruct (Hrows r Hr) as [Hw _].
    assert (Hle : created_at e <= created_at last).
    { apply Hmax. apply Hmine. now split. }
    destruct Hs as [->|[ev [Hev ->]]]; [lia|].
    apply next_event_Some in Hev. lia.
Qed.

(** X15. The first investigation of a profile takes in its first event:
    with a window of one second or more, when [_get_first_event] finds
    the earliest event of the profile and that event has an anomaly,
    [_create_initial_investigation] returns at its first pass, without
    shutdown, a frame that holds the row of that event and anomaly, and
    whose rows are all within [seconds] of one second before that
    event. *)
Theorem initial_investigation_takes_first_event :
  forall (self : TimeRangeCollector) (store : Store) (profile : Z)
         (first : Event) (a : Anomaly) (more_first : list FirstPass)
         (waited : bool) (more : list Pass),
    1 <= seconds self ->
    earliest (filter (event_of_profile store profile) (events store))
    = Some first ->
    In a (anomalies store) ->
    anomaly_event a = event_id first ->
    exists rows,
      create_initial_investigation self
        (mkFirstPass false store :: more_first)
        (mkPass false false waited store :: more) profile
      = Some rows
      /\ In (mkRow (event_id first) (event_message first)
               (event_actor first) (created_at first) (anomaly_id a)
               (anomaly_field a) (anomaly_score a)) rows
      /\ forall r, In r rows ->
           created_at first <= r_created_at r
           /\ r_created_at r <= created_at first - 1 + seconds self.
Proof.
  intros self store profile first a more_first waited more Hsec Hfirst
    Ha Hev.
  unfold create_initial_investigation. cbn [get_first_event first_shutdown
    first_db]. rewrite Hfirst.
  unfold loop_until_anomalies. cbn [loop_from shutdown_wait wait_first db].
  apply earliest_Some in Hfirst. destruct Hfirst as [Hin _].
  apply filter_In in Hin. destruct Hin as [Hin Hp].
  set (start := created_at first - 1).
  assert (Hrow : In (mkRow (event_id first) (event_message first)
                       (event_actor first) (created_at first)
                       (anomaly_id a) (anomaly_field a) (anomaly_score a))
                    (fetch_anomalies self false store profile start)).
  { unfold fetch_anomalies. apply anomaly_query_In. exists first, a.
    unfold start. repeat split; try assumption; lia. }
  destruct (fetch_anomalies self false store profile start)
    as [|r0 found] eqn:Hfetch; [destruct Hrow|].
  cbn [snd]. exists (r0 :: found). split; [reflexivity|].
  split; [exact Hrow|].
  intros r Hr. rewrite <- Hfetch in Hr.
  apply fetch_anomalies_window in Hr. destruct Hr as [Hw _].
  unfold start in Hw. lia.
Qed.

Lemma initial_investigation_takes_first_event_witness :
  exists rows,
    create_initial_investigation default_collector
      [mkFirstPass false lonely_store]
      [mkPass false false false lonely_store] 1
    = Some rows
    /\ In (mkRow 1 1 1 100 1 1 1%Q) rows
    /\ forall r, In r rows ->
         100 <= r_created_at r
         /\ r_created_at r <= 100 - 1 + seconds default_collector.
Proof.
  apply (initial_investigation_takes_first_event default_collector
           lonely_store 1 (mkEvent 1 1 1 100) (mkAnomaly 1 1 1 1%Q)
           [] false []).
  - vm_compute. discriminate.
  - reflexivity.
  - left. reflexivity.
  - reflexivity.
Defined.

(** ** [_wait] *)

Lemma timedelta_seconds_range (d : Z) : 0 <= timedelta_seconds d < 86400.
Proof. unfold timedelta_seconds. apply Z.mod_pos_bound. lia. Qed.

Lemma wait_from_result (self : TimeRangeCollector) (target : Z)
    (is_set : bool) :
  forall (ticks : list Tick) (timeout : Z) (timeouts : list Z),
    0 <= timeout < 86400 ->
    wait_from self target timeout ticks is_set = (timeouts, Some false) ->
    is_set = false
    /\ (exists t, In t ticks /\ tick_shutdown t = false
                  /\ target + delay self <= tick_now t)
    /\ forall x, In x timeouts -> 0 <= x < 86400.
Proof.
  induction ticks as [|t rest IH]; intros timeout timeouts Ht;
    cbn [wait_from]; [discriminate|].
  destruct (tick_shutdown t) eqn:Hs; [discriminate|].
  destruct (target + delay self <=? tick_now t) eqn:Hnow.
  - intros H. inversion H; subst. split; [reflexivity|]. split.
    + exists t. split; [now left|]. split; [exact Hs|].
      now apply Z.leb_le.
    + intros x [<-|[]]. exact Ht.
  - destruct (wait_from self target
                (timedelta_seconds (target - tick_now t)) rest is_set)
      as [ts out] eqn:Hrest.
    cbn [fst snd]. intros H. inversion H; subst.
    destruct (IH _ _ (timedelta_seconds_range _) Hrest)
      as [Hset [[t' [Hin Ht']] Hts]].
    split; [exact Hset|]. split.
    + exists t'. split; [now right | exact Ht'].
    + intros x [<-|Hx]; [exact Ht | now apply Hts].
Qed.

(** X16. [_wait] lets a fetch go ahead only once the clock has passed the
    end of the window by the delay: when [_wait(target)] returns [False],
    the shutdown event was not set when the loop was left, and some
    reading [now] of the clock, taken in a turn that the shutdown event
    did not end, had [target + delay <= now]. The first timeout handed to
    [shutdown.wait] is 0 and each one is under a day. *)
Theorem wait_returns_after_target :
  forall (self : TimeRangeCollector) (target : Z) (ticks : list Tick)
         (is_set : bool) (timeouts : list Z),
    wait self target ticks is_set = (timeouts, Some false) ->
    is_set = false
    /\ (exists t, In t ticks /\ tick_shutdown t = false
                  /\ target + delay self <= tick_now t)
    /\ hd_error timeouts = Some 0
    /\ forall x, In x timeouts -> 0 <= x < 86400.
Proof.
  intros self target ticks is_set timeouts H. unfold wait in H.
  assert (H0 : 0 <= 0 < 86400) by lia.
  destruct (wait_from_result self target is_set ticks 0 timeouts H0 H)
    as [Hset [Ht Hts]].
  split; [exact Hset|]. split; [exact Ht|]. split; [|exact Hts].
  destruct ticks as [|t rest]; cbn [wait_from] in H; [discriminate|].
  destruct (tick_shutdown t); [discriminate|].
  destruct (target + delay self <=? tick_now t).
  - inversion H. reflexivity.
  - destruct (wait_from _ _ _ rest is_set). inversion H. reflexivity.
Qed.

Lemma wait_returns_after_target_witness :
  false = false
  /\ (exists t, In t [mkTick false 90; mkTick false 115]
                /\ tick_shutdown t = false
                /\ 100 + delay (mkCollector 60 10%Q 15) <= tick_now t)
  /\ hd_error [0; 10] = Some 0
  /\ forall x, In x [0; 10] -> 0 <= x < 86400.
Proof.
  apply (wait_returns_after_target (mkCollector 60 10%Q 15) 100
           [mkTick false 90; mkTick false 115] false [0; 10]).
  reflexivity.
Defined.

(** X17. The timeout of [_wait] is taken from the target alone, not from
    the delay, and through [timedelta.seconds], which wraps a negative
    difference: when the clock reads a time after [target] but before
    [target + delay], less than a day after the target, the loop goes on
    and the next wait is [86400 - (now - target)] seconds, a day less the
    time already past the target, rather than the rest of the delay. *)
Theorem wait_past_target_sleeps_a_day :
  forall (self : TimeRangeCollector) (target timeout : Z) (t : Tick)
         (rest : list Tick) (is_set : bool),
    tick_shutdown t = false ->
    target < tick_now t < target + delay self ->
    tick_now t - target <= 86400 ->
    wait_from self target timeout (t :: rest) is_set
    = (timeout
         :: fst (wait_from self target (86400 - (tick_now t - target)) rest
                   is_set),
       snd (wait_from self target (86400 - (tick_now t - target)) rest
              is_set))
    /\ 86400 - delay self < 86400 - (tick_now t - target).
Proof.
  intros self target timeout t rest is_set Hs Hnow Hday.
  cbn [wait_from]. rewrite Hs.
  assert (Hlate : (target + delay self <=? tick_now t) = false)
    by (apply Z.leb_gt; lia).
  rewrite Hlate.
  assert (Hwrap : timedelta_seconds (target - tick_now t)
                  = 86400 - (tick_now t - target)).
  { unfold timedelta_seconds.
    replace (target - tick_now t)
      with ((86400 - (tick_now t - target)) + (-1) * 86400) by lia.
    rewrite Z.mod_add by lia. apply Z.mod_small. lia. }
  rewrite Hwrap. split; [reflexivity | lia].
Qed.

Lemma wait_past_target_sleeps_a_day_witness :
  wait_from (mkCollector 60 10%Q 15) 100 0
    [mkTick false 105; mkTick false 86500] false
  = (0 :: fst (wait_from (mkCollector 60 10%Q 15) 100 (86400 - (105 - 100))
                 [mkTick false 86500] false),
     snd (wait_from (mkCollector 60 10%Q 15) 100 (86400 - (105 - 100))
            [mkTick false 86500] false))
  /\ 86400 - delay (mkCollector 60 10%Q 15) < 86400 - (105 - 100).
Proof.
  apply (wait_past_target_sleeps_a_day (mkCollector 60 10%Q 15) 100 0
           (mkTick false 105) [mkTick false 86500] false).
  - reflexivity.
  - simpl. lia.
  - simpl. lia.
Defined.

End CollectorsWindows.

Module CollectorsSkips.
Import Collectors.

(** C7. The loop returns an empty table without shutdown, because the
    fetch that follows [next_event] leaves the event it has just found
    out. In a pass without shutdown whose query over
    [(start, start + seconds]] is empty and whose profile has a later
    event, the loop returns the rows of
    [(next_event.created_at, next_event.created_at + seconds]]: every
    returned row is later than the event found, so no anomaly of that
    event is among them, while the window that starts one second
    earlier, as [_create_initial_investigation] takes it, holds every
    anomaly of the event when [seconds] is 1 or more. With one event of
    the profile at tick 100, its anomaly, a window of 60 ticks and a
    start at tick 0 the loop returns the empty table after one pass, with
    no shutdown; from tick 99 the anomaly is returned. *)
Theorem found_event_is_left_out :
  (forall (self : TimeRangeCollector) (timeout : Q) (p : Pass)
          (rest : list Pass) (profile start : Z) (ev : Event),
      shutdown_wait p = false -> wait_first p = false ->
      wait_second p = false ->
      anomaly_query (db p) profile start (start + seconds self) = [] ->
      next_event (db p) profile start = Some ev ->
      1 <= seconds self ->
      loop_from self timeout (p :: rest) profile start
      = ([timeout],
         Some (anomaly_query (db p) profile (created_at ev)
                 (created_at ev + seconds self)))
      /\ (forall r,
            In r (anomaly_query (db p) profile (created_at ev)
                    (created_at ev + seconds self)) ->
            created_at ev < r_created_at r)
      /\ (forall a,
            In a (anomalies (db p)) -> anomaly_event a = event_id ev ->
            In (mkRow (event_id ev) (event_message ev) (event_actor ev)
                  (created_at ev) (anomaly_id a) (anomaly_field a)
                  (anomaly_score a))
               (anomaly_query (db p) profile (created_at ev - 1)
                  (created_at ev - 1 + seconds self))))
  /\ shutdown_wait quiet_pass = false
  /\ anomaly_query lonely_store 1 0 (0 + seconds default_collector) = []
  /\ next_event lonely_store 1 0 = Some (mkEvent 1 1 1 100)
  /\ loop_until_anomalies default_collector [quiet_pass; quiet_pass] 1 0
     = ([0%Q], Some [])
  /\ loop_until_anomalies default_collector [quiet_pass; quiet_pass] 1 99
     = ([0%Q], Some [mkRow 1 1 1 100 1 1 1%Q]).
Proof.
  split; [|repeat split; reflexivity].
  intros self timeout p rest profile start ev Hs Hw1 Hw2 Hq Hn Hsec.
  split; [|split].
  - cbn [loop_from]. rewrite Hs. unfold fetch_anomalies at 1.
    rewrite Hw1, Hq, Hn. unfold fetch_anomalies. now rewrite Hw2.
  - intros r Hr. apply CollectorsWindows.anomaly_query_In in Hr.
    destruct Hr as (e & a & _ & _ & _ & [Hlt _] & _ & ->).
    exact Hlt.
  - intros a Ha Hev. apply CollectorsFacts.next_event_Some in Hn.
    destruct Hn as (Hin & Hp & _ & _).
    apply CollectorsWindows.anomaly_query_In. exists ev, a.
    repeat split; try assumption; lia.
Qed.

End CollectorsSkips.

(** * Facts about [pipline/base.py] *)

Module PipelineFacts.
Import Py Frames Pipeline.

Lemma concat_empty_frames {A B : Type} (l : list A) :
  List.concat (map (fun _ : A => @nil B) l) = [].
Proof. induction l as [|x rest IH]; simpl; [reflexivity | exact IH]. Qed.

(** What [_process] hands to the actor upsert, the feature fetch and the
    scoring is the concatenation as it is: the sorted frame is lost. *)
Lemma process_values_concat (self : Pipeline)
    (buffered : list Message.Message) :
  process_values self buffered
  = pa_concat (map (fun p => Profile.identify p buffered) (profiles self)).
Proof.
  unfold process_values. now destruct (pa_concat _).
Qed.

(** C2, at a failing input. Two buffered messages of one actor with the
    timestamps 2 and 1, in the order they were received: the value rows go
    on with the timestamps 2, 1, while the sorted frame would have 1, 2;
    and the cycle on them completes. *)
Theorem values_keep_arrival_order :
  exists values : list (string * Value),
    process_values example_pipeline out_of_order = Ok values
    /\ map (fun nv => timestamp (snd nv)) values = [2; 1]
    /\ map (fun nv => timestamp (snd nv)) (sort_values timestamp_leb values)
       = [1; 2]
    /\ snd (process example_pipeline empty_store out_of_order) = Ok tt.
Proof.
  eexists. split; [reflexivity|].
  split; [reflexivity|]. split; [reflexivity|].
  vm_compute. reflexivity.
Qed.

(** C8, at the failing inputs. With no buffered message every profile
    identifies no row, the values are empty, and [_get_actors] still
    executes its insert, with an empty list of rows: the statement inserts
    one row of defaults, the columns [profile_id] and [name] reject the
    null, and the cycle ends with [IntegrityError]; without profiles the
    concatenation already ends it with [ValueError]. The session is rolled
    back, so the store is left as it was. *)
Theorem empty_batch_raises :
  forall (self : Pipeline) (s : Store),
    process self s []
    = (s, Raise (match profiles self with
                 | [] => ValueError
                 | _ => IntegrityError
                 end)).
Proof.
  intros self s. unfold process. rewrite process_values_concat.
  assert (Hid : map (fun p => Profile.identify p []) (profiles self)
                = map (fun _ => []) (profiles self)) by reflexivity.
  rewrite Hid.
  destruct (profiles self) as [|p ps] eqn:Hp; simpl; [reflexivity|].
  rewrite concat_empty_frames. reflexivity.
Qed.

(** With messages the same cycle works: the first heartbeat of the
    specification creates the actor, the feature with count 1, the
    message, one event and one anomaly of score 1. *)
Example cold_start :
  let out := process example_pipeline empty_store [heartbeat 1 1 "hello"] in
  snd out = Ok tt
  /\ actors (fst out) = [mkActor 1 1 "George"]
  /\ features (fst out) = [mkFeature 1 1 1 (quoted "hello") 1]
  /\ map m_id (messages (fst out)) = [1]
  /\ events (fst out) = [mkEvent 1 1 1 1]
  /\ map (fun a => (an_event_id a, an_field_id a, an_feature_id a))
       (anomalies (fst out)) = [(1, 1, 1)].
Proof. vm_compute. repeat split; reflexivity. Qed.

End PipelineFacts.

Module PipelineWrites.
Import Py Frames Pipeline PipelineFrame FramesFacts ProfileFacts.

(** Facts about what [Pipeline._process] writes. *)

Lemma same_feature_refl (fs : list Feature) :
  Forall2 same_feature_counted_up fs fs.
Proof.
  induction fs as [|f rest IH]; constructor; [|exact IH].
  unfold same_feature_counted_up. repeat split; lia.
Qed.

Lemma same_feature_trans (a b c : list Feature) :
  Forall2 same_feature_counted_up a b ->
  Forall2 same_feature_counted_up b c ->
  Forall2 same_feature_counted_up a c.
Proof.
  intros Hab. revert c. induction Hab as [|x y a b Hxy _ IH]; intros c Hbc.
  - inversion Hbc. constructor.
  - inversion Hbc as [|? z ? c' Hyz Hrest]; subst. constructor.
    + destruct Hxy as [H1 [H2 H3]]. destruct Hyz as [H4 [H5 H6]].
      unfold same_feature_counted_up. repeat split; try congruence. lia.
    + now apply IH.
Qed.

Lemma extends_refl (s : Store) : extends s s.
Proof.
  constructor.
  - exists []. now rewrite app_nil_r.
  - exists []. now rewrite app_nil_r.
  - exists []. now rewrite app_nil_r.
  - exists []. split; [now rewrite app_nil_r | intros a []].
  - intros e He. now left.
  - exists (features s), []. split; [now rewrite app_nil_r|].
    apply same_feature_refl.
Qed.

Lemma extends_trans (s1 s2 s3 : Store) :
  extends s1 s2 -> extends s2 s3 -> extends s1 s3.
Proof.
  intros [[a1 Ha1] [m1 Hm1] [e1 He1] [n1 [Hn1 Hp1]] Hev1 [u1 [f1 [Hf1 Hu1]]]]
         [[a2 Ha2] [m2 Hm2] [e2 He2] [n2 [Hn2 Hp2]] Hev2 [u2 [f2 [Hf2 Hu2]]]].
  constructor.
  - exists (a1 ++ a2). now rewrite Ha2, Ha1, app_assoc.
  - exists (m1 ++ m2). now rewrite Hm2, Hm1, app_assoc.
  - exists (e1 ++ e2). now rewrite He2, He1, app_assoc.
  - exists (n1 ++ n2). split; [now rewrite Hn2, Hn1, app_assoc|].
    intros a Ha. apply in_app_or in Ha. destruct Ha; auto.
  - intros e He. destruct (Hev2 e He) as [He2'|Hhas]; [|now right].
    destruct (Hev1 e He2') as [He1'|[a [Ha Hid]]]; [now left|].
    right. exists a. split; [|exact Hid]. rewrite Hn2.
    apply in_or_app. now left.
  - rewrite Hf1 in Hu2. apply Forall2_app_inv_l in Hu2.
    destruct Hu2 as [u2a [u2b [Hua [Hub ->]]]].
    exists u2a, (u2b ++ f2). split; [now rewrite Hf2, app_assoc|].
    now apply (same_feature_trans _ u1).
Qed.

Lemma insert_actor_extends (s s' : Store) (tuple : option (Z * string)) :
  insert_actor s tuple = Ok s' -> extends s s'.
Proof.
  unfold insert_actor. destruct tuple as [[profile name]|]; [|discriminate].
  destruct (existsb _ (actors s)); intros H; inversion H; subst.
  - apply extends_refl.
  - destruct (extends_refl s) as [_ Hm He Hn Hev Hf].
    constructor; cbn; try assumption. now eexists.
Qed.

Lemma insert_message_extends (s s' : Store) (m : StoredMessage) :
  insert_message s m = Ok s' -> extends s s'.
Proof.
  unfold insert_message.
  destruct (existsb _ (messages s)); intros H; inversion H; subst.
  - apply extends_refl.
  - destruct (extends_refl s) as [Ha _ He Hn Hev Hf].
    constructor; cbn; try assumption. now eexists.
Qed.

Lemma counted_up_map (key : Z * Z * string) (c : Z) (fs : list Feature) :
  0 <= c ->
  Forall2 same_feature_counted_up fs
    (map (fun f =>
            if fav_eqb (feature_fav f) key
            then mkFeature (feature_id f) (f_field_id f) (f_actor_id f)
                   (f_value f) (f_count f + c)
            else f)
         fs).
Proof.
  intros Hc. induction fs as [|f rest IH]; cbn; constructor; [|exact IH].
  destruct (fav_eqb (feature_fav f) key); cbn;
    unfold same_feature_counted_up; repeat split; cbn; lia.
Qed.

Lemma upsert_feature_extends (s s' : Store) (tuple : Z * Z * string * Z) :
  0 <= snd tuple -> upsert_feature s tuple = Ok s' -> extends s s'.
Proof.
  intros Hc. unfold upsert_feature.
  destruct (extends_refl s) as [Ha Hm He Hn Hev _].
  destruct (existsb _ (features s)); intros H; inversion H; subst;
    constructor; cbn; try assumption.
  - eexists. exists []. split; [now rewrite app_nil_r|].
    now apply counted_up_map.
  - exists (features s). eexists. split; [reflexivity|].
    apply same_feature_refl.
Qed.

Lemma insert_event_extends (s s' : Store)
    (g : Z * Z * Z * list (Reporters.Scored * Z)) :
  snd g <> [] ->
  (forall a, In a (snd g) -> (0 < Reporters.s_score (fst a))%Q) ->
  insert_event s g = Ok s' -> extends s s'.
Proof.
  intros Hne Hpos H. unfold insert_event in H. inversion H; subst. clear H.
  destruct (extends_refl s) as [Ha Hm _ _ _ Hf].
  constructor; cbn; try assumption.
  - now eexists.
  - eexists. split; [reflexivity|]. intros a Hin.
    apply in_map_iff in Hin. destruct Hin as [[i x] [<- Hin]]. cbn.
    apply Hpos. unfold reset_index in Hin.
    apply ReportersFacts.enumerate_from_In in Hin. tauto.
  - intros e He. apply in_app_or in He. destruct He as [He|[<-|[]]];
      [now left|]. right.
    destruct (snd g) as [|x rest] eqn:Hg; [contradiction|].
    eexists. split.
    + apply in_or_app. right. cbn. left. reflexivity.
    + reflexivity.
Qed.

Lemma execute_each_extends {A : Type} (insert : Store -> A -> result Store)
    (tuples : list A) :
  (forall s t s', In t tuples -> insert s t = Ok s' -> extends s s') ->
  forall s s', execute_each insert s tuples = Ok s' -> extends s s'.
Proof.
  induction tuples as [|t rest IH]; intros Hins s s'; cbn [execute_each].
  - intros H. inversion H. apply extends_refl.
  - destruct (insert s t) as [s1|e] eqn:Ht; cbn [bind]; [|discriminate].
    intros H. apply (extends_trans s s1 s').
    + apply (Hins s t s1); [now left | exact Ht].
    + apply IH; [|exact H]. intros s0 t0 s0' Hin. apply Hins. now right.
Qed.

Lemma get_actors_extends (s s' : Store) (values : list (string * Value))
    (found : list Actor) :
  get_actors s values = Ok (s', found) -> extends s s'.
Proof.
  unfold get_actors.
  destruct (execute_each insert_actor s _) as [s1|e] eqn:Hexec;
    cbn [bind]; [|discriminate].
  intros H. inversion H; subst.
  apply (execute_each_extends insert_actor _
           (fun s0 t s0' _ => insert_actor_extends s0 s0' t) s s' Hexec).
Qed.

Lemma update_features_extends (s s' : Store) (values : list Value)
    (fs : list Feature) :
  update_features s values = Ok (s', fs) -> extends s s'.
Proof.
  unfold update_features. destruct values as [|v rest].
  - intros H. inversion H. apply extends_refl.
  - destruct (execute_each upsert_feature s _) as [s1|e] eqn:Hexec;
      cbn [bind]; [|discriminate].
    intros H. inversion H; subst.
    apply (execute_each_extends upsert_feature
             (Profile.grouped (v :: rest))) with (s := s) (s' := s');
      [|exact Hexec].
    intros s0 [key c] s0' Hin. apply upsert_feature_extends. cbn.
    apply grouped_In in Hin. destruct Hin as [_ ->].
    apply nunique_nonnegative.
Qed.

(** Every event of [_generate_events] has a row, and its rows are rows of
    the anomalies. *)
Lemma event_groups_rows (found : list (Reporters.Scored * Z))
    (g : Z * Z * Z * list (Reporters.Scored * Z)) :
  In g (event_groups found) ->
  snd g <> [] /\ forall a, In a (snd g) -> In a found.
Proof.
  unfold event_groups. rewrite in_flat_map. intros [profile [_ Hg]].
  apply in_map_iff in Hg. destruct Hg as [key [<- Hkey]]. cbn [snd].
  set (profile_group := filter _ found) in *.
  apply (group_keys_In event_key_eqb) in Hkey.
  2:{ intros [[a b] c] [[a' b'] c']. unfold event_key_eqb. cbn.
      rewrite !andb_true_iff, !Z.eqb_eq. split.
      - intros [[-> ->] ->]. reflexivity.
      - intros Heq. inversion Heq. tauto. }
  apply in_map_iff in Hkey. destruct Hkey as [a [Hk Ha]]. split.
  - intros Hnil.
    assert (Hin : In a (filter (fun a0 => event_key_eqb (event_key a0) key)
                          profile_group)).
    { apply filter_In. split; [exact Ha|]. rewrite Hk.
      destruct key as [[x y] z]. unfold event_key_eqb. cbn.
      now rewrite !Z.eqb_refl. }
    rewrite Hnil in Hin. destruct Hin.
  - intros a0 Ha0. apply filter_In in Ha0. destruct Ha0 as [Ha0 _].
    unfold profile_group in Ha0. now apply filter_In in Ha0.
Qed.

Lemma generate_events_extends (s s' : Store)
    (buffered : list Message.Message)
    (found : list (Reporters.Scored * Z)) :
  (forall a, In a found -> (0 < Reporters.s_score (fst a))%Q) ->
  generate_events s buffered found = Ok s' -> extends s s'.
Proof.
  intros Hpos. unfold generate_events.
  destruct (execute_each insert_message s _) as [s1|e] eqn:Hm;
    cbn [bind]; [|discriminate].
  intros He. apply (extends_trans s s1 s').
  - apply (execute_each_extends insert_message _
             (fun s0 t s0' _ => insert_message_extends s0 s0' t) s s1 Hm).
  - apply (execute_each_extends insert_event (event_groups found))
      with (s := s1) (s' := s'); [|exact He].
    intros s0 g s0' Hg. apply event_groups_rows in Hg.
    destruct Hg as [Hne Hin]. apply insert_event_extends; [exact Hne|].
    intros a Ha. apply Hpos. now apply Hin.
Qed.

(** X18. A cycle of the pipeline only adds to what is committed, however
    it ends: after [_process], with or without an exception, every
    actor, message, event and anomaly that was stored is stored
    unchanged, in its place; every anomaly added has a score above 0;
    every event added has an anomaly; and every feature is still there
    with its id and key, and a count that is not smaller. *)
Theorem process_only_adds :
  forall (self : Pipeline) (s : Store) (buffered : list Message.Message),
    extends s (fst (process self s buffered)).
Proof.
  intros self s buffered. unfold process.
  destruct (process_values self buffered) as [values|e];
    [|apply extends_refl].
  destruct (get_actors s values) as [[s1 found]|e] eqn:Hactors;
    [|apply extends_refl].
  pose proof (get_actors_extends _ _ _ _ Hactors) as H1.
  destruct (score_profiles self _ _ _) as [[|scored more]|e];
    cbn [fst]; try exact H1.
  set (anomalous := filter _ (List.concat (scored :: more))).
  destruct (update_features s1 (merge_actors values found))
    as [[sf fs]|e] eqn:Hfeatures; cbn [bind fst snd]; [|exact H1].
  pose proof (update_features_extends _ _ _ _ Hfeatures) as H2.
  destruct (generate_events sf buffered _) as [s2|e] eqn:Hevents;
    cbn [fst]; [|exact H1].
  apply (extends_trans s s1 s2 H1). apply (extends_trans s1 sf s2 H2).
  eapply generate_events_extends; [|exact Hevents].
  intros a Ha. apply merge_left_unique in Ha.
  destruct Ha as [r [Hr Hcase]].
  assert (Hscore : (0 < Reporters.s_score r)%Q).
  { unfold anomalous in Hr. apply filter_In in Hr. destruct Hr as [_ Hr].
    now apply ReportersFacts.Qlt_bool_iff. }
  destruct Hcase as [[f [_ [_ ->]]]|[_ ->]]; exact Hscore.
Qed.

End PipelineWrites.

(** * Facts about [investigator/base.py] *)

Module InvestigatorFacts.
Import Py Investigator FramesFacts.

(** ** Lists *)

Lemma Z_seq_In (len : nat) (start k : Z) :
  In k (Z_seq start len) <-> start <= k < start + Z.of_nat len.
Proof.
  revert start. induction len as [|len IH]; intros start; simpl Z_seq.
  - simpl. lia.
  - simpl In. rewrite IH. lia.
Qed.

Lemma Z_seq_length (len : nat) (start : Z) :
  List.length (Z_seq start len) = len.
Proof.
  revert start. induction len as [|len IH]; intros start; simpl;
    [reflexivity | now rewrite IH].
Qed.

Lemma NoDup_map_inj {A B : Type} (f : A -> B) (l : list A) (x y : A) :
  NoDup (map f l) -> In x l -> In y l -> f x = f y -> x = y.
Proof.
  induction l as [|a rest IH]; intros Hnd Hx Hy He; [destruct Hx|].
  simpl in Hnd. inversion Hnd as [|? ? Hn Hrest]; subst.
  destruct Hx as [->|Hx], Hy as [->|Hy].
  - reflexivity.
  - exfalso. apply Hn. rewrite He. now apply in_map.
  - exfalso. apply Hn. rewrite <- He. now apply in_map.
  - now apply IH.
Qed.

(** Distinct keys stay distinct when rows are filtered out. *)
Lemma distinct_keys_filter {Row Key : Type} (key : Row -> Key)
    (keep : Row -> bool) :
  forall rows : list Row,
    NoDup (map key rows) -> NoDup (map key (filter keep rows)).
Proof.
  intros rows. induction rows as [|a rest IH]; intros Hnd; simpl;
    [constructor|].
  simpl in Hnd. inversion Hnd as [|? ? Hn Hrest]; subst.
  destruct (keep a); simpl; [|now apply IH].
  constructor; [|now apply IH].
  intros Hin. apply Hn. apply in_map_iff in Hin.
  destruct Hin as [y [He Hy]]. apply filter_In in Hy.
  rewrite <- He. apply in_map. tauto.
Qed.

(** Deleting by a unique id removes one row. *)
Lemma delete_length (rows : list Investigation) (r0 : Investigation) :
  NoDup (map id rows) -> In r0 rows ->
  S (List.length (filter (fun r => negb (id r =? id r0)) rows))
  = List.length rows.
Proof.
  induction rows as [|a rest IH]; intros Hnd Hin; [destruct Hin|].
  simpl in Hnd. inversion Hnd as [|? ? Hn Hrest]; subst. simpl.
  destruct Hin as [->|Hin].
  - rewrite Z.eqb_refl. simpl. f_equal. f_equal. apply filter_all.
    intros x Hx. apply negb_true_iff. apply Z.eqb_neq. intros He.
    apply Hn. rewrite <- He. now apply in_map.
  - destruct (id a =? id r0) eqn:He.
    + apply Z.eqb_eq in He. exfalso. apply Hn. rewrite He. now apply in_map.
    + simpl. f_equal. now apply IH.
Qed.

Lemma latest_of_In (rows : list Investigation) (r : Investigation) :
  latest_of rows = Some r -> In r rows.
Proof.
  revert r. induction rows as [|a rest IH]; intros r; simpl; [discriminate|].
  destruct (latest_of rest) as [m|].
  - destruct (created_at m <? created_at a); intros H; inversion H; subst.
    + now left.
    + right. now apply IH.
  - intros H. inversion H. now left.
Qed.

Lemma query_latest_In (s : Store) (g : Z) (r : Investigation) :
  query_latest s g = Some r ->
  In r (investigations s) /\ group_id r = g.
Proof.
  unfold query_latest, group_rows. intros H. apply latest_of_In in H.
  apply filter_In in H. destruct H as [Hin Hg]. split; [exact Hin|].
  now apply Z.eqb_eq in Hg.
Qed.

Lemma index_taken_false (s : Store) (g i : Z) :
  index_taken s g i = false -> ~ In (Some i) (map index (group_rows g s)).
Proof.
  unfold index_taken. intros H Hin. apply in_map_iff in Hin.
  destruct Hin as [r [He Hr]].
  assert (existsb (index_is i) (group_rows g s) = true).
  { apply existsb_exists. exists r. split; [exact Hr|].
    unfold index_is. rewrite He. apply Z.eqb_refl. }
  congruence.
Qed.

(** ** The rows of a group *)

(** The indices of a group that satisfies [group_ok] are 1, ..., n. *)
Lemma group_ok_gap_free (rows : list Investigation) :
  group_ok rows -> gap_free rows.
Proof.
  intros [Hb [Hnd _]]. unfold gap_free.
  apply NoDup_Permutation_bis; [exact Hnd| |].
  - rewrite !length_map, Z_seq_length. apply Nat.le_refl.
  - intros o Ho. apply in_map_iff in Ho. destruct Ho as [r [<- Hr]].
    destruct (Hb r Hr) as [k [-> Hk]]. apply in_map. apply Z_seq_In. lia.
Qed.

Lemma group_ok_full (rows : list Investigation) (k : Z) :
  group_ok rows -> 1 <= k <= Z.of_nat (List.length rows) ->
  In (Some k) (map index rows).
Proof.
  intros Hok Hk. apply group_ok_gap_free in Hok.
  eapply Permutation_in; [apply Permutation_sym, Hok|].
  apply in_map. apply Z_seq_In. lia.
Qed.

Lemma group_ok_nil : group_ok [].
Proof.
  repeat split; simpl; try tauto. constructor.
Qed.

(** Appending a row whose index is free and follows an assigned row of the
    group, or is 1. *)
Lemma group_ok_insert (rows : list Investigation) (new : Investigation)
    (i : Z) :
  group_ok rows ->
  index new = Some i ->
  ~ In (Some i) (map index rows) ->
  (i = 1 \/ exists p, In p rows /\ index p = Some (i - 1)
                      /\ is_assigned p = true) ->
  i = Z.of_nat (List.length rows) + 1 /\ group_ok (rows ++ [new]).
Proof.
  intros Hok Hi Hfree Hprev.
  pose proof Hok as [Hb [Hnd Hun]].
  set (n := Z.of_nat (List.length rows)) in *.
  assert (Hrange : 1 <= i <= n + 1).
  { destruct Hprev as [->|[p [Hp [Hip _]]]]; [subst n; lia|].
    destruct (Hb p Hp) as [k [Hk Hle]]. rewrite Hip in Hk.
    inversion Hk. lia. }
  assert (Hi' : i = n + 1).
  { destruct (Z.eq_dec i (n + 1)) as [He|Hne]; [exact He|].
    exfalso. apply Hfree. apply group_ok_full; [exact Hok|]. fold n. lia. }
  split; [exact Hi'|].
  unfold group_ok. rewrite length_app. simpl List.length.
  replace (Z.of_nat (List.length rows + 1)) with (n + 1) by (subst n; lia).
  repeat split.
  - intros r Hr. apply in_app_iff in Hr. destruct Hr as [Hr|[<-|[]]].
    + destruct (Hb r Hr) as [k [Hk Hle]]. exists k. split; [exact Hk | lia].
    + exists i. split; [exact Hi | lia].
  - rewrite map_app. simpl. apply NoDup_app; [exact Hnd | |].
    + constructor; [intros [] | constructor].
    + intros o Ho [<-|[]]. apply Hfree. now rewrite <- Hi.
  - intros r Hr Hu. apply in_app_iff in Hr. destruct Hr as [Hr|[<-|[]]].
    + exfalso. pose proof (Hun r Hr Hu) as Hrn.
      destruct Hprev as [->|[p [Hp [Hip Hap]]]].
      * assert (n = 0) by lia. subst n.
        destruct rows; [destruct Hr | simpl in *; lia].
      * assert (r = p).
        { apply (NoDup_map_inj index rows); try assumption.
          rewrite Hrn, Hip. f_equal. lia. }
        subst r. congruence.
    + now rewrite Hi, Hi'.
Qed.

(** Deleting a row that is not assigned. *)
Lemma group_ok_delete (rows : list Investigation) (x : Z) :
  group_ok rows -> NoDup (map id rows) ->
  (forall r, In r rows -> id r = x -> is_assigned r = false) ->
  group_ok (filter (fun r => negb (id r =? x)) rows).
Proof.
  intros Hok Hids Hx.
  destruct (existsb (fun r => id r =? x) rows) eqn:He.
  - apply existsb_exists in He. destruct He as [r0 [Hr0 He]].
    apply Z.eqb_eq in He. subst x.
    pose proof Hok as [Hb [Hnd Hun]].
    pose proof (Hun r0 Hr0 (Hx r0 Hr0 eq_refl)) as Hlast.
    pose proof (delete_length rows r0 Hids Hr0) as Hlen.
    set (rows' := filter (fun r => negb (id r =? id r0)) rows) in *.
    assert (Hsub : forall r, In r rows' -> In r rows /\ r <> r0).
    { intros r Hr. apply filter_In in Hr. destruct Hr as [Hr Hn].
      split; [exact Hr|]. intros ->. now rewrite Z.eqb_refl in Hn. }
    unfold group_ok. repeat split.
    + intros r Hr. destruct (Hsub r Hr) as [Hin Hne].
      destruct (Hb r Hin) as [k [Hk Hle]]. exists k. split; [exact Hk|].
      assert (k <> Z.of_nat (List.length rows)).
      { intros ->. apply Hne.
        apply (NoDup_map_inj index rows); try assumption. congruence. }
      lia.
    + now apply distinct_keys_filter.
    + intros r Hr Hu. destruct (Hsub r Hr) as [Hin Hne].
      exfalso. apply Hne.
      apply (NoDup_map_inj index rows); try assumption.
      rewrite (Hun r Hin Hu). now rewrite Hlast.
  - assert (Hsame : filter (fun r => negb (id r =? x)) rows = rows).
    { apply filter_all. intros r Hr. apply negb_true_iff.
      destruct (id r =? x) eqn:Hrx; [|reflexivity].
      assert (existsb (fun r => id r =? x) rows = true).
      { apply existsb_exists. now exists r. }
      congruence. }
    now rewrite Hsame.
Qed.

(** Changing rows in place, without touching index, and without taking an
    assignment back. *)
Lemma group_ok_map (f : Investigation -> Investigation)
    (rows : list Investigation) :
  (forall r, index (f r) = index r) ->
  (forall r, is_assigned r = true -> is_assigned (f r) = true) ->
  group_ok rows -> group_ok (map f rows).
Proof.
  intros Hi Ha [Hb [Hnd Hun]]. unfold group_ok. rewrite length_map.
  repeat split.
  - intros r' Hr'. apply in_map_iff in Hr'. destruct Hr' as [r [<- Hr]].
    rewrite Hi. now apply Hb.
  - rewrite map_map. erewrite map_ext; [exact Hnd|]. intros r. apply Hi.
  - intros r' Hr' Hu. apply in_map_iff in Hr'. destruct Hr' as [r [<- Hr]].
    rewrite Hi. apply Hun; [exact Hr|].
    destruct (is_assigned r) eqn:Har; [|reflexivity].
    rewrite (Ha r Har) in Hu. discriminate.
Qed.

(** ** The store *)

Lemma filter_filter_swap {A : Type} (p q : A -> bool) (l : list A) :
  filter p (filter q l) = filter q (filter p l).
Proof.
  induction l as [|a rest IH]; simpl; [reflexivity|].
  destruct (p a) eqn:Hp, (q a) eqn:Hq; simpl; rewrite ?Hp, ?Hq, IH;
    reflexivity.
Qed.

Lemma filter_map_commute {A : Type} (p : A -> bool) (f : A -> A)
    (l : list A) :
  (forall x, p (f x) = p x) -> filter p (map f l) = map f (filter p l).
Proof.
  intros H. induction l as [|a rest IH]; simpl; [reflexivity|].
  rewrite H. destruct (p a); simpl; now rewrite IH.
Qed.

Lemma store_ok_insert (s s' : Store) (me g i x : Z) :
  store_ok s ->
  insert_investigation s me g i = Ok (s', x) ->
  (i = 1 \/ exists p, In p (investigations s) /\ group_id p = g
                      /\ index p = Some (i - 1) /\ is_assigned p = true) ->
  store_ok s'
  /\ x = next_id s
  /\ next_id s' = next_id s + 1
  /\ investigations s'
     = investigations s
       ++ [mkInvestigation (next_id s) g (Some i) (now s) (Some me) false]
  /\ i = Z.of_nat (List.length (group_rows g s)) + 1.
Proof.
  intros [Hids [Hfresh Hgroups]] Hins Hprev.
  unfold insert_investigation in Hins.
  destruct (index_taken s g i) eqn:Htaken; [discriminate|].
  inversion Hins; subst s' x; clear Hins. simpl.
  set (new := mkInvestigation (next_id s) g (Some i) (now s) (Some me) false).
  assert (Hnew : i = Z.of_nat (List.length (group_rows g s)) + 1
                 /\ group_ok (group_rows g s ++ [new])).
  { apply (group_ok_insert _ new i); [apply Hgroups | reflexivity | |].
    - now apply index_taken_false.
    - destruct Hprev as [->|[p [Hp [Hg [Hi Ha]]]]]; [now left|].
      right. exists p. split; [|tauto]. apply filter_In. split; [exact Hp|].
      unfold in_group. now apply Z.eqb_eq. }
  split; [|split; [reflexivity|split; [reflexivity|split;
    [reflexivity|tauto]]]].
  unfold store_ok. simpl. split; [|split].
  - rewrite map_app. simpl. apply NoDup_app; [exact Hids | |].
    + constructor; [intros [] | constructor].
    + intros y Hy [<-|[]]. apply in_map_iff in Hy.
      destruct Hy as [r [He Hr]]. specialize (Hfresh r Hr). lia.
  - intros r Hr. apply in_app_iff in Hr.
    destruct Hr as [Hr|[<-|[]]]; [specialize (Hfresh r Hr); lia|].
    simpl. lia.
  - intros g'. unfold group_rows. simpl. rewrite filter_app. simpl.
    unfold in_group at 2. simpl.
    destruct (g =? g') eqn:Hg.
    + apply Z.eqb_eq in Hg. subst g'. apply Hnew.
    + rewrite app_nil_r. apply Hgroups.
Qed.

Lemma store_ok_delete (s : Store) (x : Z) :
  store_ok s ->
  (forall r, In r (investigations s) -> id r = x -> is_assigned r = false) ->
  store_ok (delete_investigation s x).
Proof.
  intros [Hids [Hfresh Hgroups]] Hx. unfold store_ok. simpl.
  split; [|split].
  - now apply distinct_keys_filter.
  - intros r Hr. apply filter_In in Hr. now apply Hfresh.
  - intros g. unfold group_rows. simpl. rewrite filter_filter_swap.
    apply group_ok_delete.
    + apply Hgroups.
    + now apply distinct_keys_filter.
    + intros r Hr. apply filter_In in Hr. now apply Hx.
Qed.

Lemma store_ok_map (f : Investigation -> Investigation) (s : Store) :
  (forall r, id (f r) = id r) ->
  (forall r, group_id (f r) = group_id r) ->
  (forall r, index (f r) = index r) ->
  (forall r, is_assigned r = true -> is_assigned (f r) = true) ->
  store_ok s ->
  store_ok (mkStore (map f (investigations s)) (next_id s) (now s)).
Proof.
  intros Hid Hg Hi Ha [Hids [Hfresh Hgroups]]. unfold store_ok. simpl.
  split; [|split].
  - rewrite map_map. erewrite map_ext; [exact Hids|]. intros r. apply Hid.
  - intros r' Hr'. apply in_map_iff in Hr'. destruct Hr' as [r [<- Hr]].
    rewrite Hid. now apply Hfresh.
  - intros g. unfold group_rows. simpl. rewrite filter_map_commute.
    + apply group_ok_map; [exact Hi | exact Ha | apply Hgroups].
    + intros r. unfold in_group. now rewrite Hg.
Qed.

(** ** The threads *)

Lemma local_ok_set (group_of : Z -> Z) (s : Store) (loc : Z -> Local)
    (me : Z) (l : Local) :
  local_ok group_of s loc ->
  (forall p, l = Claiming (Some p) ->
     exists r, In r (investigations s) /\ index r = index p
               /\ group_id r = group_of me /\ is_assigned r = true) ->
  (forall x, l = Collecting x ->
     x < next_id s
     /\ (forall r, In r (investigations s) -> id r = x ->
                   is_assigned r = false)
     /\ forall other, loc other <> Collecting x) ->
  local_ok group_of s (fun other => if other =? me then l else loc other).
Proof.
  intros [Hc [Hk Hd]] Hlc Hlk. unfold local_ok.
  split; [|split].
  - intros me' p. destruct (me' =? me) eqn:He.
    + apply Z.eqb_eq in He. subst me'. apply Hlc.
    + apply Hc.
  - intros me' x. destruct (me' =? me) eqn:He.
    + intros Hl. destruct (Hlk x Hl) as [H1 [H2 _]]. now split.
    + apply Hk.
  - intros me1 me2 x.
    destruct (me1 =? me) eqn:H1, (me2 =? me) eqn:H2.
    + apply Z.eqb_eq in H1, H2. congruence.
    + intros Hl Ho. destruct (Hlk x Hl) as [_ [_ H]]. now destruct (H me2).
    + intros Ho Hl. destruct (Hlk x Hl) as [_ [_ H]]. now destruct (H me1).
    + apply Hd.
Qed.

Lemma local_ok_store (group_of : Z -> Z) (s s' : Store) (loc : Z -> Local)
    (keep : Z -> Prop) :
  local_ok group_of s loc ->
  (forall r, In r (investigations s) -> is_assigned r = true ->
     exists r', In r' (investigations s') /\ index r' = index r
                /\ group_id r' = group_id r /\ is_assigned r' = true) ->
  next_id s <= next_id s' ->
  (forall me x, loc me = Collecting x -> keep x) ->
  (forall x r', keep x -> x < next_id s ->
     (forall r, In r (investigations s) -> id r = x ->
                is_assigned r = false) ->
     In r' (investigations s') -> id r' = x -> is_assigned r' = false) ->
  local_ok group_of s' loc.
Proof.
  intros [Hc [Hk Hd]] Hassigned Hnext Hkeep Hun. unfold local_ok.
  split; [|split].
  - intros me p Hl. destruct (Hc me p Hl) as [r [Hr [Hi [Hg Ha]]]].
    destruct (Hassigned r Hr Ha) as [r' [Hr' [Hi' [Hg' Ha']]]].
    exists r'. repeat split; congruence.
  - intros me x Hl. destruct (Hk me x Hl) as [Hlt Hall]. split; [lia|].
    intros r' Hr' Hid.
    now apply (Hun x r' (Hkeep me x Hl) Hlt Hall).
  - exact Hd.
Qed.

Lemma local_ok_plain (group_of : Z -> Z) (s : Store) (loc : Z -> Local)
    (me : Z) (l : Local) :
  local_ok group_of s loc ->
  (forall p, l <> Claiming (Some p)) -> (forall x, l <> Collecting x) ->
  local_ok group_of s (fun other => if other =? me then l else loc other).
Proof.
  intros Hok Hc Hk. apply local_ok_set; [exact Hok | |].
  - intros p Hp. now destruct (Hc p).
  - intros x Hx. now destruct (Hk x).
Qed.

(** Deleting the rows of an id whose rows are not assigned keeps what the
    threads hold. *)
Lemma local_ok_delete (group_of : Z -> Z) (s : Store) (loc : Z -> Local)
    (x : Z) :
  local_ok group_of s loc ->
  (forall r, In r (investigations s) -> id r = x -> is_assigned r = false) ->
  local_ok group_of (delete_investigation s x) loc.
Proof.
  intros Hok Hx.
  apply (local_ok_store group_of s _ loc (fun _ => True) Hok).
  - intros r Hr Ha. exists r. split; [|tauto]. simpl. apply filter_In.
    split; [exact Hr|]. apply negb_true_iff. apply Z.eqb_neq.
    intros He. rewrite (Hx r Hr He) in Ha. discriminate.
  - simpl. lia.
  - trivial.
  - intros y r' _ _ Hall Hr' Hid. simpl in Hr'. apply filter_In in Hr'.
    apply Hall; tauto.
Qed.

Lemma assign_row_props (x : Z) (r : Investigation) :
  let r' := if id r =? x
            then mkInvestigation (id r) (group_id r) (index r) (created_at r)
                   (created_by r) true
            else r in
  id r' = id r /\ group_id r' = group_id r /\ index r' = index r
  /\ (is_assigned r = true -> is_assigned r' = true)
  /\ (id r <> x -> r' = r).
Proof.
  simpl. destruct (id r =? x) eqn:He; simpl; repeat split; try tauto.
  apply Z.eqb_eq in He. intros H. contradiction.
Qed.

Lemma remove_row_props (me : Z) (r : Investigation) :
  let r' := if created_by_is me r
            then mkInvestigation (id r) (group_id r) (index r) (created_at r)
                   None (is_assigned r)
            else r in
  id r' = id r /\ group_id r' = group_id r /\ index r' = index r
  /\ is_assigned r' = is_assigned r.
Proof.
  simpl. destruct (created_by_is me r); simpl; repeat split.
Qed.

(** ** Every action keeps the invariant *)

Lemma act_invariant (group_of : Z -> Z) (a : Action) (w : World) :
  invariant group_of w -> invariant group_of (act group_of a w).
Proof.
  intros [Hs Hl]. pose proof Hs as [Hids [Hfresh Hgroups]].
  pose proof Hl as [Hc [Hk Hd]].
  assert (Hquery : forall me,
    done_waiting (query_latest (store w) (group_of me)) = true ->
    invariant group_of
      (mkWorld (store w)
         (set_local w me
            (Claiming (query_latest (store w) (group_of me)))))).
  { intros me Hdone. split; [exact Hs|]. simpl. unfold set_local.
    apply local_ok_set; [exact Hl | |].
    - intros p Hp. inversion Hp as [Hq]. rewrite Hq in Hdone.
      apply query_latest_In in Hq. exists p. simpl in Hdone. tauto.
    - discriminate. }
  assert (Hplain : forall me l,
    (forall p, l <> Claiming (Some p)) -> (forall x, l <> Collecting x) ->
    invariant group_of (mkWorld (store w) (set_local w me l))).
  { intros me l H1 H2. split; [exact Hs|]. simpl. unfold set_local.
    now apply local_ok_plain. }
  destruct a as [me|me|me|me|me|me|me|me]; simpl.
  - (* FirstQuery *)
    destruct (local w me); try (split; assumption).
    destruct (done_waiting _) eqn:Hdone; [now apply Hquery|].
    apply Hplain; discriminate.
  - (* WaitPass *)
    destruct (local w me); try (split; assumption).
    destruct (done_waiting _) eqn:Hdone; [now apply Hquery|].
    destruct (query_latest (store w) (group_of me)) as [r|] eqn:Hq;
      [|split; assumption].
    destruct (created_by r); [split; assumption|].
    apply query_latest_In in Hq. destruct Hq as [Hr _]. simpl in Hdone.
    assert (Hx : forall r', In r' (investigations (store w)) ->
                            id r' = id r -> is_assigned r' = false).
    { intros r' Hr' He.
      now rewrite (NoDup_map_inj id _ r' r Hids Hr' Hr He). }
    split; simpl.
    + now apply store_ok_delete.
    + now apply local_ok_delete.
  - (* LeaveWait *)
    destruct (local w me); try (split; assumption).
    apply Hplain; discriminate.
  - (* Create *)
    destruct (local w me) as [| |previous|x| |err] eqn:Hme; try (split; assumption).
    destruct (next_index previous) as [i|] eqn:Hi;
      [|apply Hplain; discriminate].
    destruct (insert_investigation (store w) me (group_of me) i)
      as [[s' x]|e] eqn:Hins; [|apply Hplain; discriminate].
    assert (Hprev : i = 1 \/
      exists p, In p (investigations (store w)) /\ group_id p = group_of me
                /\ index p = Some (i - 1) /\ is_assigned p = true).
    { destruct previous as [p|]; simpl in Hi.
      - right. destruct (Hc me p Hme) as [r [Hr [Hir [Hg Ha]]]].
        exists r. repeat split; try assumption. rewrite Hir.
        destruct (index p) as [k|]; simpl in Hi; [|discriminate].
        inversion Hi. f_equal. lia.
      - left. now inversion Hi. }
    destruct (store_ok_insert _ _ _ _ _ _ Hs Hins Hprev)
      as [Hs' [Hx [Hnext [Hrows _]]]].
    split; simpl; [exact Hs'|]. unfold set_local.
    apply local_ok_set.
    + apply (local_ok_store group_of (store w) s' _ (fun _ => True) Hl).
      * intros r Hr Ha. exists r. split; [|tauto]. rewrite Hrows.
        apply in_app_iff. now left.
      * lia.
      * trivial.
      * intros y r' _ Hy Hall Hr' Hid. rewrite Hrows in Hr'.
        apply in_app_iff in Hr'. destruct Hr' as [Hr'|[<-|[]]].
        -- now apply Hall.
        -- reflexivity.
    + discriminate.
    + intros y Hy. inversion Hy; subst y. split; [lia|]. split.
      * intros r Hr Hid. rewrite Hrows in Hr. apply in_app_iff in Hr.
        destruct Hr as [Hr|[<-|[]]]; [|reflexivity].
        specialize (Hfresh r Hr). lia.
      * intros other Ho. destruct (Hk other _ Ho) as [Hlt _]. lia.
  - (* DeleteEmpty *)
    destruct (local w me) as [| | |x| |err] eqn:Hme; try (split; assumption).
    destruct (Hk me x Hme) as [_ Hx].
    split; simpl.
    + now apply store_ok_delete.
    + unfold set_local. apply local_ok_plain; try discriminate.
      now apply local_ok_delete.
  - (* Assign *)
    destruct (local w me) as [| | |x| |err] eqn:Hme; try (split; assumption).
    split; simpl.
    + apply store_ok_map; try assumption; intros r;
        destruct (assign_row_props x r) as [H1 [H2 [H3 [H4 _]]]];
        assumption.
    + unfold assign_investigation, set_local.
      assert (Hl' : local_ok group_of (store w)
                      (fun other => if other =? me then Fetching
                                    else local w other)).
      { apply local_ok_plain; [exact Hl | discriminate | discriminate]. }
      apply (local_ok_store group_of (store w) _ _ (fun y => y <> x) Hl').
      * intros r Hr Ha.
        destruct (assign_row_props x r) as [H1 [H2 [H3 [H4 _]]]].
        eexists. split; [apply in_map, Hr|]. simpl. tauto.
      * simpl. lia.
      * intros me' y. destruct (me' =? me) eqn:He; [discriminate|].
        intros Ho ->. apply Z.eqb_neq in He. apply He.
        now apply (Hd me' me x).
      * intros y r' Hy _ Hall Hr' Hid. simpl in Hr'.
        apply in_map_iff in Hr'. destruct Hr' as [r [<- Hr]].
        destruct (assign_row_props x r) as [H1 [_ [_ [_ H5]]]].
        simpl in H1, H5. rewrite H1 in Hid. rewrite H5 by congruence.
        now apply Hall.
  - (* Stop *)
    apply Hplain; discriminate.
  - (* RemoveInvestigator *)
    split; simpl.
    + apply store_ok_map; try assumption; intros r;
        destruct (remove_row_props me r) as [H1 [H2 [H3 H4]]];
        try assumption. intros Ha. simpl in H4. now rewrite H4.
    + unfold delete_investigator.
      apply (local_ok_store group_of (store w) _ _ (fun _ => True) Hl).
      * intros r Hr Ha.
        destruct (remove_row_props me r) as [H1 [H2 [H3 H4]]].
        eexists. split; [apply in_map, Hr|]. simpl in *.
        rewrite H4. tauto.
      * simpl. lia.
      * trivial.
      * intros y r' _ _ Hall Hr' Hid. simpl in Hr'.
        apply in_map_iff in Hr'. destruct Hr' as [r [<- Hr]].
        destruct (remove_row_props me r) as [H1 [_ [_ H4]]].
        simpl in *. rewrite H4. rewrite H1 in Hid. now apply Hall.
Qed.

Lemma initial_invariant (group_of : Z -> Z) : invariant group_of initial.
Proof.
  split.
  - split; [constructor | split].
    + intros r [].
    + intros g. apply group_ok_nil.
  - split; [|split]; simpl; intros; discriminate.
Qed.

Lemma run_invariant (group_of : Z -> Z) (schedule : list Action) (w : World) :
  invariant group_of w -> invariant group_of (run group_of schedule w).
Proof.
  revert w. induction schedule as [|a rest IH]; intros w Hw; [exact Hw|].
  simpl. apply IH. now apply act_invariant.
Qed.

Lemma set_local_other (w : World) (other me : Z) (l : Local) :
  other <> me -> set_local w other l me = local w me.
Proof.
  intros Hne. unfold set_local.
  destruct (me =? other) eqn:Hm; [|reflexivity].
  apply Z.eqb_eq in Hm. congruence.
Qed.

(** A thread that has ended stays so, whatever is scheduled. *)
Lemma act_ended (group_of : Z -> Z) (a : Action) (w : World) (me : Z) :
  ended (local w me) = true ->
  ended (local (act group_of a w) me) = true.
Proof.
  intros He.
  destruct a as [o|o|o|o|o|o|o|o]; cbn [act];
    destruct (Z.eq_dec o me) as [->|Hne].
  all: try (destruct (local w me) eqn:Hl; try discriminate He;
            cbn [local]; rewrite Hl; reflexivity).
  all: try (repeat match goal with
                   | |- context [match ?x with _ => _ end] => destruct x
                   end;
            cbn [local]; rewrite ?set_local_other by assumption; exact He).
  cbn [local]. unfold set_local. now rewrite Z.eqb_refl.
Qed.

Lemma run_ended (group_of : Z -> Z) (schedule : list Action) :
  forall (w : World) (me : Z),
    ended (local w me) = true ->
    ended (local (run group_of schedule w) me) = true.
Proof.
  induction schedule as [|a rest IH]; intros w me He; [exact He|].
  cbn [run fold_left]. apply (IH (act group_of a w) me).
  now apply act_ended.
Qed.

(** C6. After any schedule of the transactions of any number of
    investigators on the migrated table, the indices of the
    investigations of every group are exactly 1, ..., n without gaps.
    A thread that holds [previous] inserts with the index
    [previous.index + 1], or 1 without a previous investigation: when the
    unique constraint accepts the row, the index is the number of rows of
    the group plus one and the thread goes on to collect for the new
    investigation. When the constraint rejects the row, the table is left
    as it was, but the thread does not go back to fetching the previous
    investigation: it ends with [InvalidRequestError], and whatever is
    scheduled afterwards it stays ended. So of the two investigators of
    scenario 4 that race for the first investigation, the second never
    gets an index: at the end of the scenario the table still holds the
    one row of the first. *)
Theorem rejected_claimant_never_retries :
  forall (group_of : Z -> Z) (schedule : list Action),
    let w := run group_of schedule initial in
    (forall g, gap_free (group_rows g (store w)))
    /\ (forall me previous i,
          local w me = Claiming previous ->
          next_index previous = Some i ->
          (index_taken (store w) (group_of me) i = false ->
           i = Z.of_nat (List.length (group_rows (group_of me) (store w))) + 1
           /\ investigations (store (act group_of (Create me) w))
              = investigations (store w)
                ++ [mkInvestigation (next_id (store w)) (group_of me) (Some i)
                      (now (store w)) (Some me) false]
           /\ local (act group_of (Create me) w) me
              = Collecting (next_id (store w)))
          /\ (index_taken (store w) (group_of me) i = true ->
              store (act group_of (Create me) w) = store w
              /\ local (act group_of (Create me) w) me
                 = Crashed InvalidRequestError
              /\ forall later,
                   ended (local (run group_of later
                                   (act group_of (Create me) w)) me)
                   = true))
    /\ local (run (fun _ => 7) (firstn 3 race) initial) 2 = Claiming None
    /\ index_taken (store (run (fun _ => 7) (firstn 3 race) initial)) 7 1
       = true
    /\ local (run (fun _ => 7) (firstn 4 race) initial) 2
       = Crashed InvalidRequestError
    /\ investigations (store (run (fun _ => 7) race initial))
       = [mkInvestigation 1 7 (Some 1) 0 None false].
Proof.
  intros group_of schedule w.
  assert (Hinv : invariant group_of w)
    by apply run_invariant, initial_invariant.
  destruct Hinv as [Hs Hl]. split; [|split].
  - intros g. apply group_ok_gap_free. apply Hs.
  - intros me previous i Hme Hi. split.
    + intros Hfree.
      assert (Hins : insert_investigation (store w) me (group_of me) i
                     = Ok (mkStore
                             (investigations (store w)
                              ++ [mkInvestigation (next_id (store w))
                                    (group_of me) (Some i) (now (store w))
                                    (Some me) false])
                             (next_id (store w) + 1) (now (store w) + 1),
                           next_id (store w))).
      { unfold insert_investigation. now rewrite Hfree. }
      assert (Hprev : i = 1 \/
        exists p, In p (investigations (store w))
                  /\ group_id p = group_of me
                  /\ index p = Some (i - 1) /\ is_assigned p = true).
      { destruct Hl as [Hc _]. destruct previous as [p|]; simpl in Hi.
        - right. destruct (Hc me p Hme) as [r [Hr [Hir [Hg Ha]]]].
          exists r. repeat split; try assumption. rewrite Hir.
          destruct (index p) as [k|]; simpl in Hi; [|discriminate].
          inversion Hi. f_equal. lia.
        - left. now inversion Hi. }
      destruct (store_ok_insert _ _ _ _ _ _ Hs Hins Hprev)
        as [_ [_ [_ [_ Hlen]]]].
      split; [exact Hlen|].
      simpl. rewrite Hme, Hi, Hins. simpl. unfold set_local.
      now rewrite Z.eqb_refl.
    + intros Htaken.
      assert (Hcrash : local (act group_of (Create me) w) me
                       = Crashed InvalidRequestError).
      { simpl. rewrite Hme, Hi. unfold insert_investigation.
        rewrite Htaken. simpl. unfold set_local. now rewrite Z.eqb_refl. }
      split; [|split; [exact Hcrash|]].
      * simpl. rewrite Hme, Hi. unfold insert_investigation.
        now rewrite Htaken.
      * intros later. apply run_ended. now rewrite Hcrash.
  - repeat split; reflexivity.
Qed.

(** Scenario 4 of the specification, step by step: of two investigators
    that race, the first gets index 1 and the second is rejected and
    ends; once the first investigator is removed without an assignment,
    its row stays, and nobody claims index 1 again. *)
Example race_scenario :
  map index (investigations (store (run (fun _ => 7) (firstn 4 race) initial)))
  = [Some 1]
  /\ local (run (fun _ => 7) (firstn 6 race) initial) 2
     = Crashed InvalidRequestError
  /\ map created_by
       (investigations (store (run (fun _ => 7) (firstn 7 race) initial)))
     = [None]
  /\ local (run (fun _ => 7) race initial) 2 = Crashed InvalidRequestError.
Proof. repeat split; reflexivity. Qed.

End InvestigatorFacts.

Module TimingFacts.
Import Timing.

Lemma init_kept (after : Z) (dividend : Q) (initialize : bool) :
  kept (init after dividend initialize).
Proof.
  constructor; cbn.
  - lia.
  - intros _. split; reflexivity.
  - intros _. now left.
  - destruct initialize; discriminate.
  - intros _. apply Qle_refl.
Qed.

Lemma reset_kept (self : ExponentialBackoff) (initialize : bool) :
  kept (reset self initialize).
Proof.
  constructor; cbn.
  - lia.
  - intros _. split; reflexivity.
  - intros _. now left.
  - destruct initialize; discriminate.
  - intros _. apply Qle_refl.
Qed.

Lemma share_nonneg (dividend : Q) (past : Z) :
  (0 <= dividend)%Q -> 0 < past -> (0 <= dividend / inject_Z past)%Q.
Proof.
  intros Hd Hp. unfold Qdiv. apply Qmult_le_0_compat; [exact Hd|].
  apply Qinv_le_0_compat. change 0%Q with (inject_Z 0).
  rewrite <- Zle_Qle. lia.
Qed.

Lemma next_kept (self : ExponentialBackoff) (draw : Z) :
  kept self -> kept (fst (next self draw)).
Proof.
  intros [Ha Hi Hb Hp Hd]. unfold next.
  destruct (_next self) eqn:Hn.
  - destruct (Hi eq_refl) as [Hat _].
    cbn. constructor; cbn;
      [lia | discriminate | intros _; now left | discriminate | exact Hd].
  - unfold calculate_timeout_call. cbn.
    destruct (_after self <=? _attempts self) eqn:Hle;
      [apply Z.leb_le in Hle | apply Z.leb_gt in Hle]; cbn;
      constructor; cbn; try rewrite Hn.
    + lia.
    + discriminate.
    + discriminate.
    + intros _. lia.
    + exact Hd.
    + lia.
    + discriminate.
    + intros _. right. lia.
    + discriminate.
    + exact Hd.
  - unfold calculate_past_threshold_call. cbn.
    specialize (Hp eq_refl).
    destruct (_attempts self - _after self =? 0) eqn:Hz;
      [apply Z.eqb_eq in Hz; lia|].
    cbn. constructor; cbn; try rewrite Hn.
    + lia.
    + discriminate.
    + discriminate.
    + intros _. lia.
    + intros Hdiv. specialize (Hd Hdiv).
      assert (Hs := share_nonneg (_dividend self)
                      (_attempts self - _after self) Hdiv ltac:(lia)).
      lra.
Qed.

Lemma next_returns (self : ExponentialBackoff) (draw : Z) :
  kept self -> is_Returned (snd (next self draw)) = true.
Proof.
  intros [Ha Hi Hb Hp Hd]. unfold next.
  destruct (_next self) eqn:Hn; cbn; [reflexivity|reflexivity|].
  unfold calculate_past_threshold_call. cbn.
  specialize (Hp eq_refl).
  destruct (_attempts self - _after self =? 0) eqn:Hz; cbn;
    [|reflexivity].
  apply Z.eqb_eq in Hz. lia.
Qed.

Lemma run_kept (calls : list Call) :
  forall self, kept self -> kept (fst (run self calls)).
Proof.
  induction calls as [|call rest IH]; intros self Hk; [exact Hk|].
  destruct call as [draw|initialize]; cbn [run].
  - assert (H1 := next_kept self draw Hk).
    destruct (next self draw) as [self1 out]. cbn [fst] in H1.
    specialize (IH self1 H1).
    destruct (run self1 rest) as [self2 outs]. exact IH.
  - apply IH, reset_kept.
Qed.

Lemma run_returns (calls : list Call) :
  forall self, kept self ->
    forallb is_Returned (snd (run self calls)) = true.
Proof.
  induction calls as [|call rest IH]; intros self Hk; [reflexivity|].
  destruct call as [draw|initialize]; cbn [run].
  - assert (H1 := next_kept self draw Hk).
    assert (H2 := next_returns self draw Hk).
    destruct (next self draw) as [self1 out]. cbn [fst snd] in H1, H2.
    specialize (IH self1 H1).
    destruct (run self1 rest) as [self2 outs]. cbn [snd] in *.
    cbn [forallb]. now rewrite H2, IH.
  - apply IH, reset_kept.
Qed.

(** X19. [next] never divides by 0: on an object made with any [after],
    [dividend] and [initialize], along any sequence of calls of [next]
    and [reset], every call of [next] returns a timeout. The division of
    [_calculate_past_threshold] is by the attempts past the threshold,
    and that method is only installed once the attempts have reached
    [after], so the divisor is at least 1. *)
Theorem next_never_divides_by_zero :
  forall (after : Z) (dividend : Q) (initialize : bool)
         (calls : list Call),
    forallb is_Returned (snd (run (init after dividend initialize) calls))
    = true.
Proof.
  intros after dividend initialize calls.
  apply run_returns, init_kept.
Qed.

Lemma jitter_nonneg (draw : Z) : 0 <= draw -> (0 <= jitter draw)%Q.
Proof.
  intros H. unfold jitter.
  change 1000%Q with (inject_Z 1000). apply share_nonneg; [|lia].
  change 0%Q with (inject_Z 0). rewrite <- Zle_Qle. exact H.
Qed.

Lemma jitter_le_1 (draw : Z) : draw <= 1000 -> (jitter draw <= 1)%Q.
Proof.
  intros H. unfold jitter. apply Qle_shift_div_r; [reflexivity|].
  change (1 * 1000)%Q with (inject_Z 1000). rewrite <- Zle_Qle. exact H.
Qed.

Lemma square_le (a b : Z) :
  0 <= a <= b -> (inject_Z (a ^ 2) <= inject_Z (b ^ 2))%Q.
Proof. intros H. rewrite <- Zle_Qle. nia. Qed.

Lemma square_nonneg (a : Z) : (0 <= inject_Z (a ^ 2))%Q.
Proof.
  change 0%Q with (inject_Z 0). rewrite <- Zle_Qle. nia.
Qed.

(** Two calls of [next] in a row. *)
Lemma next_twice (self : ExponentialBackoff) (draw1 draw2 : Z) :
  kept self -> (0 <= _dividend self)%Q -> 0 <= draw1 ->
  exists t1 t2,
    snd (next self draw1) = Returned t1
    /\ snd (next (fst (next self draw1)) draw2) = Returned t2
    /\ (t1 - jitter draw1 <= t2 - jitter draw2)%Q.
Proof.
  intros [Ha Hi Hb Hp Hd] Hdiv H1.
  specialize (Hd Hdiv).
  assert (Hj := jitter_nonneg draw1 H1).
  unfold next at 1 3. destruct (_next self) eqn:Hn.
  - destruct (Hi eq_refl) as [Hat Hto].
    cbn -[Z.pow]. unfold next, calculate_timeout_call. cbn -[Z.pow].
    do 2 eexists. split; [reflexivity|].
    destruct (_after self <=? _attempts self); cbn -[Z.pow];
      (split; [reflexivity|]).
    all: rewrite Hto; assert (Hs := square_nonneg (_attempts self)); lra.
  - unfold calculate_timeout_call at 1 2. cbn -[Z.pow].
    destruct (_after self <=? _attempts self) eqn:Hle; cbn -[Z.pow].
    + apply Z.leb_le in Hle.
      unfold next, calculate_past_threshold_call. cbn -[Z.pow].
      destruct (_attempts self + 1 - _after self =? 0) eqn:Hz;
        [apply Z.eqb_eq in Hz; lia|]. cbn -[Z.pow].
      do 2 eexists. split; [reflexivity|]. split; [reflexivity|].
      assert (Hs := share_nonneg (_dividend self)
                      (_attempts self + 1 - _after self) Hdiv ltac:(lia)).
      assert (Hsq : (inject_Z (_attempts self ^ 2)
                     <= inject_Z (_after self ^ 2))%Q).
      { rewrite <- Zle_Qle. destruct (Hb eq_refl) as [H0|H0]; nia. }
      lra.
    + unfold next, calculate_timeout_call. cbn -[Z.pow]. rewrite Hn. cbn -[Z.pow].
      assert (Hsq := square_le (_attempts self) (_attempts self + 1)
                       ltac:(lia)).
      destruct (_after self <=? _attempts self + 1); cbn -[Z.pow];
        do 2 eexists; (split; [reflexivity|]); (split; [reflexivity|]);
        lra.
  - specialize (Hp eq_refl).
    unfold calculate_past_threshold_call at 1 2. cbn -[Z.pow].
    destruct (_attempts self - _after self =? 0) eqn:Hz;
      [apply Z.eqb_eq in Hz; lia|]. cbn -[Z.pow].
    unfold next, calculate_past_threshold_call. cbn -[Z.pow]. rewrite Hn. cbn -[Z.pow].
    destruct (_attempts self + 1 - _after self =? 0) eqn:Hz';
      [apply Z.eqb_eq in Hz'; lia|]. cbn -[Z.pow].
    do 2 eexists. split; [reflexivity|]. split; [reflexivity|].
    assert (Hs := share_nonneg (_dividend self)
                    (_attempts self + 1 - _after self) Hdiv ltac:(lia)).
    lra.
Qed.

Lemma run_dividend (calls : list Call) :
  forall self, _dividend (fst (run self calls)) = _dividend self.
Proof.
  induction calls as [|call rest IH]; intros self; [reflexivity|].
  destruct call as [draw|initialize]; cbn [run].
  - assert (H1 : _dividend (fst (next self draw)) = _dividend self).
    { unfold next. destruct (_next self); cbn; [reflexivity| |].
      - unfold calculate_timeout_call. cbn.
        now destruct (_after self <=? _attempts self).
      - unfold calculate_past_threshold_call. cbn.
        now destruct (_attempts self - _after self =? 0). }
    destruct (next self draw) as [self1 out]. cbn [fst] in H1.
    specialize (IH self1).
    destruct (run self1 rest) as [self2 outs]. cbn [fst] in *.
    congruence.
  - now rewrite IH.
Qed.

(** X20. Between resets the timeouts grow, up to the random part: with a
    [dividend] that is not negative and draws of [random.randint(0,
    1000)], after any sequence of calls, the timeouts [t1] and [t2] of two
    calls of [next] in a row have [t1] less its random part at most [t2]
    less its random part; so a timeout is never more than one second
    shorter than the one before it. *)
Theorem timeouts_grow_up_to_jitter :
  forall (after : Z) (dividend : Q) (initialize : bool)
         (calls : list Call) (draw1 draw2 : Z),
    (0 <= dividend)%Q ->
    0 <= draw1 <= 1000 ->
    0 <= draw2 <= 1000 ->
    let self := fst (run (init after dividend initialize) calls) in
    exists t1 t2,
      snd (next self draw1) = Returned t1
      /\ snd (next (fst (next self draw1)) draw2) = Returned t2
      /\ (t1 - jitter draw1 <= t2 - jitter draw2)%Q
      /\ (t1 - 1 <= t2)%Q.
Proof.
  intros after dividend initialize calls draw1 draw2 Hdiv H1 H2 self.
  assert (Hk : kept self) by apply run_kept, init_kept.
  assert (Hd : (0 <= _dividend self)%Q).
  { unfold self. rewrite run_dividend. exact Hdiv. }
  destruct (next_twice self draw1 draw2 Hk Hd ltac:(lia))
    as (t1 & t2 & E1 & E2 & Hle).
  exists t1, t2. repeat split; try assumption.
  assert (Hj1 := jitter_le_1 draw1 ltac:(lia)).
  assert (Hj2 := jitter_nonneg draw2 ltac:(lia)).
  lra.
Qed.

Lemma timeouts_grow_up_to_jitter_witness :
  let self := fst (run (init 2 1 true)
                     [call_next 500; call_next 0; call_next 1000]) in
  exists t1 t2,
    snd (next self 1000) = Returned t1
    /\ snd (next (fst (next self 1000)) 0) = Returned t2
    /\ (t1 - jitter 1000 <= t2 - jitter 0)%Q
    /\ (t1 - 1 <= t2)%Q.
Proof.
  apply (timeouts_grow_up_to_jitter 2 1 true
           [call_next 500; call_next 0; call_next 1000] 1000 0).
  - discriminate.
  - lia.
  - lia.
Defined.

End TimingFacts.
